(** * LogiX Dispatch: a shallow embedding of the dispatch-and-routing core

    The development follows the TypeScript sources:
    - [utils/pathfinding.ts]  : [getNeighbors], [getManhattanDistance], [findPath]
    - [utils/algorithms.ts]   : [solveAssignment], [solveTSP]
    - [App.tsx]               : [handleSimulationTick], [createOrder]

    JavaScript numbers that hold grid coordinates, distances, earnings and
    millisecond counters are integers in the program and are modelled by [Z].
    Rider speeds, movement accumulators and the values of [Math.random()]
    are fractional: they are IEEE-754 doubles, modelled by the primitive
    type [float] with its round-to-nearest-even operations.  A
    [Set<string>] is a [gset string]; the keys are built by [posKey] exactly
    as the template literal does. *)

From Stdlib Require Import ZArith List Lia QArith Qround Qpower Qfield Lqa Ascii Floats.
From stdpp Require Import gmap strings list pretty.

Open Scope Z_scope.

(** ** constants.ts *)

Definition GRID_ROWS : Z := 20.
Definition GRID_COLS : Z := 20.
Definition COOKING_TIME_MS : Z := 15000.
Definition DELAY_MS : Z := 50.

(** ** types.ts *)

Record Position := mkPos { r : Z; c : Z }.

#[global] Instance Position_eq_dec : EqDecision Position.
Proof. solve_decision. Defined.

Inductive Algorithm := DIJKSTRA | GREEDY | ASTAR.

#[global] Instance Algorithm_eq_dec : EqDecision Algorithm.
Proof. solve_decision. Defined.

(** [PathNode] is a linked list through [parent]. *)
#[warnings="-register-all"]
Inductive PathNode :=
  mkNode (pos : Position) (distance : Z) (parent : option PathNode).

Definition pos (n : PathNode) : Position := let '(mkNode p _ _) := n in p.
Definition distance (n : PathNode) : Z := let '(mkNode _ d _) := n in d.
Definition parent (n : PathNode) : option PathNode := let '(mkNode _ _ p) := n in p.

Inductive EntityType := RIDER | HOTEL | HOME | WALL.

Inductive RiderStatus :=
  IDLE | MOVING_TO_HOTEL | WAITING_FOR_FOOD | DELIVERING | RETURNING.

Inductive OrderStatus := COOKING | READY | DELIVERED.

#[global] Instance RiderStatus_eq_dec : EqDecision RiderStatus.
Proof. solve_decision. Defined.

#[global] Instance OrderStatus_eq_dec : EqDecision OrderStatus.
Proof. solve_decision. Defined.

Module Entity.
Record t := mk {
  id : string;
  type : EntityType;
  pos : Position;
  label : string;
  color : string
}.
End Entity.

(** A rider.  [speed] and [movementAccumulator] are fractional: they are
    doubles.  [deliveryQueue] is optional; the field
    [encodedPathToHotel], which is only ever written with [null], is not
    represented. *)
Module Rider.
Record t := mk {
  id : string;
  type : EntityType;
  pos : Position;
  label : string;
  color : string;
  status : RiderStatus;
  pathQueue : list Position;
  assignedOrderIds : list string;
  targetEntityId : option string;
  speed : float;
  movementAccumulator : float;
  totalEarnings : Z;
  totalOrdersDelivered : Z;
  totalDistanceTraveled : Z;
  deliveryQueue : option (list string)
}.
End Rider.

Module Order.
Record t := mk {
  id : string;
  homeId : string;
  hotelId : string;
  riderId : option string;
  status : OrderStatus;
  cookingTimeRemainingMs : Z;
  timestamp : string;
  pickupTime : option Z;
  actualDeliveryTimeMs : option Z;
  blocksCovered : option Z
}.
End Order.

Module COLORS.
Definition RIDER_IDLE : string := "bg-cyan-500 text-white".
Definition RIDER_BUSY : string := "bg-indigo-500 text-white".
End COLORS.

(** Conversions between the integers and the doubles of the program. *)
Module Number.

(** The double that holds the integer [n]: [n] itself below [2 ^ 53], the
    nearest double beyond. *)
Definition ofZ (n : Z) : float := SF2Prim (binary_normalize prec emax n 0 false).

(** [Math.floor(x)], read as an integer; [NaN] and the infinities have
    none. *)
Definition floor (x : float) : option Z :=
  match Prim2SF x with
  | S754_zero _ => Some 0
  | S754_finite s m e => Some (Z.shiftl (cond_Zopp s (Zpos m)) e)
  | _ => None
  end.

End Number.

(** The [scenario] state of the application. *)
Inductive Scenario :=
  SANDBOX | DEMO_ASTAR | DEMO_HUNGARIAN | DEMO_TSP | DEMO_FAIRNESS.

#[global] Instance Scenario_eq_dec : EqDecision Scenario.
Proof. solve_decision. Defined.

(** ** utils/pathfinding.ts *)

Module Pathfinding.

(** The template literal [`${p.r},${p.c}`]. *)
Definition posKey (p : Position) : string :=
  pretty (r p) +:+ "," +:+ pretty (c p).

Definition dirs : list Position :=
  [ mkPos (-1) 0; mkPos 1 0; mkPos 0 (-1); mkPos 0 1 ].

Definition inGrid (p : Position) : bool :=
  (0 <=? r p) && (r p <? GRID_ROWS) && (0 <=? c p) && (c p <? GRID_COLS).

Definition getNeighbors (p : Position) : list Position :=
  filter (fun n => inGrid n = true)
         (map (fun d => mkPos (r p + r d) (c p + c d)) dirs).

Definition getManhattanDistance (a b : Position) : Z :=
  Z.abs (r a - r b) + Z.abs (c a - c b).

(** [Array.prototype.sort] with a comparator is a stable sort: elements
    that compare equal keep their order.  [insertBy] places [x], which
    precedes every element of [l] in the array, in front of the first
    element that must come strictly later or ties with it. *)
Fixpoint insertBy {A} (cmp : A -> A -> Z) (x : A) (l : list A) : list A :=
  match l with
  | [] => [x]
  | y :: t => if cmp x y <=? 0 then x :: y :: t else y :: insertBy cmp x t
  end.

Definition sortBy {A} (cmp : A -> A -> Z) (l : list A) : list A :=
  foldr (insertBy cmp) [] l.

(** The three comparators of the priority-queue step. *)
Definition compareNodes (algorithm : Algorithm) (goal : Position)
    (a b : PathNode) : Z :=
  match algorithm with
  | GREEDY => getManhattanDistance (pos a) goal - getManhattanDistance (pos b) goal
  | ASTAR => (distance a + getManhattanDistance (pos a) goal)
             - (distance b + getManhattanDistance (pos b) goal)
  | DIJKSTRA => distance a - distance b
  end.

(** [executionTime] is a difference of two wall-clock readings and carries
    no information about the search; it is left out of the record. *)
Record PathResult := mkPathResult {
  path : list Position;
  visitedCount : Z;
  visitedOrder : list Position
}.

(** The mutable locals of [findPath]. *)
Record SearchState := mkSearch {
  queue : list PathNode;
  visited : gset string;
  order : list Position;
  count : Z
}.

(** The inner [while (curr)] loop: positions from a node up to the root. *)
Fixpoint chain (n : PathNode) : list Position :=
  match n with
  | mkNode p _ None => [p]
  | mkNode p _ (Some q) => p :: chain q
  end.

(** The [for (const neighbor of neighbors)] loop. *)
Fixpoint expand (walls : gset string) (current : PathNode)
    (neighbors : list Position) (st : SearchState) : SearchState :=
  match neighbors with
  | [] => st
  | neighbor :: rest =>
      let key := posKey neighbor in
      if bool_decide (key ∉ visited st) && bool_decide (key ∉ walls) then
        expand walls current rest
          (mkSearch (queue st ++ [mkNode neighbor (distance current + 1) (Some current)])
                    ({[key]} ∪ visited st)
                    (order st ++ [neighbor])
                    (count st))
      else expand walls current rest st
  end.

(** A computation that is cut off after a number of loop iterations. *)
Inductive run (A : Type) :=
  | Done (a : A)
  | OutOfFuel.
Arguments Done {A} a.
Arguments OutOfFuel {A}.

(** The outer [while (queue.length > 0)] loop; [None] is [null]. *)
Fixpoint search (fuel : nat) (goal : Position) (walls : gset string)
    (algorithm : Algorithm) (st : SearchState) : run (option PathResult) :=
  match fuel with
  | O => OutOfFuel
  | S fuel' =>
      match sortBy (compareNodes algorithm goal) (queue st) with
      | [] => Done None
      | current :: rest =>
          let visitedCount := count st + 1 in
          if bool_decide (r (pos current) = r goal) && bool_decide (c (pos current) = c goal)
          then Done (Some (mkPathResult (rev (chain current)) visitedCount (order st)))
          else search fuel' goal walls algorithm
                 (expand walls current (getNeighbors (pos current))
                    (mkSearch rest (visited st) (order st) visitedCount))
      end
  end.

Definition initial (start : Position) : SearchState :=
  mkSearch [mkNode start 0 None] {[posKey start]} [start] 0.

(** Every grid cell enters the queue at most once, and so does [start]:
    the loop body runs at most [GRID_ROWS * GRID_COLS + 1] times before the
    queue is found empty (see [findPath_returns]). *)
Definition maxIterations : nat := Z.to_nat (GRID_ROWS * GRID_COLS) + 2.

Definition findPath_run (start goal : Position) (walls : gset string)
    (algorithm : Algorithm) : run (option PathResult) :=
  search maxIterations goal walls algorithm (initial start).

Definition findPath (start goal : Position) (walls : gset string)
    (algorithm : Algorithm) : option PathResult :=
  match findPath_run start goal walls algorithm with
  | Done res => res
  | OutOfFuel => None
  end.

End Pathfinding.


(** ** utils/algorithms.ts *)

Module Algorithms.
Import Pathfinding.

(** JavaScript's [Infinity] as the initial value of a running minimum:
    [None] is [Infinity], [Some d] a finite number. *)
Definition ltInf (d : Z) (m : option Z) : bool :=
  match m with
  | None => true
  | Some x => d <? x
  end.

Definition geInf (d : Z) (m : option Z) : bool :=
  match m with
  | None => false
  | Some x => x <=? d
  end.

(** *** solveAssignment *)

Record AssignmentResult := mkAssignment {
  riderIndex : nat;
  orderIndex : Z;
  cost : Z
}.

(** The variables shared by all invocations of [backtrack]: the two
    [let]-bound results, the set [usedOrders] and the one array that is
    passed along as [currentAssignment] and updated in place. *)
Record AssignState := mkAssign {
  minTotalCost : option Z;
  bestAssignment : list Z;
  usedOrders : gset nat;
  currentAssignment : list Z
}.

Definition costMatrixOf (riderPositions orderPositions : list Position)
    : list (list Z) :=
  map (fun rp => map (fun op => getManhattanDistance rp op) orderPositions)
      riderPositions.

(** [costMatrix[i][j]] for indices inside the matrix. *)
Definition entry (costMatrix : list (list Z)) (i j : nat) : Z :=
  (costMatrix !!! i) !!! j.

Fixpoint backtrack (fuel : nat) (n m : nat) (costMatrix : list (list Z))
    (riderIdx : nat) (currentCost : Z) (st : AssignState) : AssignState :=
  if geInf currentCost (minTotalCost st) then st
  else if (riderIdx =? n)%nat then
    if ltInf currentCost (minTotalCost st)
    then mkAssign (Some currentCost) (currentAssignment st)
                  (usedOrders st) (currentAssignment st)
    else st
  else
    match fuel with
    | O => st
    | S fuel' =>
        let '(st1, foundOption) :=
          foldl (fun (acc : AssignState * bool) (j : nat) =>
                   let '(s, found) := acc in
                   if bool_decide (j ∉ usedOrders s) then
                     let s1 := mkAssign (minTotalCost s) (bestAssignment s)
                                 ({[j]} ∪ usedOrders s)
                                 (<[riderIdx := Z.of_nat j]> (currentAssignment s)) in
                     let s2 := backtrack fuel' n m costMatrix (S riderIdx)
                                 (currentCost + entry costMatrix riderIdx j) s1 in
                     (mkAssign (minTotalCost s2) (bestAssignment s2)
                               (usedOrders s2 ∖ {[j]}) (currentAssignment s2), true)
                   else (s, found))
                (st, false) (seq 0 m) in
        if negb foundOption && (m <? n)%nat then
          backtrack fuel' n m costMatrix (S riderIdx) currentCost
            (mkAssign (minTotalCost st1) (bestAssignment st1) (usedOrders st1)
                      (<[riderIdx := -1]> (currentAssignment st1)))
        else st1
    end.

Definition solveAssignment (riderPositions orderPositions : list Position)
    : list AssignmentResult :=
  let n := length riderPositions in
  let m := length orderPositions in
  let costMatrix := costMatrixOf riderPositions orderPositions in
  let final := backtrack n n m costMatrix 0 0
                 (mkAssign None [] ∅ (replicate n (-1))) in
  omap (fun i =>
          match bestAssignment final !! i with
          | Some orderIdx =>
              if bool_decide (orderIdx <> -1)
              then Some (mkAssignment i orderIdx (entry costMatrix i (Z.to_nat orderIdx)))
              else None
          | None => None
          end)
       (seq 0 n).

(** *** solveTSP *)

(** The [method] argument; its names live in a module of their own so that
    [Method.GREEDY] does not hide the pathfinding strategy [GREEDY]. *)
Module Method.
Inductive t := NAIVE | GREEDY | OPTIMAL.
End Method.

(** The cost loop of the base case of [permute]. *)
Fixpoint tourCost (curr : Position) (m : list Position) : Z :=
  match m with
  | [] => 0
  | p :: rest => getManhattanDistance curr p + tourCost p rest
  end.

Record TourState := mkTour {
  minDist : option Z;
  bestPath : list Position
}.

(** [permute(arr, m)].  [curr.splice(i, 1)] removes the element at index
    [i] from the copy and returns it in a one-element array. *)
Fixpoint permute (fuel : nat) (start : Position) (arr m : list Position)
    (st : TourState) : TourState :=
  match arr with
  | [] =>
      let d := tourCost start m in
      if ltInf d (minDist st) then mkTour (Some d) m else st
  | _ =>
      match fuel with
      | O => st
      | S fuel' =>
          foldl (fun s i =>
                   let next := take 1 (drop i arr) in
                   let curr := take i arr ++ drop (S i) arr in
                   permute fuel' start curr (m ++ next) s)
                st (seq 0 (length arr))
      end
  end.

(** The [while (unvisited.length > 0)] loop of the nearest-neighbour mode;
    the array is sorted in place, so the order left by one iteration is the
    input of the next. *)
Fixpoint nearestLoop (fuel : nat) (current : Position)
    (unvisited result : list Position) : list Position :=
  match fuel with
  | O => result
  | S fuel' =>
      match sortBy (fun a b => getManhattanDistance current a
                               - getManhattanDistance current b) unvisited with
      | [] => result
      | next :: rest => nearestLoop fuel' next rest (result ++ [next])
      end
  end.

Definition solveTSP (start : Position) (points : list Position)
    (method : Method.t) : list Position :=
  match method with
  | Method.NAIVE => points
  | Method.GREEDY => nearestLoop (length points) start points []
  | Method.OPTIMAL =>
      bestPath (permute (length points) start points [] (mkTour None []))
  end.

End Algorithms.

(** ** App.tsx *)

Module App.
Import Pathfinding Algorithms.

(** *** Object spread with one field replaced *)

Definition setPos (v : Position) (x : Rider.t) : Rider.t :=
  Rider.mk (Rider.id x) (Rider.type x) v (Rider.label x) (Rider.color x)
    (Rider.status x) (Rider.pathQueue x) (Rider.assignedOrderIds x)
    (Rider.targetEntityId x) (Rider.speed x) (Rider.movementAccumulator x)
    (Rider.totalEarnings x) (Rider.totalOrdersDelivered x)
    (Rider.totalDistanceTraveled x) (Rider.deliveryQueue x).

Definition setColor (v : string) (x : Rider.t) : Rider.t :=
  Rider.mk (Rider.id x) (Rider.type x) (Rider.pos x) (Rider.label x) v
    (Rider.status x) (Rider.pathQueue x) (Rider.assignedOrderIds x)
    (Rider.targetEntityId x) (Rider.speed x) (Rider.movementAccumulator x)
    (Rider.totalEarnings x) (Rider.totalOrdersDelivered x)
    (Rider.totalDistanceTraveled x) (Rider.deliveryQueue x).

Definition setStatus (v : RiderStatus) (x : Rider.t) : Rider.t :=
  Rider.mk (Rider.id x) (Rider.type x) (Rider.pos x) (Rider.label x) (Rider.color x)
    v (Rider.pathQueue x) (Rider.assignedOrderIds x)
    (Rider.targetEntityId x) (Rider.speed x) (Rider.movementAccumulator x)
    (Rider.totalEarnings x) (Rider.totalOrdersDelivered x)
    (Rider.totalDistanceTraveled x) (Rider.deliveryQueue x).

Definition setPathQueue (v : list Position) (x : Rider.t) : Rider.t :=
  Rider.mk (Rider.id x) (Rider.type x) (Rider.pos x) (Rider.label x) (Rider.color x)
    (Rider.status x) v (Rider.assignedOrderIds x)
    (Rider.targetEntityId x) (Rider.speed x) (Rider.movementAccumulator x)
    (Rider.totalEarnings x) (Rider.totalOrdersDelivered x)
    (Rider.totalDistanceTraveled x) (Rider.deliveryQueue x).

Definition setAssignedOrderIds (v : list string) (x : Rider.t) : Rider.t :=
  Rider.mk (Rider.id x) (Rider.type x) (Rider.pos x) (Rider.label x) (Rider.color x)
    (Rider.status x) (Rider.pathQueue x) v
    (Rider.targetEntityId x) (Rider.speed x) (Rider.movementAccumulator x)
    (Rider.totalEarnings x) (Rider.totalOrdersDelivered x)
    (Rider.totalDistanceTraveled x) (Rider.deliveryQueue x).

Definition setTargetEntityId (v : option string) (x : Rider.t) : Rider.t :=
  Rider.mk (Rider.id x) (Rider.type x) (Rider.pos x) (Rider.label x) (Rider.color x)
    (Rider.status x) (Rider.pathQueue x) (Rider.assignedOrderIds x)
    v (Rider.speed x) (Rider.movementAccumulator x)
    (Rider.totalEarnings x) (Rider.totalOrdersDelivered x)
    (Rider.totalDistanceTraveled x) (Rider.deliveryQueue x).

Definition setMovementAccumulator (v : float) (x : Rider.t) : Rider.t :=
  Rider.mk (Rider.id x) (Rider.type x) (Rider.pos x) (Rider.label x) (Rider.color x)
    (Rider.status x) (Rider.pathQueue x) (Rider.assignedOrderIds x)
    (Rider.targetEntityId x) (Rider.speed x) v
    (Rider.totalEarnings x) (Rider.totalOrdersDelivered x)
    (Rider.totalDistanceTraveled x) (Rider.deliveryQueue x).

Definition setStats (earnings delivered travelled : Z) (x : Rider.t) : Rider.t :=
  Rider.mk (Rider.id x) (Rider.type x) (Rider.pos x) (Rider.label x) (Rider.color x)
    (Rider.status x) (Rider.pathQueue x) (Rider.assignedOrderIds x)
    (Rider.targetEntityId x) (Rider.speed x) (Rider.movementAccumulator x)
    earnings delivered travelled (Rider.deliveryQueue x).

Definition setDeliveryQueue (v : option (list string)) (x : Rider.t) : Rider.t :=
  Rider.mk (Rider.id x) (Rider.type x) (Rider.pos x) (Rider.label x) (Rider.color x)
    (Rider.status x) (Rider.pathQueue x) (Rider.assignedOrderIds x)
    (Rider.targetEntityId x) (Rider.speed x) (Rider.movementAccumulator x)
    (Rider.totalEarnings x) (Rider.totalOrdersDelivered x)
    (Rider.totalDistanceTraveled x) v.

Definition setRiderId (v : option string) (o : Order.t) : Order.t :=
  Order.mk (Order.id o) (Order.homeId o) (Order.hotelId o) v (Order.status o)
    (Order.cookingTimeRemainingMs o) (Order.timestamp o) (Order.pickupTime o)
    (Order.actualDeliveryTimeMs o) (Order.blocksCovered o).

Definition setOrderStatus (v : OrderStatus) (o : Order.t) : Order.t :=
  Order.mk (Order.id o) (Order.homeId o) (Order.hotelId o) (Order.riderId o) v
    (Order.cookingTimeRemainingMs o) (Order.timestamp o) (Order.pickupTime o)
    (Order.actualDeliveryTimeMs o) (Order.blocksCovered o).

Definition setCookingTime (v : Z) (o : Order.t) : Order.t :=
  Order.mk (Order.id o) (Order.homeId o) (Order.hotelId o) (Order.riderId o)
    (Order.status o) v (Order.timestamp o) (Order.pickupTime o)
    (Order.actualDeliveryTimeMs o) (Order.blocksCovered o).

Definition setPickupTime (v : option Z) (o : Order.t) : Order.t :=
  Order.mk (Order.id o) (Order.homeId o) (Order.hotelId o) (Order.riderId o)
    (Order.status o) (Order.cookingTimeRemainingMs o) (Order.timestamp o) v
    (Order.actualDeliveryTimeMs o) (Order.blocksCovered o).

Definition setActualDeliveryTimeMs (v : option Z) (o : Order.t) : Order.t :=
  Order.mk (Order.id o) (Order.homeId o) (Order.hotelId o) (Order.riderId o)
    (Order.status o) (Order.cookingTimeRemainingMs o) (Order.timestamp o)
    (Order.pickupTime o) v (Order.blocksCovered o).

Definition setBlocksCovered (v : option Z) (o : Order.t) : Order.t :=
  Order.mk (Order.id o) (Order.homeId o) (Order.hotelId o) (Order.riderId o)
    (Order.status o) (Order.cookingTimeRemainingMs o) (Order.timestamp o)
    (Order.pickupTime o) (Order.actualDeliveryTimeMs o) v.

(** *** Array helpers *)

(** [Array.prototype.findIndex]; [None] is [-1]. *)
Fixpoint findIndex {A} (p : A -> bool) (l : list A) : option nat :=
  match l with
  | [] => None
  | x :: t => if p x then Some O else S <$> findIndex p t
  end.

Definition includes (l : list string) (x : string) : bool := bool_decide (x ∈ l).

Definition byId (i : string) (e : Entity.t) : bool := bool_decide (Entity.id e = i).

Definition riderById (i : string) (x : Rider.t) : bool := bool_decide (Rider.id x = i).

Definition isIdle (x : Rider.t) : bool := bool_decide (Rider.status x = IDLE).

Definition samePos (a b : Position) : bool :=
  bool_decide (r a = r b) && bool_decide (c a = c b).

(** [path.slice(1)] *)
Definition slice1 {A} (l : list A) : list A := tail l.

(** *** The application state

    [autoOrderRef] is the [useRef] cell of the same name; all other fields
    are [useState] cells. *)
Record World := mkWorld {
  riders : list Rider.t;
  orders : list Order.t;
  hotels : list Entity.t;
  homes : list Entity.t;
  walls : gset string;
  algorithm : Algorithm;
  scenario : Scenario;
  fairnessMode : bool;
  fairnessAlpha : Z;
  pathTrace : gset string;
  distanceTraveled : Z;
  statusMessage : string;
  autoOrderRef : Z
}.

(** *** handleSimulationTick: movement *)

(** The locals of the movement block after its [while] loop. *)
Record Moved := mkMoved {
  newAccumulator : float;
  currentPos : Position;
  currentPath : list Position;
  stepsMoved : Z;
  trace : gset string
}.

(** [while (newAccumulator >= 1 && currentPath.length > 0)] *)
Fixpoint moveLoop (acc : float) (here : Position) (queue : list Position)
    (steps : Z) (tr : gset string) : Moved :=
  match queue with
  | nextPos :: rest =>
      if (1 <=? acc)%float
      then moveLoop (acc - 1)%float nextPos rest (steps + 1) ({[posKey nextPos]} ∪ tr)
      else mkMoved acc here queue steps tr
  | [] => mkMoved acc here queue steps tr
  end.

Definition move (rider : Rider.t) (tr : gset string) : Moved :=
  moveLoop (Rider.movementAccumulator rider + Rider.speed rider)%float
           (Rider.pos rider) (Rider.pathQueue rider) 0 tr.

(** The rider returned by the movement block. *)
Definition movedRider (rider : Rider.t) (mv : Moved) : Rider.t :=
  if 0 <? stepsMoved mv
  then setMovementAccumulator (newAccumulator mv)
         (setPathQueue (currentPath mv) (setPos (currentPos mv) rider))
  else setMovementAccumulator (newAccumulator mv) rider.

(** *** handleSimulationTick: the working copies

    [nextOrders] is the array built by [orders.map]; it is updated in place
    for the rest of the tick.  An element that [map] returned unchanged is
    the very object held by the [orders] array of the state, so a later
    assignment to one of its fields is seen through both arrays: the flag
    paired with each element records whether it is still that shared
    object.  [ordersSet] records whether [setOrders(nextOrders)] has been
    called, [message] the last argument of [setStatusMessage], and
    [distanceAdded] the sum of the queued [setDistanceTraveled] updates. *)
Record TickState := mkTick {
  nextOrders : list (Order.t * bool);
  ordersSet : bool;
  ridersChanged : bool;
  pathTraceChanged : bool;
  nextPathTrace : gset string;
  distanceAdded : Z;
  message : option string
}.

Definition setNextOrders (v : list (Order.t * bool)) (st : TickState) : TickState :=
  mkTick v (ordersSet st) (ridersChanged st) (pathTraceChanged st)
         (nextPathTrace st) (distanceAdded st) (message st).

Definition markOrdersSet (st : TickState) : TickState :=
  mkTick (nextOrders st) true (ridersChanged st) (pathTraceChanged st)
         (nextPathTrace st) (distanceAdded st) (message st).

Definition markRidersChanged (st : TickState) : TickState :=
  mkTick (nextOrders st) (ordersSet st) true (pathTraceChanged st)
         (nextPathTrace st) (distanceAdded st) (message st).

Definition setMessage (v : string) (st : TickState) : TickState :=
  mkTick (nextOrders st) (ordersSet st) (ridersChanged st) (pathTraceChanged st)
         (nextPathTrace st) (distanceAdded st) (Some v).

Definition currentOrders (st : TickState) : list Order.t := (nextOrders st).*1.

(** Step 1 of the tick: the callback of [orders.map]. *)
Definition newTime (o : Order.t) : Z :=
  Z.max 0 (Order.cookingTimeRemainingMs o - DELAY_MS).

Definition cookOrder (o : Order.t) : Order.t * bool :=
  if bool_decide (Order.status o = COOKING) then
    (setOrderStatus (if newTime o =? 0 then READY else COOKING)
       (setCookingTime (newTime o) o), false)
  else (o, true).

Definition cookingChanges (o : Order.t) : bool :=
  bool_decide (Order.status o = COOKING)
  && negb (newTime o =? Order.cookingTimeRemainingMs o).

(** *** handleSimulationTick: a rider that has stopped *)

(** The nearest-neighbour [while (remainingTargets.length > 0)] loop. *)
Fixpoint nearestRoute (fuel : nat) (walls : gset string) (algorithm : Algorithm)
    (here : Position) (remainingTargets : list (string * Entity.t))
    (calculatedPath : list Position) (calculatedQueue : list string)
    : list Position * list string :=
  match fuel with
  | O => (calculatedPath, calculatedQueue)
  | S fuel' =>
      match sortBy (fun a b =>
                      getManhattanDistance here (Entity.pos a.2)
                      - getManhattanDistance here (Entity.pos b.2))
                   remainingTargets with
      | [] => (calculatedPath, calculatedQueue)
      | nextTarget :: rest =>
          let queue' := calculatedQueue ++ [nextTarget.1] in
          match findPath here (Entity.pos nextTarget.2) walls algorithm with
          | Some legPath =>
              nearestRoute fuel' walls algorithm (Entity.pos nextTarget.2) rest
                (calculatedPath ++ slice1 (path legPath)) queue'
          | None =>
              nearestRoute fuel' walls algorithm here rest calculatedPath queue'
          end
      end
  end.

(** [nextOrders[idx].pickupTime = Date.now()] for the first order with the
    given id: an assignment to a field of the object in place. *)
Definition stampPickup (now : Z) (orderId : string) (st : TickState) : TickState :=
  match findIndex (fun no => bool_decide (Order.id no = orderId)) (currentOrders st) with
  | Some idx =>
      setNextOrders
        (alter (fun e => (setPickupTime (Some now) e.1, e.2)) idx (nextOrders st)) st
  | None => st
  end.

(** The branch [rider.status === 'WAITING_FOR_FOOD'].  [None] stands for the
    [TypeError] raised when the home of one of the rider's orders is not in
    [homes]: [homes.find(...)!] is then [undefined], and its [pos] is read
    by the comparator of the first sort (two targets or more) or by the
    first [findPath] call (one target). *)
Definition waitingAtHotel (homes : list Entity.t) (walls : gset string)
    (algorithm : Algorithm) (now : Z) (rider : Rider.t) (st : TickState)
    : option (Rider.t * TickState) :=
  let myOrders :=
    filter (fun o => Order.id o ∈ Rider.assignedOrderIds rider) (currentOrders st) in
  let allReady := forallb (fun o => bool_decide (Order.status o = READY)) myOrders in
  if allReady && (0 <? length myOrders)%nat then
    match mapM (fun o => pair (Order.id o) <$> List.find (byId (Order.homeId o)) homes)
               myOrders with
    | None => None
    | Some homeTargets =>
        let '(calculatedPath, calculatedQueue) :=
          nearestRoute (length homeTargets) walls algorithm (Rider.pos rider)
                       homeTargets [] [] in
        let st1 := foldl (fun s o => stampPickup now (Order.id o) s) st myOrders in
        Some (setTargetEntityId None
                (setDeliveryQueue (Some calculatedQueue)
                   (setPathQueue calculatedPath (setStatus DELIVERING rider))),
              markRidersChanged st1)
    end
  else Some (rider, st).

(** An order that is not yet delivered, belongs to the rider, and whose
    home is where the rider stands. *)
Definition deliverableHere (homes : list Entity.t) (rider : Rider.t)
    (o : Order.t) : bool :=
  bool_decide (Order.id o ∈ Rider.assignedOrderIds rider)
  && bool_decide (Order.status o <> DELIVERED)
  && match List.find (byId (Order.homeId o)) homes with
     | Some h => samePos (Entity.pos h) (Rider.pos rider)
     | None => false
     end.

(** [x || 5] on an optional number: [undefined] and [0] are falsy. *)
Definition orFive (x : option Z) : Z :=
  match x with
  | Some v => if v =? 0 then 5 else v
  | None => 5
  end.

(** [if (x)] on an optional number. *)
Definition truthy (x : option Z) : bool :=
  match x with
  | Some v => negb (v =? 0)
  | None => false
  end.

(** The replacement of [nextOrders[orderIdx]] by a delivered copy, with
    its statistics. *)
Definition deliveredCopy (hotels homes : list Entity.t) (now : Z)
    (o : Order.t) : Order.t :=
  let o1 := setOrderStatus DELIVERED o in
  let o2 := if truthy (Order.pickupTime o1)
            then setActualDeliveryTimeMs
                   ((fun t => now - t) <$> Order.pickupTime o1) o1
            else o1 in
  match List.find (byId (Order.hotelId o2)) hotels,
        List.find (byId (Order.homeId o2)) homes with
  | Some hotel, Some home =>
      setBlocksCovered
        (Some (getManhattanDistance (Entity.pos hotel) (Entity.pos home))) o2
  | _, _ => o2
  end.

(** The branch [rider.status === 'DELIVERING'] for a rider whose queue is
    empty. *)
Definition delivering (hotels homes : list Entity.t) (walls : gset string)
    (algorithm : Algorithm) (now : Z) (rider : Rider.t) (st : TickState)
    : Rider.t * TickState :=
  let '(rider1, st1) :=
    match List.find (deliverableHere homes rider) (currentOrders st) with
    | Some deliveredOrder =>
        match findIndex (fun o => bool_decide (Order.id o = Order.id deliveredOrder))
                        (currentOrders st) with
        | Some orderIdx =>
            let next' :=
              alter (fun e => (deliveredCopy hotels homes now e.1, false))
                    orderIdx (nextOrders st) in
            let dist := orFive ((next'.*1 !! orderIdx) ≫= Order.blocksCovered) in
            let pay := 150 + dist * 5 in
            (setStats (Rider.totalEarnings rider + pay)
                      (Rider.totalOrdersDelivered rider + 1)
                      (Rider.totalDistanceTraveled rider + dist) rider,
             markRidersChanged (markOrdersSet (setNextOrders next' st)))
        | None => (rider, st)
        end
    | None => (rider, st)
    end in
  let stillHasOrders :=
    existsb (fun o => bool_decide (Order.id o ∈ Rider.assignedOrderIds rider1)
                      && bool_decide (Order.status o <> DELIVERED))
            (currentOrders st1) in
  if stillHasOrders then (rider1, st1)
  else
    let lastOrder :=
      last (Rider.assignedOrderIds rider1) ≫= fun lastOrderId =>
      List.find (fun o => bool_decide (Order.id o = lastOrderId)) (currentOrders st1) in
    let hotelToReturnTo :=
      match lastOrder ≫= fun o => List.find (byId (Order.hotelId o)) hotels with
      | Some h => Some h
      | None => head hotels
      end in
    let idle :=
      (setColor COLORS.RIDER_IDLE (setAssignedOrderIds [] (setStatus IDLE rider1)),
       markRidersChanged st1) in
    match hotelToReturnTo with
    | Some hotel =>
        match findPath (Rider.pos rider1) (Entity.pos hotel) walls algorithm with
        | Some returnPath =>
            (setColor COLORS.RIDER_IDLE
               (setTargetEntityId (Some (Entity.id hotel))
                  (setPathQueue (slice1 (path returnPath))
                     (setStatus RETURNING rider1))),
             markRidersChanged st1)
        | None => idle
        end
    | None => idle
    end.

(** The callback of [riders.map].  A rider with a non-empty queue moves and
    does nothing else; the tests on [rider.status] that follow in the source
    are mutually exclusive and are written here as one case analysis.
    [None] is an exception leaving the callback. *)
Definition riderStep (hotels homes : list Entity.t) (walls : gset string)
    (algorithm : Algorithm) (now : Z) (rider : Rider.t) (st : TickState)
    : option (Rider.t * TickState) :=
  match Rider.pathQueue rider with
  | _ :: _ =>
      let mv := move rider (nextPathTrace st) in
      let counted :=
        bool_decide (Rider.status rider = DELIVERING)
        || bool_decide (Rider.status rider = MOVING_TO_HOTEL) in
      Some (movedRider rider mv,
            mkTick (nextOrders st) (ordersSet st) true
                   ((0 <? stepsMoved mv) || pathTraceChanged st)
                   (trace mv)
                   (if (0 <? stepsMoved mv) && counted
                    then distanceAdded st + stepsMoved mv else distanceAdded st)
                   (message st))
  | [] =>
      match Rider.status rider with
      | MOVING_TO_HOTEL => Some (setStatus WAITING_FOR_FOOD rider, markRidersChanged st)
      | WAITING_FOR_FOOD => waitingAtHotel homes walls algorithm now rider st
      | DELIVERING => Some (delivering hotels homes walls algorithm now rider st)
      | RETURNING =>
          Some (setColor COLORS.RIDER_IDLE
                  (setTargetEntityId None
                     (setAssignedOrderIds [] (setStatus IDLE rider))),
                markRidersChanged st)
      | IDLE => Some (rider, st)
      end
  end.

(** [riders.map(...)]: the riders in order, each seeing the working copies
    as the riders before it left them.  When the callback raises, the map
    is abandoned: the first component is [None] and the second the state
    reached before the failing rider. *)
Fixpoint mapRiders (step : Rider.t -> TickState -> option (Rider.t * TickState))
    (rs : list Rider.t) (st : TickState) : option (list Rider.t) * TickState :=
  match rs with
  | [] => (Some [], st)
  | rider :: rest =>
      match step rider st with
      | None => (None, st)
      | Some (rider', st') =>
          let '(out, st'') := mapRiders step rest st' in
          (cons rider' <$> out, st'')
      end
  end.

(** *** Dispatching

    The calls [solveAssignment(idleRiders, [hotel.pos], fairnessAlpha)] of
    the fairness mode pass riders and a weight to a three-argument solver
    whose source is not part of [utils/algorithms.ts] as given; it is a
    parameter of everything below. *)
Section Dispatch.
Variable solveAssignmentFair :
  list Rider.t -> list Position -> Z -> list AssignmentResult.

(** The object written over a rider that is sent to a hotel. *)
Definition dispatched (hotelId orderId : string) (pathToHotel : PathResult)
    (x : Rider.t) : Rider.t :=
  setColor COLORS.RIDER_BUSY
    (setPathQueue (slice1 (path pathToHotel))
       (setAssignedOrderIds [orderId]
          (setTargetEntityId (Some hotelId) (setStatus MOVING_TO_HOTEL x)))).

Definition byDistanceTo (p : Position) (a b : Rider.t) : Z :=
  getManhattanDistance (Rider.pos a) p - getManhattanDistance (Rider.pos b) p.

(** The fairness branch of the pending-order dispatcher.  When no idle rider
    earns at most the average, [candidates] is the array [availableRiders]
    itself, which the sort then reorders in place. *)
Definition fairChoice (nextRiders availableRiders : list Rider.t) : option Rider.t :=
  let total := foldl (fun acc x => acc + Rider.totalEarnings x) 0 nextRiders in
  let avg := (Number.ofZ total / Number.ofZ (Z.of_nat (length nextRiders)))%float in
  let byEarnings := fun a b : Rider.t => Rider.totalEarnings a - Rider.totalEarnings b in
  let below :=
    List.filter (fun x => (Number.ofZ (Rider.totalEarnings x) <=? avg)%float)
                availableRiders in
  let '(candidates, available) :=
    match below with
    | [] => (sortBy byEarnings availableRiders, sortBy byEarnings availableRiders)
    | _ => (sortBy byEarnings below, availableRiders)
    end in
  head candidates ≫= fun best =>
  findIndex (riderById (Rider.id best)) available ≫= fun chosenRiderIdx =>
  available !! chosenRiderIdx.

(** The callback of [pendingOrders.forEach], for the pending order found at
    index [i] of [nextOrders]. *)
Definition dispatchPending (fair : bool) (hotels : list Entity.t)
    (walls : gset string) (algorithm : Algorithm) (acc : list Rider.t * TickState)
    (i : nat) : list Rider.t * TickState :=
  let '(nextRiders, st) := acc in
  match nextOrders st !! i with
  | None => acc
  | Some (order, shared) =>
      let availableRiders := List.filter isIdle nextRiders in
      match availableRiders with
      | [] => acc
      | _ =>
          match List.find (byId (Order.hotelId order)) hotels with
          | None => acc
          | Some hotel =>
              let chosen :=
                if fair then fairChoice nextRiders availableRiders
                else head (sortBy (byDistanceTo (Entity.pos hotel)) availableRiders) in
              match chosen with
              | None => acc
              | Some chosenRider =>
                  match findIndex (riderById (Rider.id chosenRider)) nextRiders with
                  | None => acc
                  | Some realIdx =>
                      match findPath (Rider.pos chosenRider) (Entity.pos hotel)
                                     walls algorithm with
                      | None => acc
                      | Some pathToHotel =>
                          (alter (dispatched (Entity.id hotel) (Order.id order) pathToHotel)
                                 realIdx nextRiders,
                           setMessage
                             ("Dispatch: " +:+ String.substring 0 4 (Order.id order)
                              +:+ " -> " +:+ Rider.label chosenRider)
                             (markRidersChanged
                                (setNextOrders
                                   (<[i := (setRiderId (Some (Rider.id chosenRider)) order,
                                            shared)]> (nextOrders st))
                                   st)))
                      end
                  end
              end
          end
      end
  end.

(** Indices of the orders selected by
    [nextOrders.filter(o => o.riderId === null && o.status !== 'DELIVERED')]. *)
Definition pendingIndices (l : list Order.t) : list nat :=
  List.filter
    (fun i => match l !! i with
              | Some o => bool_decide (Order.riderId o = None)
                          && bool_decide (Order.status o <> DELIVERED)
              | None => false
              end)
    (seq 0 (length l)).

Definition dispatchAllPending (fair : bool) (hotels : list Entity.t)
    (walls : gset string) (algorithm : Algorithm)
    (nextRiders : list Rider.t) (st : TickState) : list Rider.t * TickState :=
  let pending := pendingIndices (currentOrders st) in
  match pending, List.filter isIdle nextRiders with
  | _ :: _, _ :: _ =>
      foldl (dispatchPending fair hotels walls algorithm) (nextRiders, st) pending
  | _, _ => (nextRiders, st)
  end.

(** What the environment supplies for one generated order:
    [crypto.randomUUID()], the formatted time of day and [Math.random()]. *)
Record GenInput := mkGen {
  uuid : string;
  timeOfDay : string;
  random : float
}.

Definition freshOrder (newOrderId homeId hotelId stamp : string) : Order.t :=
  Order.mk newOrderId homeId hotelId None COOKING COOKING_TIME_MS stamp
           None None None.

(** One iteration of the [for] loop of [generateRandomOrders].  [None] is
    the [TypeError] raised when an array is read outside its bounds and a
    field of the result is then accessed. *)
Definition generateOne (w : World) (acc : list Order.t * list Rider.t)
    (g : GenInput) : option (list Order.t * list Rider.t) :=
  let '(newOrdersList, updatedRiders) := acc in
  hotel ← head (hotels w);
  k ← Number.floor (random g * Number.ofZ (Z.of_nat (length (homes w))))%float;
  home ← (if k <? 0 then None else homes w !! Z.to_nat k);
  let newOrder := freshOrder (uuid g) (Entity.id home) (Entity.id hotel) (timeOfDay g) in
  let idleRiders := List.filter isIdle updatedRiders in
  match idleRiders with
  | [] => Some (newOrdersList ++ [newOrder], updatedRiders)
  | _ =>
      let chosen :=
        if fairnessMode w then
          match solveAssignmentFair idleRiders [Entity.pos hotel] (fairnessAlpha w) with
          | res :: _ => idleRiders !! riderIndex res
          | [] => head idleRiders
          end
        else head (sortBy (byDistanceTo (Entity.pos hotel)) idleRiders) in
      chosenRider ← chosen;
      match findIndex (riderById (Rider.id chosenRider)) updatedRiders,
            findPath (Rider.pos chosenRider) (Entity.pos hotel) (walls w) (algorithm w) with
      | Some realIdx, Some pathToHotel =>
          Some (newOrdersList ++ [setRiderId (Some (Rider.id chosenRider)) newOrder],
                alter (dispatched (Entity.id hotel) (uuid g) pathToHotel)
                      realIdx updatedRiders)
      | _, _ => Some (newOrdersList ++ [newOrder], updatedRiders)
      end
  end.

(** [generateRandomOrders(count, currentRiders)]; [inputs] has one element
    for each of the [count] iterations. *)
Definition generateRandomOrders (w : World) (inputs : list GenInput)
    (currentRiders : list Rider.t) : option (list Order.t * list Rider.t) :=
  match hotels w, homes w with
  | [], _ | _, [] => Some ([], currentRiders)
  | _, _ =>
      foldl (fun acc g => acc ≫= fun a => generateOne w a g)
            (Some ([], currentRiders)) inputs
  end.

(** The [updatedRiders.forEach] that copies newly assigned riders back. *)
Definition syncRider (acc : list Rider.t * TickState) (ur : Rider.t)
    : list Rider.t * TickState :=
  let '(nextRiders, st) := acc in
  match findIndex (riderById (Rider.id ur)) nextRiders with
  | Some idx =>
      match nextRiders !! idx with
      | Some nr =>
          if bool_decide (length (Rider.assignedOrderIds ur)
                          <> length (Rider.assignedOrderIds nr))
          then (<[idx := ur]> nextRiders,
                setMessage ("Demo: Assigned to " +:+ Rider.label ur)
                           (markRidersChanged st))
          else acc
      | None => acc
      end
  | None => acc
  end.

(** *** handleSimulationTick *)

(** The [orders] array of the state once the tick is over: the array
    [nextOrders] if [setOrders] was called with it, and otherwise the old
    array, whose shared objects carry the field assignments made through
    [nextOrders]. *)
Definition commitOrders (old : list Order.t) (st : TickState) : list Order.t :=
  if ordersSet st then currentOrders st
  else zip_with (fun o e => if (e.2 : bool) then e.1 else o) old (nextOrders st).

Definition commitMessage (old : string) (st : TickState) : string :=
  default old (message st).

(** The state left behind when an exception leaves the tick: [setRiders]
    and [setPathTrace] have not been reached. *)
Definition interrupted (w : World) (st : TickState) : World :=
  mkWorld (riders w) (commitOrders (orders w) st) (hotels w) (homes w)
          (walls w) (algorithm w) (scenario w) (fairnessMode w) (fairnessAlpha w)
          (pathTrace w) (distanceTraveled w + distanceAdded st)
          (commitMessage (statusMessage w) st) (autoOrderRef w).

(** [captured] holds the values that the function closes over rather than
    reads from [stateRef]: [pathTrace], [fairnessMode], [scenario] and the
    state seen by [generateRandomOrders].  They belong to the render in
    which the interval callback was created.  [now] is the reading of the
    clock and [gen] the random input of an automatically generated order. *)
Definition handleSimulationTick (captured : World) (now : Z) (gen : GenInput)
    (w : World) : World :=
  let st0 :=
    mkTick (cookOrder <$> orders w) (existsb cookingChanges (orders w))
           false false (pathTrace captured) 0 None in
  match mapRiders (riderStep (hotels w) (homes w) (walls w) (algorithm w) now)
                  (riders w) st0 with
  | (None, st) => interrupted w st
  | (Some nextRiders1, st1) =>
      let '(nextRiders2, st2) :=
        dispatchAllPending (fairnessMode captured) (hotels w) (walls w) (algorithm w)
                           nextRiders1 st1 in
      let autoGen :=
        bool_decide (scenario captured = DEMO_FAIRNESS)
        && (2000 <? now - autoOrderRef w)
        && (length (List.filter
                      (fun o => bool_decide (Order.status o <> DELIVERED))
                      (currentOrders st2)) <? 20)%nat in
      let finish nextRiders st ref :=
        mkWorld (if ridersChanged st then nextRiders else riders w)
                (commitOrders (orders w) st) (hotels w) (homes w)
                (walls w) (algorithm w) (scenario w) (fairnessMode w) (fairnessAlpha w)
                (if pathTraceChanged st then nextPathTrace st else pathTrace w)
                (distanceTraveled w + distanceAdded st)
                (commitMessage (statusMessage w) st) ref in
      if autoGen then
        match generateRandomOrders captured [gen] nextRiders2 with
        | None => interrupted w st2
        | Some ([], _) => finish nextRiders2 st2 (autoOrderRef w)
        | Some (newOrders, updatedRiders) =>
            let st3 :=
              setNextOrders (nextOrders st2 ++ ((fun o => (o, false)) <$> newOrders)) st2 in
            let '(nextRiders4, st4) := foldl syncRider (nextRiders2, st3) updatedRiders in
            finish nextRiders4 st4 now
        end
      else finish nextRiders2 st2 (autoOrderRef w)
  end.

(** *** createOrder *)

Definition BATCH_DISTANCE_THRESHOLD : Z := 8.

(** [bestRider] and [minDetour] of the batching search. *)
Record BatchSearch := mkBatch {
  bestRider : option Rider.t;
  minDetour : option Z
}.

(** Body of the inner loop [for (const existingOrder of riderOrders)]. *)
Definition considerOrder (homes : list Entity.t) (home : Entity.t)
    (rider : Rider.t) (bs : BatchSearch) (existingOrder : Order.t) : BatchSearch :=
  match List.find (byId (Order.homeId existingOrder)) homes with
  | Some existingHome =>
      let dist := getManhattanDistance (Entity.pos existingHome) (Entity.pos home) in
      if (dist <=? BATCH_DISTANCE_THRESHOLD) && ltInf dist (minDetour bs)
      then mkBatch (Some rider) (Some dist)
      else bs
  | None => bs
  end.

(** Body of the outer loop [for (const rider of activeRidersForHotel)]. *)
Definition considerRider (orders : list Order.t) (homes : list Entity.t)
    (home : Entity.t) (bs : BatchSearch) (rider : Rider.t) : BatchSearch :=
  foldl (considerOrder homes home rider) bs
        (filter (fun o => Order.id o ∈ Rider.assignedOrderIds rider) orders).

Definition isActiveFor (hotelId : string) (x : Rider.t) : bool :=
  (bool_decide (Rider.status x = MOVING_TO_HOTEL)
   || bool_decide (Rider.status x = WAITING_FOR_FOOD))
  && bool_decide (Rider.targetEntityId x = Some hotelId).

Definition withRiders (v : list Rider.t) (w : World) : World :=
  mkWorld v (orders w) (hotels w) (homes w) (walls w) (algorithm w)
          (scenario w) (fairnessMode w) (fairnessAlpha w) (pathTrace w)
          (distanceTraveled w) (statusMessage w) (autoOrderRef w).

Definition withOrders (v : list Order.t) (w : World) : World :=
  mkWorld (riders w) v (hotels w) (homes w) (walls w) (algorithm w)
          (scenario w) (fairnessMode w) (fairnessAlpha w) (pathTrace w)
          (distanceTraveled w) (statusMessage w) (autoOrderRef w).

Definition withMessage (v : string) (w : World) : World :=
  mkWorld (riders w) (orders w) (hotels w) (homes w) (walls w) (algorithm w)
          (scenario w) (fairnessMode w) (fairnessAlpha w) (pathTrace w)
          (distanceTraveled w) v (autoOrderRef w).

(** [prev.map(r => r.id === id ? f(r) : r)] *)
Definition updateById (i : string) (f : Rider.t -> Rider.t)
    (l : list Rider.t) : list Rider.t :=
  (fun x => if riderById i x then f x else x) <$> l.

Definition appendOrderId (orderId : string) (x : Rider.t) : Rider.t :=
  setAssignedOrderIds (Rider.assignedOrderIds x ++ [orderId]) x.

(** [createOrder(homeId, hotelId)]; [newOrderId] is the value of
    [crypto.randomUUID()] and [stamp] the formatted time of day. *)
Definition createOrder (homeId hotelId newOrderId stamp : string)
    (w : World) : World :=
  match List.find (byId homeId) (homes w), List.find (byId hotelId) (hotels w) with
  | Some home, Some hotel =>
      let newOrder := freshOrder newOrderId homeId hotelId stamp in
      let activeRidersForHotel := List.filter (isActiveFor hotelId) (riders w) in
      let search :=
        foldl (considerRider (orders w) (homes w) home) (mkBatch None None)
              activeRidersForHotel in
      let placed (assignedRiderId : option string) (w' : World) :=
        withOrders (orders w' ++ [setRiderId assignedRiderId newOrder]) w' in
      match bestRider search with
      | Some best =>
          placed (Some (Rider.id best))
            (withRiders
               (updateById (Rider.id best)
                  (fun x => setColor COLORS.RIDER_BUSY (appendOrderId newOrderId x))
                  (riders w))
               (withMessage
                  ("Smart Batch: Assgn to " +:+ Rider.label best +:+ " (Detour: "
                   +:+ pretty (default 0 (minDetour search)) +:+ ")") w))
      | None =>
          let idleRiders := List.filter isIdle (riders w) in
          match idleRiders with
          | [] =>
              match activeRidersForHotel with
              | fallbackRider :: _ =>
                  placed (Some (Rider.id fallbackRider))
                    (withRiders
                       (updateById (Rider.id fallbackRider) (appendOrderId newOrderId)
                                   (riders w))
                       (withMessage
                          ("High Demand: Queued with " +:+ Rider.label fallbackRider) w))
              | [] =>
                  withOrders (orders w ++ [newOrder])
                    (withMessage "No riders available. Order queued." w)
              end
          | _ =>
              let chosen :=
                if fairnessMode w then
                  match solveAssignmentFair idleRiders [Entity.pos hotel]
                                            (fairnessAlpha w) with
                  | res :: _ => idleRiders !! riderIndex res
                  | [] => head idleRiders
                  end
                else head (sortBy (byDistanceTo (Entity.pos hotel)) idleRiders) in
              match chosen with
              | None =>
                  (* TypeError on [chosenRider.id]; no state has been set *)
                  w
              | Some chosenRider =>
                  match findPath (Rider.pos chosenRider) (Entity.pos hotel)
                                 (walls w) (algorithm w) with
                  | None =>
                      withMessage
                        ("Error: " +:+ Rider.label chosenRider +:+ " cannot reach "
                         +:+ Entity.label hotel) w
                  | Some pathToHotel =>
                      placed (Some (Rider.id chosenRider))
                        (withRiders
                           (updateById (Rider.id chosenRider)
                              (dispatched hotelId newOrderId pathToHotel) (riders w))
                           (withMessage
                              ("Dispatching " +:+ Rider.label chosenRider +:+ " to "
                               +:+ Entity.label hotel +:+ ".") w))
                  end
              end
          end
      end
  | _, _ => w
  end.

(** [handleBurstOrders]: ten generated orders at once. *)
Definition handleBurstOrders (inputs : list GenInput) (w : World) : World :=
  match generateRandomOrders w inputs (riders w) with
  | None => w
  | Some ([], _) => withMessage "Could not generate orders (No entities?)" w
  | Some (newOrders, updatedRiders) =>
      withMessage ("Burst: Added " +:+ pretty (length newOrders) +:+ " orders!")
        (withRiders updatedRiders (withOrders (orders w ++ newOrders) w))
  end.

End Dispatch.

End App.

(** ** utils/comparison.ts *)

Module Comparison.
Import Pathfinding.

Record ComparisonResult := mkComparison {
  algorithm : Algorithm;
  metrics : option PathResult
}.

Definition algorithms : list Algorithm := [DIJKSTRA; GREEDY; ASTAR].

(** The [for] loop over the legs [points[i] -> points[i + 1]]; [acc] holds
    [fullPath], [totalVisited] and [allVisitedOrder], and [None] is the
    [break] with [success = false]. *)
Fixpoint legs (walls : gset string) (algo : Algorithm) (i : nat)
    (points : list Position) (acc : PathResult) : option PathResult :=
  match points with
  | p1 :: ((p2 :: _) as rest) =>
      match findPath p1 p2 walls algo with
      | Some leg =>
          legs walls algo (S i) rest
            (mkPathResult
               (path acc ++ (if (i =? 0)%nat then path leg else drop 1 (path leg)))
               (visitedCount acc + visitedCount leg)
               (visitedOrder acc ++ visitedOrder leg))
      | None => None
      end
  | _ => Some acc
  end.

Definition compareAlgorithms (start goal : Position) (walls : gset string)
    (waypoints : list Position) : list ComparisonResult :=
  map (fun algo =>
         mkComparison algo
           (legs walls algo 0 (start :: waypoints ++ [goal]) (mkPathResult [] 0 [])))
      algorithms.

(** The earlier version of the function, with at most one intermediate
    stop. *)
Definition compareAlgorithmsIntermediate (start goal : Position) (walls : gset string)
    (intermediate : option Position) : list ComparisonResult :=
  map (fun algo =>
         match intermediate with
         | Some mid =>
             let leg1 := findPath start mid walls algo in
             let leg2 := findPath mid goal walls algo in
             match leg1, leg2 with
             | Some leg1, Some leg2 =>
                 mkComparison algo
                   (Some (mkPathResult
                            (path leg1 ++ drop 1 (path leg2))
                            (visitedCount leg1 + visitedCount leg2)
                            (visitedOrder leg1 ++ visitedOrder leg2)))
             | _, _ => mkComparison algo None
             end
         | None => mkComparison algo (findPath start goal walls algo)
         end)
      algorithms.

End Comparison.

(** ** components/AlgorithmRace.tsx *)

Module AlgorithmRace.
Import Pathfinding Comparison.

(** [x || Infinity] for a count [x]; [None] is [Infinity]. *)
Definition orInfinity (x : option Z) : option Z :=
  match x with
  | Some v => if bool_decide (v = 0) then None else Some v
  | None => None
  end.

(** [a >= b] for [a] possibly infinite. *)
Definition geFinite (a : option Z) (b : Z) : bool :=
  match a with
  | Some v => b <=? v
  | None => true
  end.

Definition pathLength (m : PathResult) : Z := Z.of_nat (length (path m)).

(** The badge [Most Efficient]. *)
Definition isFastest (results : list ComparisonResult) (res : ComparisonResult) : bool :=
  match metrics res with
  | Some m =>
      forallb (fun x => geFinite (orInfinity (visitedCount <$> metrics x)) (visitedCount m))
              results
  | None => false
  end.

(** The badge [Optimal Path]. *)
Definition isShortest (results : list ComparisonResult) (res : ComparisonResult) : bool :=
  match metrics res with
  | Some m =>
      forallb (fun x => geFinite (orInfinity (pathLength <$> metrics x)) (pathLength m))
              results
  | None => false
  end.

End AlgorithmRace.

(** ** components/RouteBuilder.tsx *)

Module RouteBuilder.

Record Stop := mkStop { hotelId : string; homeId : string }.

Definition handleAddStop (tempHotelId tempHomeId : string) (stops : list Stop)
    : list Stop :=
  if bool_decide (tempHotelId <> "") && bool_decide (tempHomeId <> "")
  then stops ++ [mkStop tempHotelId tempHomeId]
  else stops.

(** [stops.filter((_, i) => i !== index)] *)
Definition handleRemoveStop (index : nat) (stops : list Stop) : list Stop :=
  (imap (fun i s => if bool_decide (i <> index) then [s] else []) stops) ≫= id.

Definition findEntity (i : string) (l : list Entity.t) : option Entity.t :=
  List.find (fun e => bool_decide (Entity.id e = i)) l.

(** The [stops.forEach] loop that collects the waypoints. *)
Definition stopWaypoints (hotels homes : list Entity.t) (count : nat)
    (index : nat) (stop : Stop) : list Position :=
  match findEntity (hotelId stop) hotels, findEntity (homeId stop) homes with
  | Some hotel, Some home =>
      Entity.pos hotel ::
      (if (index <? count - 1)%nat then [Entity.pos home] else [])
  | _, _ => []
  end.

(** The arguments [handleStart] passes to [onStartRace], or [None] when it
    returns without starting a race. *)
Definition handleStart (riders : list Rider.t) (hotels homes : list Entity.t)
    (selectedRiderId : string) (stops : list Stop)
    : option (Position * list Position * Position) :=
  match List.find (fun x => bool_decide (Rider.id x = selectedRiderId)) riders with
  | None => None
  | Some rider =>
      match last stops with
      | None => None
      | Some lastStop =>
          let waypoints :=
            (imap (stopWaypoints hotels homes (length stops)) stops) ≫= id in
          match findEntity (homeId lastStop) homes with
          | Some lastHome => Some (Rider.pos rider, waypoints, Entity.pos lastHome)
          | None => None
          end
      end
  end.

End RouteBuilder.

(** ** App.tsx: the handlers of the grid *)

Module GridMode.
Inductive t := SELECT | WALL | RIDER | HOTEL | HOME | ORDER.
End GridMode.

Module Desk.
Import Pathfinding Algorithms App.

Inductive OrderStep := NONE | SELECT_HOME | SELECT_HOTEL.

#[global] Instance EntityType_eq_dec : EqDecision EntityType.
Proof. solve_decision. Defined.

(** [countsRef.current] *)
Record Counts := mkCounts {
  riderCount : Z;
  hotelCount : Z;
  homeCount : Z
}.

(** The state the grid handlers read and write: the simulation state and
    the [useState] cells [mode], [orderStep], [selectedHomeId] and
    [selectedRiderId], with the [useRef] cell [countsRef]. *)
Record t := mk {
  world : World;
  mode : GridMode.t;
  orderStep : OrderStep;
  selectedHomeId : option string;
  selectedRiderId : option string;
  countsRef : Counts
}.

Definition COLOR_HOTEL : string := "bg-amber-400 text-amber-900".
Definition COLOR_HOME : string := "bg-emerald-500 text-emerald-50".

Definition withWorld (w : World) (d : t) : t :=
  mk w (mode d) (orderStep d) (selectedHomeId d) (selectedRiderId d) (countsRef d).

Definition withSelectedRiderId (v : option string) (d : t) : t :=
  mk (world d) (mode d) (orderStep d) (selectedHomeId d) v (countsRef d).

Definition withSelectedHomeId (v : option string) (d : t) : t :=
  mk (world d) (mode d) (orderStep d) v (selectedRiderId d) (countsRef d).

Definition withOrderStep (v : OrderStep) (d : t) : t :=
  mk (world d) (mode d) v (selectedHomeId d) (selectedRiderId d) (countsRef d).

Definition withCounts (v : Counts) (d : t) : t :=
  mk (world d) (mode d) (orderStep d) (selectedHomeId d) (selectedRiderId d) v.

Definition say (v : string) (d : t) : t := withWorld (withMessage v (world d)) d.

Definition withWalls (v : gset string) (w : World) : World :=
  mkWorld (riders w) (orders w) (hotels w) (homes w) v (algorithm w)
          (scenario w) (fairnessMode w) (fairnessAlpha w) (pathTrace w)
          (distanceTraveled w) (statusMessage w) (autoOrderRef w).

Definition withHotels (v : list Entity.t) (w : World) : World :=
  mkWorld (riders w) (orders w) v (homes w) (walls w) (algorithm w)
          (scenario w) (fairnessMode w) (fairnessAlpha w) (pathTrace w)
          (distanceTraveled w) (statusMessage w) (autoOrderRef w).

Definition withHomes (v : list Entity.t) (w : World) : World :=
  mkWorld (riders w) (orders w) (hotels w) v (walls w) (algorithm w)
          (scenario w) (fairnessMode w) (fairnessAlpha w) (pathTrace w)
          (distanceTraveled w) (statusMessage w) (autoOrderRef w).

(** The [Entity] part of a rider. *)
Definition riderEntity (x : Rider.t) : Entity.t :=
  Entity.mk (Rider.id x) (Rider.type x) (Rider.pos x) (Rider.label x) (Rider.color x).

Definition isAt (i j : Z) (p : Position) : bool :=
  bool_decide (r p = i) && bool_decide (c p = j).

Definition isWall (w : World) (i j : Z) : bool :=
  bool_decide (posKey (mkPos i j) ∈ walls w).

(** [getEntityAt(r, c)]: a rider first, then a hotel, then a home. *)
Definition getEntityAt (w : World) (i j : Z) : option Entity.t :=
  match List.find (fun e => isAt i j (Rider.pos e)) (riders w) with
  | Some rider => Some (riderEntity rider)
  | None =>
      match List.find (fun e => isAt i j (Entity.pos e)) (hotels w) with
      | Some hotel => Some hotel
      | None => List.find (fun e => isAt i j (Entity.pos e)) (homes w)
      end
  end.

Definition typeName (ty : EntityType) : string :=
  match ty with
  | RIDER => "RIDER"
  | HOTEL => "HOTEL"
  | HOME => "HOME"
  | WALL => "WALL"
  end.

Definition isRider (e : Entity.t) : bool := bool_decide (Entity.type e = RIDER).

Section Handlers.
Variable solveAssignmentFair :
  list Rider.t -> list Position -> Z -> list AssignmentResult.

(** Whether [createOrder] is left by the [TypeError] on [chosenRider.id];
    the tests are those of [createOrder] up to that point. *)
Definition createOrderRaises (homeId hotelId : string) (w : World) : bool :=
  match List.find (byId homeId) (homes w), List.find (byId hotelId) (hotels w) with
  | Some home, Some hotel =>
      let activeRidersForHotel := List.filter (isActiveFor hotelId) (riders w) in
      let search :=
        foldl (considerRider (orders w) (homes w) home) (mkBatch None None)
              activeRidersForHotel in
      match bestRider search with
      | Some _ => false
      | None =>
          let idleRiders := List.filter isIdle (riders w) in
          match idleRiders with
          | [] => false
          | _ =>
              let chosen :=
                if fairnessMode w then
                  match solveAssignmentFair idleRiders [Entity.pos hotel]
                                            (fairnessAlpha w) with
                  | res :: _ => idleRiders !! riderIndex res
                  | [] => head idleRiders
                  end
                else head (sortBy (byDistanceTo (Entity.pos hotel)) idleRiders) in
              match chosen with
              | None => true
              | Some _ => false
              end
          end
      end
  | _, _ => false
  end.

(** [handleOrderClick(r, c)]; [newOrderId] and [stamp] are what
    [createOrder] obtains from [crypto.randomUUID()] and the clock.  With no
    home selected, [createOrder(null, ...)] finds no home and returns. *)
Definition handleOrderClick (newOrderId stamp : string) (i j : Z) (d : t) : t :=
  match orderStep d with
  | SELECT_HOME =>
      match List.find (fun h => isAt i j (Entity.pos h)) (homes (world d)) with
      | Some home =>
          say ("Selected " +:+ Entity.label home +:+ ". Now select a Hotel.")
            (withOrderStep SELECT_HOTEL (withSelectedHomeId (Some (Entity.id home)) d))
      | None => say "Please select a valid Home location." d
      end
  | SELECT_HOTEL =>
      match List.find (fun h => isAt i j (Entity.pos h)) (hotels (world d)) with
      | Some hotel =>
          match selectedHomeId d with
          | Some homeId =>
              if createOrderRaises homeId (Entity.id hotel) (world d) then d
              else
                say "Order Placed! Select another Home or exit mode."
                  (withSelectedHomeId None
                     (withOrderStep SELECT_HOME
                        (withWorld
                           (createOrder solveAssignmentFair homeId (Entity.id hotel)
                                        newOrderId stamp (world d)) d)))
          | None =>
              say "Order Placed! Select another Home or exit mode."
                (withSelectedHomeId None (withOrderStep SELECT_HOME d))
          end
      | None => say "Please select a valid Hotel." d
      end
  | NONE => d
  end.

(** The rider, hotel and home that a click on a free cell creates; [rnd] is
    the value of [Math.random()]. *)
Definition newRider (id : string) (p : Position) (n : Z) (rnd : float) : Rider.t :=
  Rider.mk id RIDER p ("R" +:+ pretty n) COLORS.RIDER_IDLE IDLE [] [] None
           (0.5 + rnd)%float 0 0 0 0 None.

Definition newHotel (id : string) (p : Position) (n : Z) : Entity.t :=
  Entity.mk id HOTEL p ("H" +:+ pretty n) COLOR_HOTEL.

Definition newHome (id : string) (p : Position) (n : Z) : Entity.t :=
  Entity.mk id HOME p ("C" +:+ pretty n) COLOR_HOME.

(** [handleCellClick(r, c)]; [id] is the value of [crypto.randomUUID()]. *)
Definition handleCellClick (id stamp : string) (rnd : float) (i j : Z) (d : t) : t :=
  let w := world d in
  let key := posKey (mkPos i j) in
  let existing := getEntityAt w i j in
  match mode d with
  | GridMode.ORDER => handleOrderClick id stamp i j d
  | GridMode.SELECT =>
      match existing with
      | Some e =>
          if isRider e
          then say ("Selected Rider: " +:+ Entity.label e)
                 (withSelectedRiderId (Some (Entity.id e)) d)
          else say ("Selected " +:+ Entity.label e +:+ " ("
                    +:+ typeName (Entity.type e) +:+ ")")
                 (withSelectedRiderId None d)
      | None => say "Selection cleared." (withSelectedRiderId None d)
      end
  | GridMode.WALL =>
      match existing with
      | Some e => if isRider e then withSelectedRiderId (Some (Entity.id e)) d else d
      | None =>
          withWorld
            (withWalls (if bool_decide (key ∈ walls w)
                        then walls w ∖ {[key]} else {[key]} ∪ walls w) w) d
      end
  | GridMode.RIDER =>
      match existing with
      | Some e =>
          if isRider e
          then withWorld
                 (withRiders
                    (List.filter (fun x => bool_decide (Rider.id x <> Entity.id e))
                                 (riders w)) w) d
          else d
      | None =>
          if isWall w i j then d
          else withCounts (mkCounts (riderCount (countsRef d) + 1)
                                    (hotelCount (countsRef d)) (homeCount (countsRef d)))
                 (withWorld
                    (withRiders
                       (riders w ++ [newRider id (mkPos i j) (riderCount (countsRef d)) rnd])
                       w) d)
      end
  | GridMode.HOTEL =>
      match existing with
      | Some e =>
          if bool_decide (Entity.type e = HOTEL)
          then withWorld
                 (withHotels
                    (List.filter (fun x => bool_decide (Entity.id x <> Entity.id e))
                                 (hotels w)) w) d
          else d
      | None =>
          if isWall w i j then d
          else withCounts (mkCounts (riderCount (countsRef d))
                                    (hotelCount (countsRef d) + 1) (homeCount (countsRef d)))
                 (withWorld
                    (withHotels
                       (hotels w ++ [newHotel id (mkPos i j) (hotelCount (countsRef d))])
                       w) d)
      end
  | GridMode.HOME =>
      match existing with
      | Some e =>
          if bool_decide (Entity.type e = HOME)
          then withWorld
                 (withHomes
                    (List.filter (fun x => bool_decide (Entity.id x <> Entity.id e))
                                 (homes w)) w) d
          else d
      | None =>
          if isWall w i j then d
          else withCounts (mkCounts (riderCount (countsRef d))
                                    (hotelCount (countsRef d)) (homeCount (countsRef d) + 1))
                 (withWorld
                    (withHomes
                       (homes w ++ [newHome id (mkPos i j) (homeCount (countsRef d))])
                       w) d)
      end
  end.

End Handlers.

(** [clearAll()] *)
Definition clearAll (d : t) : t :=
  mk (mkWorld [] [] [] [] ∅ (algorithm (world d)) (scenario (world d))
              (fairnessMode (world d)) (fairnessAlpha (world d)) ∅ 0
              "Grid cleared." (autoOrderRef (world d)))
     (mode d) NONE (selectedHomeId d) (selectedRiderId d) (mkCounts 1 1 1).

End Desk.

(** ** Vocabulary for stating properties of the simulation *)

Module NumberSpec.

(** The double [a * 2 ^ e], for an integer [a] that fits the mantissa. *)
Definition scaled (a e : Z) : spec_float := binary_normalize prec emax a e false.



End NumberSpec.

Module AppSpec.
Import Pathfinding Algorithms App NumberSpec.

(** What one tick does to a rider in transit; a rider whose queue is
    empty is not moved. *)
Definition movementTick (rider : Rider.t) : Rider.t :=
  match Rider.pathQueue rider with
  | [] => rider
  | _ => movedRider rider (move rider ∅)
  end.






(** [rider] qualifies for batching, at distance [d]: it is heading for the
    hotel [hotelId] or waiting there for food, and one of the orders already
    assigned to it goes to a home (the first one that carries the order's
    home id) whose Manhattan distance [d] to [home] is at most 8. *)
Definition qualifies (w : World) (hotelId : string) (home : Entity.t)
    (rider : Rider.t) (d : Z) : Prop :=
  rider ∈ riders w /\
  (Rider.status rider = MOVING_TO_HOTEL \/ Rider.status rider = WAITING_FOR_FOOD) /\
  Rider.targetEntityId rider = Some hotelId /\
  exists o h,
    o ∈ orders w /\ Order.id o ∈ Rider.assignedOrderIds rider /\
    List.find (fun e => bool_decide (Entity.id e = Order.homeId o)) (homes w) = Some h /\
    d = Z.abs (r (Entity.pos h) - r (Entity.pos home))
        + Z.abs (c (Entity.pos h) - c (Entity.pos home)) /\
    d <= 8.

(** What batching the order [newOrderId] onto the riders with the id
    [bestId] makes of a rider [x]: such a rider has the order appended to
    its assigned orders; every other rider is left as it is; and no rider
    changes its id, place, status, queue or target. *)
Definition batched (newOrderId bestId : string) (x x' : Rider.t) : Prop :=
  Rider.id x' = Rider.id x /\ Rider.pos x' = Rider.pos x /\
  Rider.status x' = Rider.status x /\ Rider.pathQueue x' = Rider.pathQueue x /\
  Rider.targetEntityId x' = Rider.targetEntityId x /\
  if decide (Rider.id x = bestId)
  then Rider.assignedOrderIds x' = Rider.assignedOrderIds x ++ [newOrderId]
  else x' = x.

(** The same, as the loops of [createOrder] test it. *)
Definition candidate (w : World) (hotelId : string) (home : Entity.t)
    (rider : Rider.t) (d : Z) : Prop :=
  rider ∈ riders w /\ isActiveFor hotelId rider = true /\
  exists o h,
    o ∈ orders w /\ Order.id o ∈ Rider.assignedOrderIds rider /\
    List.find (byId (Order.homeId o)) (homes w) = Some h /\
    d = getManhattanDistance (Entity.pos h) (Entity.pos home) /\
    d <= BATCH_DISTANCE_THRESHOLD.

(** A batching search that has recorded a rider has recorded a candidate,
    with its distance. *)
Definition recorded (w : World) (hotelId : string) (home : Entity.t)
    (bs : BatchSearch) : Prop :=
  match bestRider bs, minDetour bs with
  | Some rider, Some d => candidate w hotelId home rider d
  | None, None => True
  | _, _ => False
  end.

(** Position of a status along COOKING, READY, DELIVERED. *)
Definition rank (s : OrderStatus) : nat :=
  match s with
  | COOKING => 0
  | READY => 1
  | DELIVERED => 2
  end.

(** The operations that act on the order collection. *)
Inductive Op :=
  | Tick (captured : World) (now : Z) (gen : GenInput)
  | Create (homeId hotelId newOrderId stamp : string)
  | Burst (inputs : list GenInput).

Definition step
    (solve : list Rider.t -> list Position -> Z -> list AssignmentResult)
    (w : World) (op : Op) : World :=
  match op with
  | Tick captured now gen => handleSimulationTick solve captured now gen w
  | Create homeId hotelId newOrderId stamp =>
      createOrder solve homeId hotelId newOrderId stamp w
  | Burst inputs => handleBurstOrders solve inputs w
  end.

Definition runOps
    (solve : list Rider.t -> list Position -> Z -> list AssignmentResult)
    (ops : list Op) (w : World) : World :=
  foldl (step solve) w ops.

(** What a tick makes of the cooking timer of an order. *)
Definition cooked (o : Order.t) : Z :=
  if bool_decide (Order.status o = COOKING) then newTime o
  else Order.cookingTimeRemainingMs o.

(** [o'] is a later state of the order [o] within one tick. *)
Definition ticked (o o' : Order.t) : Prop :=
  Order.id o' = Order.id o /\
  (rank (Order.status o) <= rank (Order.status o'))%nat /\
  Order.cookingTimeRemainingMs o' = cooked o.

(** The working copy of a tick follows the orders the tick started from. *)
Definition follows (old : list Order.t) (st : TickState) : Prop :=
  (existsb cookingChanges old = true -> ordersSet st = true) /\
  forall i o, old !! i = Some o ->
    exists e, nextOrders st !! i = Some e /\ ticked o e.1.

(** [o'] is a later state of the order [o]. *)
Definition advanced (o o' : Order.t) : Prop :=
  Order.id o' = Order.id o /\
  (rank (Order.status o) <= rank (Order.status o'))%nat.

(** A stand-in for the fairness solver in examples that do not use the
    fairness mode. *)
Definition noFair : list Rider.t -> list Position -> Z -> list AssignmentResult :=
  fun _ _ _ => [].

End AppSpec.

(** ** Vocabulary for stating properties of the pathfinder *)

Module PathSpec.
Import Pathfinding.

(** All cells of the grid, row by row. *)
Definition gridCells : list Position :=
  i ← seqZ 0 GRID_ROWS; j ← seqZ 0 GRID_COLS; [mkPos i j].

(** Grid cells whose key has not been added to [visited] yet. *)
Definition unvisited (vis : gset string) : nat :=
  length (filter (fun p => posKey p ∉ vis) gridCells).

(** The quantity that decreases with every iteration of the search loop. *)
Definition measure (st : SearchState) : nat :=
  (length (queue st) + unvisited (visited st))%nat.

(** [walk walls start l p]: the cells [l] lead from [start] to [p] by
    up/down/left/right moves inside the grid, and no cell entered by a
    move is in the wall set. *)
Inductive walk (walls : gset string) (start : Position) :
    list Position -> Position -> Prop :=
  | walk_start : walk walls start [start] start
  | walk_step l p n :
      walk walls start l p ->
      n ∈ getNeighbors p ->
      posKey n ∉ walls ->
      walk walls start (l ++ [n]) n.

(** Number of moves of a path given as its list of cells. *)
Definition hops (l : list Position) : Z := Z.of_nat (length l) - 1.

(** Reference breadth-first search, layer by layer: [frontier] holds the
    cells at exactly [d] moves from the start, [seen] the cells at [d] moves
    or fewer.  The result is the least number of moves to [goal], or [None]
    when [goal] cannot be reached. *)
Fixpoint bfsLayers (fuel : nat) (walls : gset string) (goal : Position)
    (seen frontier : list Position) (d : Z) : option Z :=
  match fuel with
  | O => None
  | S fuel' =>
      if bool_decide (goal ∈ frontier) then Some d
      else
        let next :=
          remove_dups
            (filter (fun n => (n ∉ seen) /\ (posKey n ∉ walls))
                    (frontier ≫= getNeighbors)) in
        match next with
        | [] => None
        | _ => bfsLayers fuel' walls goal (seen ++ next) next (d + 1)
        end
  end.

Definition bfsDistance (start goal : Position) (walls : gset string) : option Z :=
  bfsLayers (Z.to_nat (GRID_ROWS * GRID_COLS) + 1) walls goal [start] [start] 0.

(** A string without the separator of [posKey]. *)
Fixpoint noComma (s : string) : Prop :=
  match s with
  | EmptyString => True
  | String ch t => ch <> ","%char /\ noComma t
  end.

(** [g] is the distance recorded for the cell [v]: in a node of the
    frontier [Q], or in the list [E] of the nodes already taken from it. *)
Definition recordedAt (Q : list PathNode) (E : list (Position * Z))
    (v : Position) (g : Z) : Prop :=
  (exists n, n ∈ Q /\ pos n = v /\ distance n = g) \/ (v, g) ∈ E.

(** The state of the uniform-cost search while the node [u] is being
    expanded and the neighbours [ns] are still to be looked at. *)
Record expanding (start goal : Position) (walls : gset string)
    (u : PathNode) (ns : list Position)
    (Q : list PathNode) (vis : gset string) (E : list (Position * Z)) : Prop :=
  mkExpanding {
    ex_visited : forall v, posKey v ∈ vis -> exists g, recordedAt Q E v g;
    ex_recorded : forall v g, recordedAt Q E v g -> posKey v ∈ vis;
    ex_start : (start, 0) ∈ E;
    ex_current : (pos u, distance u) ∈ E;
    ex_closed : forall v g n,
      (v, g) ∈ E -> n ∈ getNeighbors v -> posKey n ∉ walls ->
      posKey n ∈ vis \/ (v = pos u /\ n ∈ ns);
    ex_goal : forall g, (goal, g) ∉ E;
    ex_walks : forall n, n ∈ Q ->
      walk walls start (rev (chain n)) (pos n) /\ distance n = hops (rev (chain n));
    ex_walk_current :
      walk walls start (rev (chain u)) (pos u) /\ distance u = hops (rev (chain u));
    ex_lower : forall v g l,
      recordedAt Q E v g -> walk walls start l v -> g <= hops l;
    ex_least : forall n, n ∈ Q -> distance u <= distance n;
    ex_pending : forall n, n ∈ ns -> n ∈ getNeighbors (pos u)
  }.

End PathSpec.

(** ** Vocabulary for stating properties of the optimizers *)

Module AlgSpec.
Import Pathfinding Algorithms.

(** The running minimum is finite and at most [d]. *)
Definition atMost (m : option Z) (d : Z) : Prop :=
  exists d0, m = Some d0 /\ d0 <= d.

(** A state of [permute] in which a best tour has been recorded is one whose
    [bestPath] visits exactly the targets and costs [minDist]. *)
Definition tourRecorded (start : Position) (points : list Position)
    (st : TourState) : Prop :=
  minDist st = None \/
  (minDist st = Some (tourCost start (bestPath st)) /\ bestPath st ≡ₚ points).

(** The Manhattan distance between two cells. *)
Definition manhattan (a b : Position) : Z :=
  Z.abs (r a - r b) + Z.abs (c a - c b).

(** The length of the tour that leaves [start] and makes the stops of
    [tour] in order: the sum of the Manhattan distances of its legs, a leg
    running from each position to the next stop. *)
Definition tourLength (start : Position) (tour : list Position) : Z :=
  foldr Z.add 0 (zip_with manhattan (start :: tour) tour).

(** Total cost of a list of assignments. *)
Definition totalCost (l : list AssignmentResult) : Z :=
  foldr (fun a acc => cost a + acc) 0 l.

(** A one-to-one matching between riders and targets that leaves no rider
    unmatched while a target is free: every entry pairs an existing rider
    with an existing target at their Manhattan distance, no rider and no
    target occurs twice, and as many pairs are formed as the smaller side
    allows. *)
Definition validMatching (riderPositions orderPositions : list Position)
    (l : list AssignmentResult) : Prop :=
  Forall (fun a =>
            (riderIndex a < length riderPositions)%nat /\
            (0 <= orderIndex a < Z.of_nat (length orderPositions)) /\
            cost a = entry (costMatrixOf riderPositions orderPositions)
                           (riderIndex a) (Z.to_nat (orderIndex a))) l /\
  NoDup (riderIndex <$> l) /\
  NoDup (orderIndex <$> l) /\
  length l = Nat.min (length riderPositions) (length orderPositions).

(** Cost of giving the targets [a] to the riders [i], [i + 1], ... in this
    order. *)
Fixpoint assignmentCost (costMatrix : list (list Z)) (i : nat) (a : list nat) : Z :=
  match a with
  | [] => 0
  | j :: rest => entry costMatrix i j + assignmentCost costMatrix (S i) rest
  end.

(** Targets that may still be given out: distinct, existing and unused. *)
Definition completion (m : nat) (used : gset nat) (a : list nat) : Prop :=
  NoDup a /\ forall j, j ∈ a -> (j < m)%nat /\ j ∉ used.

(** The riders before [riderIdx] hold the distinct targets [p], at the
    accumulated cost [currentCost]. *)
Definition partialAssignment (n m : nat) (costMatrix : list (list Z))
    (p : list nat) (riderIdx : nat) (currentCost : Z) (st : AssignState) : Prop :=
  length p = riderIdx /\
  length (currentAssignment st) = n /\
  take riderIdx (currentAssignment st) = Z.of_nat <$> p /\
  NoDup p /\
  (forall j, j ∈ p -> (j < m)%nat /\ j ∈ usedOrders st) /\
  currentCost = assignmentCost costMatrix 0 p.

(** A recorded best assignment gives every rider a target of its own and
    costs [minTotalCost]. *)
Definition bestRecorded (n m : nat) (costMatrix : list (list Z))
    (st : AssignState) : Prop :=
  match minTotalCost st with
  | None => True
  | Some d =>
      exists b, bestAssignment st = Z.of_nat <$> b /\ length b = n /\ NoDup b /\
                (forall j, j ∈ b -> (j < m)%nat) /\
                d = assignmentCost costMatrix 0 b
  end.

(** The callback of the [for] loop in [backtrack], for the target [j]. *)
Definition tryTarget (fuel n m : nat) (costMatrix : list (list Z))
    (riderIdx : nat) (currentCost : Z) (acc : AssignState * bool) (j : nat)
    : AssignState * bool :=
  let '(s, found) := acc in
  if bool_decide (j ∉ usedOrders s) then
    let s1 := mkAssign (minTotalCost s) (bestAssignment s)
                ({[j]} ∪ usedOrders s)
                (<[riderIdx := Z.of_nat j]> (currentAssignment s)) in
    let s2 := backtrack fuel n m costMatrix (S riderIdx)
                (currentCost + entry costMatrix riderIdx j) s1 in
    (mkAssign (minTotalCost s2) (bestAssignment s2)
              (usedOrders s2 ∖ {[j]}) (currentAssignment s2), true)
  else (s, found).

(** What a call of [backtrack] for the rider [riderIdx] leaves behind: the
    set of used targets as it found it, the assignment of the riders before
    [riderIdx] untouched, and a best assignment that is properly
    recorded. *)
Definition backtrackOk (n m : nat) (costMatrix : list (list Z))
    (riderIdx : nat) (st st' : AssignState) : Prop :=
  usedOrders st' = usedOrders st /\
  length (currentAssignment st') = n /\
  take riderIdx (currentAssignment st') = take riderIdx (currentAssignment st) /\
  bestRecorded n m costMatrix st'.

(** The running minimum has not risen. *)
Definition notWorse (st st' : AssignState) : Prop :=
  forall d, atMost (minTotalCost st) d -> atMost (minTotalCost st') d.

(** The assignments that [solveAssignment] reads off a best assignment [b]
    of the riders [k], [k + 1], ... *)
Fixpoint pairsFrom (costMatrix : list (list Z)) (k : nat) (b : list nat)
    : list AssignmentResult :=
  match b with
  | [] => []
  | j :: rest =>
      mkAssignment k (Z.of_nat j) (entry costMatrix k j) :: pairsFrom costMatrix (S k) rest
  end.

End AlgSpec.

(** ** More vocabulary for the pathfinder *)

Module SearchSpec.
Import Pathfinding PathSpec.

(** A cell that the search has left behind: it is not the goal, and all
    its free neighbours have been seen. *)
Definition settled (goal : Position) (walls vis : gset string) (v : Position) : Prop :=
  v <> goal /\
  forall n, n ∈ getNeighbors v -> posKey n ∉ walls -> posKey n ∈ vis.

(** Every seen cell is waiting in the frontier [Q], or is settled, or is the
    cell [u] under expansion, whose free neighbours are seen or still among
    the neighbours [ns] to be looked at. *)
Definition covered (goal : Position) (walls : gset string)
    (Q : list PathNode) (vis : gset string)
    (pending : option (Position * list Position)) : Prop :=
  forall v, posKey v ∈ vis ->
    (exists n, n ∈ Q /\ pos n = v) \/
    settled goal walls vis v \/
    match pending with
    | Some (u, ns) =>
        v = u /\ u <> goal /\
        forall n, n ∈ getNeighbors u -> posKey n ∉ walls -> posKey n ∈ vis \/ n ∈ ns
    | None => False
    end.

(** The bookkeeping of the search: [order] lists the seen cells once each,
    beginning with [start]; the frontier holds nodes whose chains of parents
    are made of seen cells without repetition; and every seen cell has
    either been counted or is in the frontier. *)
Record bookkeeping (start : Position) (walls : gset string) (st : SearchState) : Prop :=
  mkBookkeeping {
    bk_seen : forall p, p ∈ order st <-> posKey p ∈ visited st;
    bk_once : NoDup (order st);
    bk_first : head (order st) = Some start;
    bk_free : Forall (fun p => inGrid p = true /\ posKey p ∉ walls) (tail (order st));
    bk_chain : forall n p, n ∈ queue st -> p ∈ chain n -> p ∈ order st;
    bk_simple : forall n, n ∈ queue st -> NoDup (chain n);
    bk_count : count st + Z.of_nat (length (queue st)) = Z.of_nat (length (order st));
    bk_nonneg : 0 <= count st
  }.

End SearchSpec.

Module RaceSpec.
Import Pathfinding PathSpec.

(** Every point of the route can be reached from the one before it. *)
Fixpoint joined (walls : gset string) (points : list Position) : Prop :=
  match points with
  | p1 :: rest =>
      match rest with
      | p2 :: _ => (exists l, walk walls p1 l p2) /\ joined walls rest
      | [] => True
      end
  | [] => True
  end.

End RaceSpec.

Module TourSpec.
Import Pathfinding Algorithms.

(** Every stop of the tour is, among the stops not yet made, one nearest to
    the position before it. *)
Fixpoint nearestFirst (current : Position) (tour : list Position) : Prop :=
  match tour with
  | [] => True
  | p :: rest =>
      (forall q, q ∈ rest ->
         getManhattanDistance current p <= getManhattanDistance current q) /\
      nearestFirst p rest
  end.

End TourSpec.

Module MatchSpec.
Import Pathfinding Algorithms.

(** Two searches, one for [n] riders and one for the first [m] of them,
    that are in step: same running minimum and same used targets, the same
    targets for the first [m] riders, and no target for the others. *)
Definition sameSearch (n m : nat) (stN stM : AssignState) : Prop :=
  minTotalCost stN = minTotalCost stM /\
  usedOrders stN = usedOrders stM /\
  length (currentAssignment stN) = n /\
  take m (currentAssignment stN) = currentAssignment stM /\
  drop m (currentAssignment stN) = replicate (n - m) (-1) /\
  ((bestAssignment stN = [] /\ bestAssignment stM = []) \/
   (length (bestAssignment stM) = m /\
    bestAssignment stN = bestAssignment stM ++ replicate (n - m) (-1))).

(** The loop that converts [bestAssignment] to the result format. *)
Definition readAssignment (costMatrix : list (list Z)) (best : list Z) (i : nat)
    : option AssignmentResult :=
  match best !! i with
  | Some orderIdx =>
      if bool_decide (orderIdx <> -1)
      then Some (mkAssignment i orderIdx (entry costMatrix i (Z.to_nat orderIdx)))
      else None
  | None => None
  end.

End MatchSpec.

Module DeskSpec.
Import Pathfinding Algorithms App Desk.

(** No rider, hotel or home stands on a wall cell. *)
Definition tidy (w : World) : Prop :=
  (forall x, x ∈ riders w -> posKey (Rider.pos x) ∉ walls w) /\
  (forall e, e ∈ hotels w -> posKey (Entity.pos e) ∉ walls w) /\
  (forall e, e ∈ homes w -> posKey (Entity.pos e) ∉ walls w).

(** What stays of a rider whatever is done with its orders. *)
Definition sameRider (x y : Rider.t) : Prop :=
  Rider.id y = Rider.id x /\ Rider.pos y = Rider.pos x /\
  Rider.label y = Rider.label x /\ Rider.speed y = Rider.speed x /\
  Rider.totalEarnings y = Rider.totalEarnings x /\
  Rider.totalOrdersDelivered y = Rider.totalOrdersDelivered x /\
  Rider.totalDistanceTraveled y = Rider.totalDistanceTraveled x.

(** Nothing is left to do for a tick: every rider is idle with an empty
    queue and every order is delivered. *)
Definition quiet (w : World) : Prop :=
  (forall x, x ∈ riders w -> Rider.status x = IDLE /\ Rider.pathQueue x = []) /\
  (forall o, o ∈ orders w -> Order.status o = DELIVERED).

(** A small grid for examples: one idle rider, a hotel, a home and a
    wall. *)
Definition exampleWorld : World :=
  mkWorld [Rider.mk "r1" RIDER (mkPos 0 0) "R1" COLORS.RIDER_IDLE IDLE [] [] None
                    1 0 0 0 0 None]
          []
          [Entity.mk "h1" HOTEL (mkPos 0 2) "H1" COLOR_HOTEL]
          [Entity.mk "d1" HOME (mkPos 2 2) "C1" COLOR_HOME]
          {[ "0,1" ]} DIJKSTRA SANDBOX false 50 ∅ 0 "" 0.

Definition exampleDesk (m : GridMode.t) (step : OrderStep) (home : option string) : Desk.t :=
  Desk.mk exampleWorld m step home None (mkCounts 2 2 2).

End DeskSpec.

(** * Doubles *)

Module NumberFacts.
Import Number NumberSpec.

Lemma digits2_size p : digits2_pos p = Pos.size p.
Proof. induction p; simpl; congruence. Qed.

Lemma digits_bounds p :
  2 ^ (Zpos (digits2_pos p) - 1) <= Zpos p < 2 ^ Zpos (digits2_pos p).
Proof.
  rewrite digits2_size. split.
  - pose proof (Pos.size_le p) as H.
    assert (Zpos (2 ^ Pos.size p) <= Zpos p~0) as H' by exact H.
    rewrite Pos2Z.inj_pow in H'.
    replace (Zpos (Pos.size p)) with (Z.succ (Zpos (Pos.size p) - 1)) in H' by lia.
    rewrite Z.pow_succ_r in H' by lia. lia.
  - pose proof (Pos.size_gt p) as H.
    assert (Zpos p < Zpos (2 ^ Pos.size p)) as H' by exact H.
    by rewrite Pos2Z.inj_pow in H'.
Qed.

Lemma digits_unique p d :
  2 ^ (d - 1) <= Zpos p < 2 ^ d -> Zpos (digits2_pos p) = d.
Proof.
  intros [Hlo Hhi]. pose proof (digits_bounds p) as [Hlo' Hhi'].
  set (d' := Zpos (digits2_pos p)) in *.
  assert (0 < d') as Hd' by (unfold d'; lia).
  destruct (Z.lt_trichotomy d' d) as [Hlt|[Heq|Hgt]]; [|done|].
  - exfalso. assert (2 ^ d' <= 2 ^ (d - 1)) by (apply Z.pow_le_mono_r; lia). lia.
  - exfalso. destruct (decide (d < 0)) as [Hneg|Hnn].
    + rewrite (Z.pow_neg_r 2 d) in Hhi by lia. lia.
    + assert (2 ^ d <= 2 ^ (d' - 1)) by (apply Z.pow_le_mono_r; lia). lia.
Qed.

Lemma digits_shift p n :
  0 <= n -> Zdigits2 (Zpos p * 2 ^ n) = Zpos (digits2_pos p) + n.
Proof.
  intros Hn. pose proof (digits_bounds p) as [Hlo Hhi].
  assert (0 < 2 ^ n) as Hpow by (apply Z.pow_pos_nonneg; lia).
  destruct (Zpos p * 2 ^ n) as [|q|q] eqn:E; [lia| |lia].
  simpl. apply digits_unique. rewrite <- E.
  replace (Zpos (digits2_pos p) + n - 1) with ((Zpos (digits2_pos p) - 1) + n) by lia.
  rewrite !Z.pow_add_r by lia. nia.
Qed.

(** *** Shifting a mantissa to the right *)

Lemma shr_1_nonneg m r s :
  0 <= m ->
  shr_1 (Build_shr_record m r s) = Build_shr_record (Z.div2 m) (Z.odd m) (r || s).
Proof. destruct m as [|[p|p|]|p]; try lia; intros _; reflexivity. Qed.

Lemma iter_pos_nat {A} (f : A -> A) p x :
  SpecFloat.iter_pos f p x = Nat.iter (Pos.to_nat p) f x.
Proof.
  revert x. induction p as [p IH|p IH|]; intros x; cbn [SpecFloat.iter_pos].
  - rewrite !IH, Pos2Nat.inj_xI.
    replace (S (2 * Pos.to_nat p)) with (Pos.to_nat p + S (Pos.to_nat p))%nat by lia.
    by rewrite Nat.iter_add, Nat.iter_succ_r.
  - rewrite !IH, Pos2Nat.inj_xO.
    replace (2 * Pos.to_nat p)%nat with (Pos.to_nat p + Pos.to_nat p)%nat by lia.
    by rewrite Nat.iter_add.
  - done.
Qed.

Lemma shr_iter m k :
  0 <= m ->
  Nat.iter (S k) shr_1 (Build_shr_record m false false)
  = Build_shr_record (m / 2 ^ Z.of_nat (S k)) (Z.odd (m / 2 ^ Z.of_nat k))
                     (negb (m mod 2 ^ Z.of_nat k =? 0)).
Proof.
  intros Hm. induction k as [|k IH].
  - unfold Nat.iter. cbn [nat_rect]. rewrite shr_1_nonneg by done.
    change (2 ^ Z.of_nat 0) with 1. change (2 ^ Z.of_nat 1) with 2.
    rewrite Z.div2_div, Z.div_1_r, Z.mod_1_r. done.
  - rewrite Nat.iter_succ, IH.
    assert (0 < 2 ^ Z.of_nat k) as Hk by (apply Z.pow_pos_nonneg; lia).
    assert (2 ^ Z.of_nat (S k) = 2 ^ Z.of_nat k * 2) as E1.
    { rewrite Nat2Z.inj_succ, Z.pow_succ_r by lia. lia. }
    assert (2 ^ Z.of_nat (S (S k)) = 2 ^ Z.of_nat (S k) * 2) as E2.
    { rewrite (Nat2Z.inj_succ (S k)), Z.pow_succ_r by lia. lia. }
    rewrite shr_1_nonneg by (apply Z.div_pos; lia).
    rewrite Z.div2_div, Z.div_div by lia. rewrite <- E2. f_equal.
    rewrite E1, Z.rem_mul_r by lia.
    pose proof (Z.mod_pos_bound m (2 ^ Z.of_nat k) Hk) as Hb.
    pose proof (Zmod_odd (m / 2 ^ Z.of_nat k)) as Ho.
    destruct (Z.odd (m / 2 ^ Z.of_nat k)); simpl.
    + symmetry. apply negb_true_iff, Z.eqb_neq. lia.
    + rewrite Ho. f_equal. rewrite Z.mul_0_r, Z.add_0_r. done.
Qed.

Lemma shr_spec m e n :
  0 <= m ->
  exists r s,
    shr (Build_shr_record m false false) e n
    = (Build_shr_record (m / 2 ^ Z.max 0 n) r s, e + Z.max 0 n) /\
    (2 * (m mod 2 ^ Z.max 0 n) < 2 ^ Z.max 0 n -> r = false).
Proof.
  intros Hm. destruct n as [|p|p].
  - exists false, false. simpl. rewrite Z.div_1_r, Z.add_0_r. done.
  - rewrite Z.max_r by lia. unfold shr. rewrite iter_pos_nat.
    destruct (Pos2Nat.is_succ p) as [k Hk]. rewrite Hk, shr_iter by done.
    assert (Zpos p = Z.of_nat (S k)) as -> by lia.
    eexists _, _. split; [done|]. intros Hlt.
    assert (0 < 2 ^ Z.of_nat k) as Hpow by (apply Z.pow_pos_nonneg; lia).
    assert (2 ^ Z.of_nat (S k) = 2 ^ Z.of_nat k * 2) as E1.
    { rewrite Nat2Z.inj_succ, Z.pow_succ_r by lia. lia. }
    rewrite E1, Z.rem_mul_r in Hlt by lia.
    pose proof (Z.mod_pos_bound m (2 ^ Z.of_nat k) Hpow) as Hb.
    pose proof (Zmod_odd (m / 2 ^ Z.of_nat k)) as Ho.
    destruct (Z.odd (m / 2 ^ Z.of_nat k)); [|done]. lia.
  - exists false, false. simpl. rewrite Z.div_1_r, Z.add_0_r. done.
Qed.

Lemma round_nearest_even_spec m r s :
  (round_nearest_even m (loc_of_shr_record (Build_shr_record m r s)) = m \/
   round_nearest_even m (loc_of_shr_record (Build_shr_record m r s)) = m + 1) /\
  (r = false -> round_nearest_even m (loc_of_shr_record (Build_shr_record m r s)) = m).
Proof.
  destruct r, s; simpl; try destruct (Z.even m); split; auto; intros; done.
Qed.

(** What [binary_round_aux] makes of an exact positive mantissa: it drops
    the low [p] bits, rounds up by at most one unit, never when less than
    half a unit was dropped, and then renormalises. *)
Lemma binary_round_aux_spec sx mx ex :
  0 < mx ->
  exists m2,
    (m2 = mx / 2 ^ Z.max 0 (fexp prec emax (Zdigits2 mx + ex) - ex) \/
     m2 = mx / 2 ^ Z.max 0 (fexp prec emax (Zdigits2 mx + ex) - ex) + 1) /\
    (2 * (mx mod 2 ^ Z.max 0 (fexp prec emax (Zdigits2 mx + ex) - ex))
     < 2 ^ Z.max 0 (fexp prec emax (Zdigits2 mx + ex) - ex) ->
     m2 = mx / 2 ^ Z.max 0 (fexp prec emax (Zdigits2 mx + ex) - ex)) /\
    forall e' p2,
      e' = ex + Z.max 0 (fexp prec emax (Zdigits2 mx + ex) - ex) ->
      p2 = Z.max 0 (fexp prec emax (Zdigits2 m2 + e') - e') ->
      binary_round_aux prec emax sx mx ex loc_Exact
      = match m2 / 2 ^ p2 with
        | Z0 => S754_zero sx
        | Zpos m => if e' + p2 <=? emax - prec
                    then S754_finite sx m (e' + p2) else S754_infinity sx
        | Zneg _ => S754_nan
        end.
Proof.
  intros Hmx. set (p := Z.max 0 _).
  destruct (shr_spec mx ex (fexp prec emax (Zdigits2 mx + ex) - ex)) as (r & s & Hshr & Hr);
    [lia|]. fold p in Hshr, Hr.
  destruct (round_nearest_even_spec (mx / 2 ^ p) r s) as [Hm2 Hdown].
  set (m2 := round_nearest_even _ _) in *.
  exists m2. split; [done|]. split; [auto|]. intros e' p2 -> ->.
  assert (0 <= m2) as Hm2pos.
  { assert (0 <= mx / 2 ^ p) by (apply Z.div_pos; [lia|apply Z.pow_pos_nonneg; lia]). lia. }
  destruct (shr_spec m2 (ex + p) (fexp prec emax (Zdigits2 m2 + (ex + p)) - (ex + p)))
    as (r' & s' & Hshr' & _); [done|].
  unfold binary_round_aux, shr_fexp. cbn [shr_record_of_loc].
  rewrite Hshr. cbn [shr_m]. fold m2. rewrite Hshr'. cbn [shr_m]. done.
Qed.

Lemma iter_xO m d : Zpos (Pos.iter xO m d) = Zpos m * 2 ^ Zpos d.
Proof.
  induction d as [|d IH] using Pos.peano_ind.
  - simpl. lia.
  - rewrite Pos.iter_succ, Pos2Z.inj_xO, IH, Pos2Z.inj_succ, Z.pow_succ_r by lia. lia.
Qed.

Lemma shl_align_le m ex ez :
  ez <= ex ->
  Zpos (shl_align m ex ez).1 = Zpos m * 2 ^ (ex - ez) /\ (shl_align m ex ez).2 = ez.
Proof.
  intros Hle. unfold shl_align. destruct (ez - ex) as [|d|d] eqn:E; [|lia|].
  - assert (ex = ez) as -> by lia. simpl. rewrite Z.sub_diag. simpl. lia.
  - simpl. rewrite iter_xO. split; [|done]. f_equal. f_equal. lia.
Qed.

Lemma shl_align_ge m ex ez : ex <= ez -> shl_align m ex ez = (m, ex).
Proof. intros Hle. unfold shl_align. destruct (ez - ex) eqn:E; [done|done|lia]. Qed.

Lemma digits_le_prec a : 0 < a < 2 ^ prec -> 0 < Zdigits2 a <= prec.
Proof.
  intros [H0 H1]. destruct a as [|p|p]; [lia| |lia]. simpl.
  pose proof (digits_bounds p) as [Hlo _]. split; [lia|].
  destruct (decide (Zpos (digits2_pos p) <= prec)) as [|Hn]; [done|exfalso].
  assert (2 ^ prec <= 2 ^ (Zpos (digits2_pos p) - 1)) by (apply Z.pow_le_mono_r; lia). lia.
Qed.

Lemma digits_scaled a n : 0 < a -> 0 <= n -> Zdigits2 (a * 2 ^ n) = Zdigits2 a + n.
Proof. intros Ha Hn. destruct a as [|p|p]; [lia| |lia]. by apply digits_shift. Qed.

Lemma fexp_le a eg :
  0 < a < 2 ^ prec -> SpecFloat.emin prec emax <= eg ->
  fexp prec emax (Zdigits2 a + eg) <= eg.
Proof.
  intros Ha He. pose proof (digits_le_prec a Ha). unfold fexp. lia.
Qed.

(** Rounding a value that fits the format changes nothing: [a * 2 ^ eg],
    presented with the mantissa scaled down to the exponent [ex], comes
    back in its canonical form. *)
Lemma binary_round_exact sx a eg ex :
  0 < a < 2 ^ prec -> SpecFloat.emin prec emax <= eg -> ex <= eg ->
  fexp prec emax (Zdigits2 a + eg) <= emax - prec ->
  binary_round prec emax sx (Z.to_pos (a * 2 ^ (eg - ex))) ex
  = S754_finite sx (Z.to_pos (a * 2 ^ (eg - fexp prec emax (Zdigits2 a + eg))))
               (fexp prec emax (Zdigits2 a + eg)).
Proof.
  intros Ha He Hex Hmax. pose proof (fexp_le a eg Ha He) as Hg.
  set (g := fexp prec emax (Zdigits2 a + eg)) in *.
  assert (0 < 2 ^ (eg - ex)) as Hpow1 by (apply Z.pow_pos_nonneg; lia).
  assert (0 < 2 ^ (eg - g)) as Hpow2 by (apply Z.pow_pos_nonneg; lia).
  assert (0 < a * 2 ^ (eg - ex)) as HM by nia.
  assert (0 < a * 2 ^ (eg - g)) as HM' by nia.
  assert (fexp prec emax (Zdigits2 (a * 2 ^ (eg - g)) + g) - g = 0) as Hcanon.
  { rewrite digits_scaled by lia. replace (Zdigits2 a + (eg - g) + g) with (Zdigits2 a + eg) by lia.
    fold g. lia. }
  assert (forall e',
            binary_round_aux prec emax sx (a * 2 ^ (eg - g)) g loc_Exact = e' ->
            e' = S754_finite sx (Z.to_pos (a * 2 ^ (eg - g))) g) as Hfinal.
  { intros e' <-.
    destruct (binary_round_aux_spec sx (a * 2 ^ (eg - g)) g HM') as (m2 & _ & Hm2 & Hres).
    rewrite Hcanon in Hm2. simpl in Hm2. rewrite Z.div_1_r in Hm2.
    specialize (Hm2 ltac:(rewrite Z.mod_1_r; lia)). subst m2.
    rewrite (Hres g 0) by (rewrite ?Hcanon; simpl; lia).
    simpl (2 ^ 0). rewrite Z.div_1_r, Z.add_0_r.
    destruct (a * 2 ^ (eg - g)) as [|q|q]; [lia| |lia].
    simpl. destruct (g <=? emax - prec) eqn:E; [done|]. apply Z.leb_gt in E. lia. }
  unfold binary_round.
  assert (Zpos (digits2_pos (Z.to_pos (a * 2 ^ (eg - ex)))) + ex = Zdigits2 a + eg) as Hd.
  { change (Zpos (digits2_pos (Z.to_pos (a * 2 ^ (eg - ex)))))
      with (Zdigits2 (Zpos (Z.to_pos (a * 2 ^ (eg - ex))))).
    rewrite Z2Pos.id, digits_scaled by lia. lia. }
  rewrite Hd. fold g.
  destruct (decide (g <= ex)) as [Hle|Hgt].
  - destruct (shl_align_le (Z.to_pos (a * 2 ^ (eg - ex))) ex g Hle) as [Hm He'].
    destruct (shl_align _ ex g) as [mz ez]. simpl in Hm, He'. subst ez.
    rewrite Hm, Z2Pos.id by lia. apply Hfinal.
    f_equal. rewrite <- Z.mul_assoc, <- Z.pow_add_r by lia. f_equal. f_equal. lia.
  - rewrite shl_align_ge by lia. rewrite Z2Pos.id by lia.
    destruct (binary_round_aux_spec sx (a * 2 ^ (eg - ex)) ex HM) as (m2 & _ & Hm2 & Hres).
    rewrite digits_scaled in Hm2, Hres by lia.
    replace (Zdigits2 a + (eg - ex) + ex) with (Zdigits2 a + eg) in Hm2, Hres by lia.
    fold g in Hm2, Hres. rewrite Z.max_r in Hm2, Hres by lia.
    assert (a * 2 ^ (eg - ex) = a * 2 ^ (eg - g) * 2 ^ (g - ex)) as Hsplit.
    { rewrite <- Z.mul_assoc, <- Z.pow_add_r by lia. f_equal. f_equal. lia. }
    assert (0 < 2 ^ (g - ex)) as Hpow3 by (apply Z.pow_pos_nonneg; lia).
    rewrite Hsplit, Z.mod_mul, Z.div_mul in Hm2 by lia.
    specialize (Hm2 ltac:(lia)). subst m2.
    rewrite (Hres g 0) by (rewrite ?Hcanon; simpl; lia).
    simpl (2 ^ 0). rewrite Z.div_1_r, Z.add_0_r.
    destruct (a * 2 ^ (eg - g)) as [|q|q]; [lia| |lia].
    simpl. destruct (g <=? emax - prec) eqn:E; [done|]. apply Z.leb_gt in E. lia.
Qed.

(** *** Doubles on a common grid *)

Lemma scaled_pos a e :
  0 < a < 2 ^ prec -> SpecFloat.emin prec emax <= e <= 0 ->
  scaled a e
  = S754_finite false (Z.to_pos (a * 2 ^ (e - fexp prec emax (Zdigits2 a + e))))
               (fexp prec emax (Zdigits2 a + e)).
Proof.
  intros Ha He. pose proof (fexp_le a e Ha ltac:(lia)) as Hg.
  unfold scaled. destruct a as [|p|p]; [lia| |lia]. cbn [binary_normalize].
  rewrite <- (binary_round_exact false (Zpos p) e e); [|done|lia|lia|unfold emax, prec in *; lia].
  by rewrite Z.sub_diag, Z.mul_1_r.
Qed.


(** The finite form of a positive double on the grid. *)
Lemma scaled_finite a e :
  0 < a < 2 ^ prec -> SpecFloat.emin prec emax <= e <= 0 ->
  exists m g, scaled a e = S754_finite false m g /\
              g <= e /\ Zpos m = a * 2 ^ (e - g) /\
              g = fexp prec emax (Zdigits2 a + e).
Proof.
  intros Ha He. pose proof (fexp_le a e Ha ltac:(lia)) as Hg.
  eexists _, _. split; [by apply scaled_pos|]. split; [done|]. split; [|done].
  assert (0 < 2 ^ (e - fexp prec emax (Zdigits2 a + e))) by (apply Z.pow_pos_nonneg; lia).
  rewrite Z2Pos.id by nia. done.
Qed.

Lemma scaled_valid a e :
  0 <= a < 2 ^ prec -> SpecFloat.emin prec emax <= e <= 0 ->
  valid_binary (scaled a e) = true.
Proof.
  intros Ha He. destruct (decide (a = 0)) as [->|Hne]; [done|].
  destruct (scaled_finite a e ltac:(lia) He) as (m & g & -> & Hg & Hm & Hgeq).
  simpl. unfold bounded, canonical_mantissa. apply andb_true_iff. split.
  - apply Z.eqb_eq. change (Zpos (digits2_pos m)) with (Zdigits2 (Zpos m)).
    rewrite Hm, digits_scaled by lia.
    replace (Zdigits2 a + (e - g) + g) with (Zdigits2 a + e) by lia. by rewrite <- Hgeq.
  - apply Z.leb_le. unfold emax, prec in *. lia.
Qed.






(** *** The primitive doubles *)

Lemma Prim2SF_zero : Prim2SF 0 = S754_zero false.
Proof. reflexivity. Qed.


Section Grid.
Context (e : Z) (He : SpecFloat.emin prec emax <= e <= 0).





End Grid.

(** *** A random index *)

Lemma Prim2SF_ofZ n :
  0 <= n < 2 ^ prec -> Prim2SF (ofZ n) = scaled n 0.
Proof.
  intros Hn. unfold ofZ. apply Prim2SF_SF2Prim.
  apply (scaled_valid n 0); [done|]. unfold SpecFloat.emin, emax, prec. lia.
Qed.

Lemma Prim2SF_1 : Prim2SF 1 = S754_finite false 4503599627370496 (-52).
Proof. reflexivity. Qed.

Lemma ltb_one m e :
  SFltb (S754_finite false m e) (S754_finite false 4503599627370496 (-52)) = true ->
  e < -52 \/ (e = -52 /\ Zpos m < 4503599627370496).
Proof.
  unfold SFltb. cbn [SFcompare]. intros H.
  destruct (e ?= -52) eqn:E.
  - right. split; [by apply Z.compare_eq_iff|].
    destruct (Pos.compare_cont Eq m 4503599627370496) eqn:E'; try discriminate H.
    exact E'.
  - left. by apply Z.compare_lt_iff.
  - discriminate H.
Qed.

(** A valid double in [0, 1) is zero or has a mantissa below [2 ^ 53] and
    an exponent of at most [-53]. *)
Lemma unit_interval x :
  (0 <=? x)%float = true -> (x <? 1)%float = true ->
  (exists s, Prim2SF x = S754_zero s) \/
  (exists m e, Prim2SF x = S754_finite false m e /\ Zpos m < 2 ^ prec /\ e <= - prec).
Proof.
  rewrite leb_spec, ltb_spec. pose proof (Prim2SF_valid x) as Hv.
  rewrite Prim2SF_zero, Prim2SF_1.
  destruct (Prim2SF x) as [s|s| |s m e]; intros H0 H1.
  - left. by exists s.
  - destruct s; discriminate.
  - discriminate.
  - right. destruct s; [discriminate|]. exists m, e. split; [done|].
    apply ltb_one in H1.
    simpl in Hv. unfold bounded, canonical_mantissa in Hv.
    apply andb_true_iff in Hv as [Hc _]. apply Z.eqb_eq in Hc.
    pose proof (digits_bounds m) as [Hlo Hhi].
    unfold fexp, SpecFloat.emin, emax, prec in *.
    assert (Zpos (digits2_pos m) <= 53) as Hd by lia.
    assert (2 ^ Zpos (digits2_pos m) <= 2 ^ 53) as Hp by (apply Z.pow_le_mono_r; lia).
    split; [lia|].
    destruct H1 as [Hlt|[-> Hm]]; [lia|exfalso].
    assert (Zpos (digits2_pos m) = 53) as Hd53 by lia.
    rewrite Hd53 in Hlo. change (2 ^ (53 - 1)) with 4503599627370496 in Hlo. lia.
Qed.

Lemma shiftl_below a n w e :
  0 <= a -> 0 <= w -> e <= w -> a * 2 ^ w < n * 2 ^ (w - e) -> Z.shiftl a e < n.
Proof.
  intros Ha Hw He Hlt. destruct (decide (0 <= e)) as [Hpos|Hneg].
  - rewrite Z.shiftl_mul_pow2 by done.
    assert (0 < 2 ^ (w - e)) as Hp by (apply Z.pow_pos_nonneg; lia).
    replace w with (e + (w - e)) in Hlt at 1 by lia.
    rewrite Z.pow_add_r, Z.mul_assoc in Hlt by lia.
    by apply Z.mul_lt_mono_pos_r in Hlt.
  - rewrite Z.shiftl_div_pow2 by lia.
    assert (0 < 2 ^ w) as Hp by (apply Z.pow_pos_nonneg; lia).
    assert (0 < 2 ^ (- e)) as Hp' by (apply Z.pow_pos_nonneg; lia).
    replace (w - e) with (- e + w) in Hlt by lia.
    rewrite Z.pow_add_r, Z.mul_assoc in Hlt by lia.
    apply Z.mul_lt_mono_pos_r in Hlt; [|done].
    apply Z.div_lt_upper_bound; lia.
Qed.

(** Arithmetic of the rounding step: [M] is the exact product, [P] the
    weight of the bits that are dropped, [N * P] the scaled integer and
    [2 * c] is [2 ^ 53]. *)
Lemma round_below M P N q rem c m2 :
  0 < P -> 0 < c -> M = P * q + rem -> 0 <= rem < P ->
  M * (2 * c) <= (2 * c - 1) * (N * P) -> c <= N ->
  (m2 = q \/ m2 = q + 1) -> (2 * rem < P -> m2 = q) ->
  (N = c -> N <= q) ->
  m2 < N.
Proof.
  intros HP Hc HM Hrem Hstar HN Hm2 Hdown Htop.
  assert (M < N * P) as HMN by nia.
  assert (q < N) as HqN by nia.
  destruct Hm2 as [->| ->]; [done|].
  destruct (decide (2 * rem < P)) as [Hlt|Hge]; [specialize (Hdown Hlt); lia|].
  destruct (decide (q + 1 < N)) as [|Hq]; [done|exfalso].
  assert (q = N - 1) as Hq1 by lia. subst q M.
  assert (2 * c * rem <= 2 * c * P - N * P) as H1 by nia.
  assert (N * P <= c * P) as H2 by nia.
  assert (N <= c) as H3 by nia.
  assert (N = c) as H4 by lia. specialize (Htop H4). lia.
Qed.

Lemma product_gap x y t c :
  0 < y -> 0 < c -> x <= 2 * c - 1 -> 2 * c <= t ->
  x * y * (2 * c) <= (2 * c - 1) * (y * t).
Proof.
  intros Hy Hc Hx Ht.
  assert (x * y <= (2 * c - 1) * y) as H1 by nia.
  assert (0 <= (2 * c - 1) * y) as H0 by nia.
  assert (x * y * (2 * c) <= (2 * c - 1) * y * (2 * c)) as H2
    by (apply Z.mul_le_mono_nonneg_r; lia).
  assert ((2 * c - 1) * y * (2 * c) <= (2 * c - 1) * y * t) as H3
    by (apply Z.mul_le_mono_nonneg_l; lia).
  lia.
Qed.

(** The product of a double below 1 and an integer-valued double [n],
    rounded to nearest, stays below [n]: rounding up to [n] itself would
    need a product within half a unit in the last place of [n]. *)
Lemma mul_below (mx my : positive) ex ey n :
  Zpos mx < 2 ^ prec -> ex <= - prec ->
  2 ^ (prec - 1) <= Zpos my < 2 ^ prec -> SpecFloat.emin prec emax < ey <= 0 ->
  Zpos my = n * 2 ^ (- ey) ->
  match binary_round_aux prec emax false (Zpos (mx * my)) (ex + ey) loc_Exact with
  | S754_zero _ => True
  | S754_finite s m e => s = false /\ 0 <= Z.shiftl (Zpos m) e < n
  | _ => False
  end.
Proof.
  intros Hmx Hex [Hmy0 Hmy1] Hey Hn.
  destruct (binary_round_aux_spec false (Zpos (mx * my)) (ex + ey) ltac:(lia))
    as (m2 & Hm2 & Hdown & Hres).
  unfold SpecFloat.emin, emax, prec in *.
  set (M := Zpos (mx * my)) in *. set (E := ex + ey) in *.
  set (d := Zdigits2 M) in *.
  set (p := Z.max 0 (fexp 53 1024 (d + E) - E)) in *.
  specialize (Hres (E + p) _ eq_refl eq_refl).
  set (p2 := Z.max 0 _) in Hres.
  assert (exists c, 0 < c /\ 2 ^ 52 = c /\ 2 ^ 53 = 2 * c /\ 2 ^ 106 = (2 * c) * (2 * c))
    as (c & Hc & Hc52 & Hc53 & Hc106) by (exists (2 ^ 52); done).
  rewrite Hc53 in Hmx, Hmy1. replace (2 ^ (53 - 1)) with c in Hmy0 by done.
  assert (M = Zpos mx * Zpos my) as HM by (unfold M; lia).
  pose proof (digits_bounds (mx * my)) as [Hdlo Hdhi].
  change (Zpos (digits2_pos (mx * my))) with d in Hdlo, Hdhi.
  change (Zpos (mx * my)) with M in Hdlo, Hdhi.
  assert (0 < d) as Hd0 by (unfold d, M; simpl; lia).
  assert (d <= 106) as Hd.
  { destruct (decide (d <= 106)) as [|Hgt]; [done|exfalso].
    assert (2 ^ 106 <= 2 ^ (d - 1)) as Hpw by (apply Z.pow_le_mono_r; lia).
    rewrite Hc106 in Hpw. clear - Hpw Hdlo HM Hmx Hmy1 Hc. nia. }
  assert (0 <= p <= - ex) as Hp by (unfold p, fexp, SpecFloat.emin, E; lia).
  assert (exists P, 0 < P /\ 2 ^ p = P) as (P & HP & HPeq)
    by (exists (2 ^ p); split; [apply Z.pow_pos_nonneg; lia|done]).
  assert (exists T, 0 < T /\ 2 ^ (- ex - p) = T) as (T & HT & HTeq)
    by (exists (2 ^ (- ex - p)); split; [apply Z.pow_pos_nonneg; lia|done]).
  rewrite HPeq in Hm2, Hdown.
  assert (2 ^ (- ex) = T * P) as HR.
  { rewrite <- HTeq, <- HPeq, <- Z.pow_add_r by lia. f_equal. lia. }
  assert (2 * c <= T * P) as Hbig.
  { rewrite <- HR, <- Hc53. apply Z.pow_le_mono_r; lia. }
  assert (M * (2 * c) <= (2 * c - 1) * (Zpos my * T * P)) as Hstar.
  { rewrite HM, <- (Z.mul_assoc (Zpos my)). apply product_gap; lia. }
  pose proof (Z.div_mod M P ltac:(lia)) as Hdm.
  pose proof (Z.mod_pos_bound M P HP) as Hrem.
  assert (c <= Zpos my * T) as HN by (clear - Hmy0 HT Hc; nia).
  assert (m2 < Zpos my * T) as Hkey.
  { apply (round_below M P (Zpos my * T) (M / P) (M mod P) c m2); try done.
    intros HNc.
    assert (T = 1) as HT1 by (clear - HNc Hmy0 HT Hc; nia).
    assert (p = - ex) as Hpex.
    { destruct (decide (p = - ex)) as [|Hne]; [done|exfalso].
      assert (2 ^ 1 <= 2 ^ (- ex - p)) as Hpw by (apply Z.pow_le_mono_r; lia).
      rewrite HTeq in Hpw. change (2 ^ 1) with 2 in Hpw. lia. }
    assert (d = 53 + p) as Hdp
      by (unfold p, fexp, SpecFloat.emin, E in Hpex; unfold p, fexp, SpecFloat.emin, E; lia).
    rewrite Hdp in Hdlo. replace (53 + p - 1) with (52 + p) in Hdlo by lia.
    rewrite Z.pow_add_r, Hc52, HPeq in Hdlo by lia.
    rewrite HNc. apply Z.div_le_lower_bound; lia. }
  assert (0 <= m2) as Hm2pos.
  { assert (0 <= M / P) by (apply Z.div_pos; lia). lia. }
  assert (0 <= p2) as Hp2 by (unfold p2; lia).
  assert (exists P2, 0 < P2 /\ 2 ^ p2 = P2) as (P2 & HP2 & HP2eq)
    by (exists (2 ^ p2); split; [apply Z.pow_pos_nonneg; lia|done]).
  rewrite Hres, HP2eq.
  pose proof (Z.mul_div_le m2 P2 HP2) as Hm3.
  assert (0 <= m2 / P2) as Hm3pos by (apply Z.div_pos; lia).
  destruct (m2 / P2) as [|m3|m3] eqn:Em3; [done| |lia].
  assert (Zpos m3 * 2 ^ (p + p2) < n * 2 ^ (p + p2 - (E + p + p2))) as Hval.
  { replace (p + p2 - (E + p + p2)) with (- ey + - ex) by (unfold E; lia).
    rewrite (Z.pow_add_r 2 (- ey)), Z.mul_assoc, <- Hn, HR by lia.
    rewrite Z.pow_add_r, HPeq, HP2eq by lia.
    clear - Hkey Hm3 HP HP2 HT. nia. }
  destruct (E + p + p2 <=? 1024 - 53) eqn:Ele.
  - split; [done|]. split; [apply Z.shiftl_nonneg; lia|].
    apply (shiftl_below _ _ (p + p2)); [lia|lia|unfold E; lia|done].
  - apply Z.leb_gt in Ele. exfalso.
    assert (n < 2 * c) as Hnc.
    { assert (1 <= 2 ^ (- ey)) as H1 by (apply (Z.pow_le_mono_r 2 0); lia).
      clear - H1 Hn Hmy1. nia. }
    assert (2 ^ (p + p2) = 2 ^ (E + p + p2) * 2 ^ (- E)) as Hsplit.
    { rewrite <- Z.pow_add_r by (unfold E; lia). f_equal. lia. }
    replace (p + p2 - (E + p + p2)) with (- E) in Hval by lia.
    rewrite Hsplit, Z.mul_assoc in Hval.
    assert (0 < 2 ^ (- E)) as HpE by (apply Z.pow_pos_nonneg; unfold E; lia).
    apply Z.mul_lt_mono_pos_r in Hval; [|done].
    assert (2 ^ 53 <= 2 ^ (E + p + p2)) as Hpw by (apply Z.pow_le_mono_r; lia).
    rewrite Hc53 in Hpw. clear - Hval Hpw Hnc. nia.
Qed.

(** An integer below [2 ^ 53] is a double with a full mantissa. *)
Lemma scaled_integer n :
  0 < n < 2 ^ prec ->
  exists my ey,
    scaled n 0 = S754_finite false my ey /\
    2 ^ (prec - 1) <= Zpos my < 2 ^ prec /\ SpecFloat.emin prec emax < ey <= 0 /\
    Zpos my = n * 2 ^ (- ey).
Proof.
  intros Hn.
  destruct (scaled_finite n 0 Hn) as (my & ey & E & Hey & Hmy & Hg);
    [unfold SpecFloat.emin, emax, prec; lia|].
  exists my, ey. split; [done|]. rewrite Z.sub_0_l in Hmy.
  pose proof (digits_le_prec n Hn) as Hd.
  destruct n as [|pn|pn]; [lia| |lia]. simpl in Hg, Hd.
  pose proof (digits_bounds pn) as [Hlo Hhi].
  unfold fexp, SpecFloat.emin, emax, prec in *.
  assert (ey = Zpos (digits2_pos pn) - 53) as Hey' by lia.
  split; [|split; [lia|done]].
  rewrite Hmy, Hey'. replace (- (Zpos (digits2_pos pn) - 53)) with (53 - Zpos (digits2_pos pn)) by lia.
  assert (0 < 2 ^ (53 - Zpos (digits2_pos pn))) as Hpow by (apply Z.pow_pos_nonneg; lia).
  split.
  - replace (53 - 1) with ((Zpos (digits2_pos pn) - 1) + (53 - Zpos (digits2_pos pn))) by lia.
    rewrite Z.pow_add_r by lia. by apply Z.mul_le_mono_nonneg_r; [lia|].
  - replace 53 with (Zpos (digits2_pos pn) + (53 - Zpos (digits2_pos pn))) at 2 by lia.
    rewrite Z.pow_add_r by lia. by apply Z.mul_lt_mono_pos_r.
Qed.

(** [Math.floor(Math.random() * n)] is an index below [n]. *)
Lemma random_index (rnd : float) n :
  (0 <=? rnd)%float = true -> (rnd <? 1)%float = true -> 0 < n < 2 ^ prec ->
  exists k, floor (rnd * ofZ n) = Some k /\ 0 <= k < n.
Proof.
  intros H0 H1 Hn. unfold floor. rewrite mul_spec, Prim2SF_ofZ by lia.
  destruct (scaled_integer n Hn) as (my & ey & -> & Hmy & Hey & Hval).
  destruct (unit_interval rnd H0 H1) as [(s & ->)|(mx & ex & -> & Hmx & Hex)].
  - exists 0. split; [done|lia].
  - pose proof (mul_below mx my ex ey n Hmx Hex Hmy Hey Hval) as Hb.
    unfold SF64mul. cbn [SFmul xorb].
    destruct (binary_round_aux _ _ _ _ _ _) as [s|s| |s m e]; [|done|done|].
    + exists 0. split; [done|lia].
    + destruct Hb as [-> Hb]. by eexists.
Qed.

(** The product is rounded before it is floored: a third, as a double,
    times 3 is the double 1, and the index is 1. *)
Example floor_rounded_product :
  floor (0x1.5555555555555p-2 * ofZ 3) = Some 1 /\
  (0x1.5555555555555p-2 <? 1)%float = true.
Proof. split; reflexivity. Qed.

(** *** Signs *)











End NumberFacts.

(** * List iteration *)

Module FoldFacts.

(** A property of the accumulator that every step preserves holds at the
    end of a loop. *)
Lemma foldl_inv {A B} (P : A -> Prop) (f : A -> B -> A) (l : list B) (a : A) :
  P a -> (forall s i, i ∈ l -> P s -> P (f s i)) -> P (foldl f a l).
Proof.
  revert a. induction l as [|x l IH]; intros a Ha Hf; simpl; [done|].
  apply IH.
  - apply Hf; [by left|done].
  - intros s i Hi. apply Hf. by right.
Qed.

(** A property that the step for one particular element establishes, and
    every step preserves, holds at the end of a loop over a list that
    contains this element. *)
Lemma foldl_reach {A B} (P : A -> Prop) (f : A -> B -> A) (l : list B) (a : A) x :
  x ∈ l -> (forall s, P (f s x)) -> (forall s y, P s -> P (f s y)) -> P (foldl f a l).
Proof.
  intros Hx Hhit Hkeep. revert a.
  induction l as [|y l IH]; intros a; [by apply elem_of_nil in Hx|].
  simpl. apply elem_of_cons in Hx as [->|Hx].
  - apply foldl_inv; [apply Hhit|]. intros s i _. apply Hkeep.
  - by apply IH.
Qed.

(** The same with an invariant [I] of the accumulator at hand. *)
Lemma foldl_reach_inv {A B} (I P : A -> Prop) (f : A -> B -> A) (l : list B) (a : A) x :
  x ∈ l -> I a ->
  (forall s y, y ∈ l -> I s -> I (f s y)) ->
  (forall s, I s -> P (f s x)) ->
  (forall s y, y ∈ l -> I s -> P s -> P (f s y)) ->
  P (foldl f a l).
Proof.
  intros Hx Ha HI Hhit Hkeep.
  apply list_elem_of_split in Hx as (l1 & l2 & ->).
  rewrite foldl_app. cbn [foldl].
  assert (I (foldl f a l1)) as H1.
  { apply foldl_inv; [done|]. intros s y Hy. apply HI. apply elem_of_app. by left. }
  assert (forall l' s, (forall y, y ∈ l' -> y ∈ l1 ++ x :: l2) -> I s -> P s ->
                       P (foldl f s l')) as Hrest.
  { induction l' as [|y l' IHl]; intros s Hl Hs Hp; [done|]. simpl.
    apply IHl; [intros; apply Hl; by right|apply HI; [apply Hl; by left|done]|].
    apply Hkeep; [apply Hl; by left|done|done]. }
  apply Hrest.
  - intros y Hy. apply elem_of_app. right. by right.
  - apply HI; [apply elem_of_app; right; by left|done].
  - by apply Hhit.
Qed.

End FoldFacts.

(** * Properties of the pathfinder *)

Module PathfindingFacts.
Import Pathfinding PathSpec.

(** ** The sort step only reorders the frontier *)

Lemma insertBy_Permutation {A} (cmp : A -> A -> Z) x l :
  insertBy cmp x l ≡ₚ x :: l.
Proof.
  induction l as [|y t IH]; simpl; [done|].
  destruct (cmp x y <=? 0); [done|].
  rewrite IH. apply perm_swap.
Qed.

Lemma sortBy_Permutation {A} (cmp : A -> A -> Z) l : sortBy cmp l ≡ₚ l.
Proof.
  induction l as [|x l IH]; simpl; [done|].
  rewrite insertBy_Permutation. by constructor.
Qed.

(** ** Termination: the fuel of [findPath_run] is never exhausted *)

Lemma inGrid_gridCells p : inGrid p = true -> p ∈ gridCells.
Proof.
  destruct p as [i j]. unfold inGrid; simpl. intros H.
  apply andb_prop in H as [H H4]. apply andb_prop in H as [H H3].
  apply andb_prop in H as [H1 H2].
  unfold gridCells. apply list_elem_of_bind. exists i. split.
  - apply list_elem_of_bind. exists j. split; [apply list_elem_of_singleton; done|].
    apply elem_of_seqZ. unfold GRID_COLS in *. lia.
  - apply elem_of_seqZ. unfold GRID_ROWS in *. lia.
Qed.

Lemma getNeighbors_inGrid p n : n ∈ getNeighbors p -> inGrid n = true.
Proof. unfold getNeighbors. intros H. by apply list_elem_of_filter in H as [H _]. Qed.

Lemma filter_length_mono {A} (P Q : A -> Prop)
    `{!forall x, Decision (P x)} `{!forall x, Decision (Q x)} (l : list A) :
  (forall x, P x -> Q x) -> (length (filter P l) <= length (filter Q l))%nat.
Proof.
  intros HPQ. induction l as [|x l IH]; simpl; [lia|].
  rewrite !filter_cons. destruct (decide (P x)) as [HP|HP].
  - rewrite decide_True by auto. simpl. lia.
  - destruct (decide (Q x)); simpl; lia.
Qed.

Lemma filter_length_lt {A} (P Q : A -> Prop)
    `{!forall x, Decision (P x)} `{!forall x, Decision (Q x)} (l : list A) x :
  (forall x, P x -> Q x) -> x ∈ l -> Q x -> ~ P x ->
  (length (filter P l) < length (filter Q l))%nat.
Proof.
  intros HPQ Hin HQ HnP. induction l as [|y l IH]; [by apply elem_of_nil in Hin|].
  rewrite !filter_cons. apply elem_of_cons in Hin as [<-|Hin].
  - rewrite decide_False by done. rewrite decide_True by done. simpl.
    pose proof (filter_length_mono P Q l HPQ). lia.
  - specialize (IH Hin). destruct (decide (P y)) as [HP|HP].
    + rewrite decide_True by auto. simpl. lia.
    + destruct (decide (Q y)); simpl; lia.
Qed.

Lemma unvisited_insert vis p :
  inGrid p = true -> posKey p ∉ vis ->
  (unvisited ({[posKey p]} ∪ vis) < unvisited vis)%nat.
Proof.
  intros Hg Hn. unfold unvisited.
  apply filter_length_lt with (x := p); [set_solver|by apply inGrid_gridCells|done|set_solver].
Qed.

Lemma expand_measure walls current ns st :
  Forall (fun n => inGrid n = true) ns ->
  (measure (expand walls current ns st) <= measure st)%nat.
Proof.
  intros Hns. revert st. induction Hns as [|n ns Hn _ IH]; intros st; simpl; [done|].
  destruct (bool_decide (posKey n ∉ visited st)) eqn:Hv; simpl; [|apply IH].
  destruct (bool_decide (posKey n ∉ walls)); simpl; [|apply IH].
  apply bool_decide_eq_true in Hv.
  etrans; [apply IH|]. unfold measure; simpl. rewrite length_app; simpl.
  pose proof (unvisited_insert (visited st) n Hn Hv). lia.
Qed.

Lemma search_fuel_enough fuel goal walls algorithm st :
  (measure st < fuel)%nat ->
  exists res, search fuel goal walls algorithm st = Done res.
Proof.
  revert st. induction fuel as [|fuel IH]; intros st Hlt; [lia|]. simpl.
  pose proof (sortBy_Permutation (compareNodes algorithm goal) (queue st)) as Hp.
  destruct (sortBy (compareNodes algorithm goal) (queue st)) as [|current rest];
    [by eexists|].
  destruct (bool_decide (r (pos current) = r goal) && bool_decide (c (pos current) = c goal));
    [by eexists|].
  apply IH. apply Permutation_length in Hp. simpl in Hp.
  eapply Nat.le_lt_trans; [apply expand_measure|].
  - apply Forall_forall. intros n. apply getNeighbors_inGrid.
  - unfold measure in *; simpl. lia.
Qed.

Lemma unvisited_le vis : (unvisited vis <= Z.to_nat (GRID_ROWS * GRID_COLS))%nat.
Proof.
  unfold unvisited. etrans; [apply length_filter|]. by vm_compute.
Qed.

Lemma findPath_returns start goal walls algorithm :
  exists res, findPath_run start goal walls algorithm = Done res.
Proof.
  apply search_fuel_enough.
  pose proof (unvisited_le {[posKey start]}) as Hle.
  change (Z.to_nat (GRID_ROWS * GRID_COLS)) with 400%nat in Hle.
  change maxIterations with 402%nat. unfold measure, initial; simpl. lia.
Qed.

Lemma findPath_run_eq start goal walls algorithm :
  findPath_run start goal walls algorithm = Done (findPath start goal walls algorithm).
Proof.
  unfold findPath. by destruct (findPath_returns start goal walls algorithm) as [res ->].
Qed.

(** ** Invariants of the frontier *)

Lemma search_S fuel goal walls algorithm st :
  search (S fuel) goal walls algorithm st =
  match sortBy (compareNodes algorithm goal) (queue st) with
  | [] => Done None
  | current :: rest =>
      if bool_decide (r (pos current) = r goal) && bool_decide (c (pos current) = c goal)
      then Done (Some (mkPathResult (rev (chain current)) (count st + 1) (order st)))
      else search fuel goal walls algorithm
             (expand walls current (getNeighbors (pos current))
                (mkSearch rest (visited st) (order st) (count st + 1)))
  end.
Proof. reflexivity. Qed.

Lemma goal_test (p goal : Position) :
  bool_decide (r p = r goal) && bool_decide (c p = c goal) = true <-> p = goal.
Proof.
  destruct p as [i j], goal as [i' j']; simpl. split.
  - intros H. apply andb_prop in H as [H1 H2].
    apply bool_decide_eq_true in H1, H2. by subst.
  - intros [= -> ->]. by rewrite !bool_decide_eq_true_2.
Qed.

Section SearchInvariant.
Context (goal : Position) (walls : gset string) (algorithm : Algorithm).
Variable P : PathNode -> Prop.
Hypothesis P_step : forall cur n,
  P cur -> pos cur <> goal -> n ∈ getNeighbors (pos cur) -> posKey n ∉ walls ->
  P (mkNode n (distance cur + 1) (Some cur)).

Lemma expand_inv cur ns st :
  P cur -> pos cur <> goal ->
  (forall n, n ∈ ns -> n ∈ getNeighbors (pos cur)) ->
  Forall P (queue st) -> Forall P (queue (expand walls cur ns st)).
Proof.
  intros Hc Hg. revert st. induction ns as [|n ns IH]; intros st Hns Hq; simpl; [done|].
  assert (forall m, m ∈ ns -> m ∈ getNeighbors (pos cur)) as Hns'
    by (intros m Hm; apply Hns; by right).
  destruct (bool_decide (posKey n ∉ visited st)); simpl; [|by apply IH].
  destruct (bool_decide (posKey n ∉ walls)) eqn:Hw; simpl; [|by apply IH].
  apply bool_decide_eq_true in Hw.
  apply IH; [done|]. simpl. apply Forall_app. split; [done|].
  apply Forall_singleton. apply P_step; [done..| |done]. apply Hns. by left.
Qed.

Lemma search_inv fuel st res :
  Forall P (queue st) ->
  search fuel goal walls algorithm st = Done (Some res) ->
  exists cur, P cur /\ pos cur = goal /\ path res = rev (chain cur).
Proof.
  revert st. induction fuel as [|fuel IH]; intros st Hq; simpl; [done|].
  pose proof (sortBy_Permutation (compareNodes algorithm goal) (queue st)) as Hp.
  destruct (sortBy (compareNodes algorithm goal) (queue st)) as [|current rest]; [done|].
  rewrite <- Hp in Hq. apply Forall_cons in Hq as [Hc Hrest].
  destruct (bool_decide (r (pos current) = r goal) && bool_decide (c (pos current) = c goal))
    eqn:Hgoal.
  - intros [= <-]. exists current. by apply goal_test in Hgoal.
  - apply IH. apply expand_inv; try done.
    intros Heq. apply goal_test in Heq. congruence.
Qed.

End SearchInvariant.

(** Every node of the frontier carries, through its parents, a walk from
    [start] to its own cell. *)
Lemma chain_cons n : exists tl, chain n = pos n :: tl.
Proof. destruct n as [p d [q|]]; simpl; eauto. Qed.

Lemma search_walk fuel start goal walls algorithm st res :
  Forall (fun n => walk walls start (rev (chain n)) (pos n)) (queue st) ->
  search fuel goal walls algorithm st = Done (Some res) ->
  walk walls start (path res) goal.
Proof.
  intros Hq Hr.
  apply (search_inv goal walls algorithm
           (fun n => walk walls start (rev (chain n)) (pos n))) in Hr; [|clear Hr|done].
  - destruct Hr as (cur & Hw & <- & ->). done.
  - intros cur n Hw _ Hn Hk. simpl. by eapply walk_step.
Qed.

Lemma findPath_walk start goal walls algorithm res :
  findPath start goal walls algorithm = Some res ->
  walk walls start (path res) goal.
Proof.
  unfold findPath.
  destruct (findPath_run start goal walls algorithm) as [r0|] eqn:Hr; [|done].
  intros ->. revert Hr. unfold findPath_run. apply search_walk.
  apply Forall_singleton. simpl. constructor.
Qed.

Lemma walk_head walls start l p : walk walls start l p -> head l = Some start.
Proof.
  induction 1 as [|l p n Hw IH _ _]; [done|].
  destruct l; [done|]. done.
Qed.

Lemma walk_last walls start l p : walk walls start l p -> last l = Some p.
Proof. induction 1; [done|]. by rewrite last_snoc. Qed.

Lemma walk_tail walls start l p :
  walk walls start l p -> Forall (fun q => posKey q ∉ walls) (tail l).
Proof.
  induction 1 as [|l p n Hw IH Hn Hk]; simpl; [constructor|].
  destruct l as [|a l]; simpl in *; [by apply walk_head in Hw|].
  apply Forall_app. split; [done|]. by apply Forall_singleton.
Qed.

Lemma elem_of_getNeighbors p n :
  n ∈ getNeighbors p <->
  inGrid n = true /\
  (n = mkPos (r p - 1) (c p) \/ n = mkPos (r p + 1) (c p) \/
   n = mkPos (r p) (c p - 1) \/ n = mkPos (r p) (c p + 1)).
Proof.
  unfold getNeighbors. rewrite list_elem_of_filter. simpl.
  rewrite !elem_of_cons, elem_of_nil.
  replace (r p + -1) with (r p - 1) by lia. replace (c p + -1) with (c p - 1) by lia.
  rewrite !Z.add_0_r. tauto.
Qed.

Lemma getNeighbors_sym p n :
  n ∈ getNeighbors p -> inGrid p = true -> p ∈ getNeighbors n.
Proof.
  rewrite !elem_of_getNeighbors. intros [_ H] Hp. split; [done|].
  destruct p as [i j].
  destruct H as [-> | [-> | [-> | ->]]]; simpl;
    [right; left|left|right; right; right|right; right; left]; f_equal; lia.
Qed.

Lemma search_never_reaches fuel start goal walls algorithm st res :
  goal ∉ getNeighbors start ->
  (forall n, n ∈ getNeighbors goal -> posKey n ∈ walls) ->
  Forall (fun n => pos n <> goal /\
            (pos n = start \/ inGrid (pos n) = true /\ posKey (pos n) ∉ walls))
         (queue st) ->
  search fuel goal walls algorithm st <> Done (Some res).
Proof.
  intros Hadj Hwalls Hq Hr.
  apply (search_inv goal walls algorithm
           (fun n => pos n <> goal /\
                     (pos n = start \/ inGrid (pos n) = true /\ posKey (pos n) ∉ walls)))
    in Hr; [|clear Hr|done].
  - destruct Hr as (cur & [Hc _] & Hg & _). done.
  - intros cur n [_ Hcur] _ Hn Hk. simpl. split.
    + intros ->. destruct Hcur as [Hs|[Hin Hw]].
      * rewrite Hs in Hn. done.
      * apply Hw, Hwalls. by apply getNeighbors_sym.
    + right. split; [by eapply getNeighbors_inGrid|done].
Qed.

(** ** The claims about [findPath] *)

(** A search from a cell to itself stops at its first iteration. *)
Lemma findPath_same_cell start walls algorithm :
  findPath start start walls algorithm = Some (mkPathResult [start] 1 [start]).
Proof.
  unfold findPath, findPath_run. change maxIterations with (S 401).
  rewrite search_S. unfold initial.
  cbn [queue sortBy foldr insertBy pos count order].
  by rewrite (proj2 (goal_test start start) eq_refl).
Qed.

(** C10: a search from a cell to itself returns the one-cell path, whether
    or not the cell is a wall; every returned path begins with [start] and
    ends with [goal]. *)
Theorem findPath_endpoints start goal walls algorithm :
  (exists res, findPath start start walls algorithm = Some res /\ path res = [start]) /\
  (forall res, findPath start goal walls algorithm = Some res ->
     head (path res) = Some start /\ last (path res) = Some goal).
Proof.
  split.
  - exists (mkPathResult [start] 1 [start]). split; [|done].
    apply findPath_same_cell.
  - intros res Hf. apply findPath_walk in Hf. split.
    + by eapply walk_head.
    + by eapply walk_last.
Qed.

Lemma findPath_endpoints_witness :
  exists res, findPath (mkPos 0 0) (mkPos 0 2) {[ "0,1" ]} GREEDY = Some res /\
    head (path res) = Some (mkPos 0 0) /\ last (path res) = Some (mkPos 0 2).
Proof.
  eexists. split; [vm_compute; reflexivity|].
  apply (proj2 (findPath_endpoints (mkPos 0 0) (mkPos 0 2) {[ "0,1" ]} GREEDY)).
  vm_compute; reflexivity.
Defined.

(** C3, as stated, fails: the start cell is never tested against the wall
    set, so a search that starts on a wall returns a path through it. *)
Lemma path_may_start_on_wall :
  ~ (forall start goal walls algorithm res,
       findPath start goal walls algorithm = Some res ->
       forall p, p ∈ path res -> posKey p ∉ walls).
Proof.
  intros H.
  eassert (findPath (mkPos 0 0) (mkPos 0 1) {[ "0,0" ]} DIJKSTRA
           = Some (mkPathResult [mkPos 0 0; mkPos 0 1] _ _)) as Hf
    by (vm_compute; reflexivity).
  apply (H _ _ _ _ _ Hf (mkPos 0 0)); [by left|].
  change (posKey (mkPos 0 0)) with "0,0". set_solver.
Qed.

(** C3, amended: the returned path begins with [start], and no cell after
    the first is a member of the wall set. *)
Theorem findPath_avoids_walls start goal walls algorithm res :
  findPath start goal walls algorithm = Some res ->
  head (path res) = Some start /\
  Forall (fun p => posKey p ∉ walls) (tail (path res)).
Proof.
  intros Hf. apply findPath_walk in Hf. split.
  - by eapply walk_head.
  - by eapply walk_tail.
Qed.

Lemma findPath_avoids_walls_witness :
  exists res, findPath (mkPos 0 0) (mkPos 0 2) {[ "0,1" ]} ASTAR = Some res /\
    head (path res) = Some (mkPos 0 0) /\
    Forall (fun p => posKey p ∉ ({[ "0,1" ]} : gset string)) (tail (path res)).
Proof.
  eexists. split; [vm_compute; reflexivity|].
  apply (findPath_avoids_walls (mkPos 0 0) (mkPos 0 2) {[ "0,1" ]} ASTAR).
  vm_compute; reflexivity.
Defined.

(** C6, as stated, fails: when [start] is itself one of the wall cells
    around [goal], the goal is entered directly from it. *)
Lemma enclosed_goal_entered_from_wall :
  ~ (forall start goal walls algorithm,
       start <> goal ->
       (forall n, n ∈ getNeighbors goal -> posKey n ∈ walls) ->
       findPath_run start goal walls algorithm = Done None).
Proof.
  intros H.
  specialize (H (mkPos 0 0) (mkPos 0 1) {[ "0,0"; "1,1"; "0,2" ]} ASTAR).
  eassert (findPath_run (mkPos 0 0) (mkPos 0 1) {[ "0,0"; "1,1"; "0,2" ]} ASTAR
           = Done (Some (mkPathResult [mkPos 0 0; mkPos 0 1] _ _))) as Hf
    by (vm_compute; reflexivity).
  rewrite Hf in H. discriminate H; [done|].
  intros n Hn. apply elem_of_getNeighbors in Hn as [Hg Hn]. simpl in Hn.
  destruct Hn as [-> | [-> | [-> | ->]]]; try discriminate Hg; vm_compute; reflexivity.
Qed.

(** C6, amended: if every grid neighbour of [goal] is a wall, [goal] is not
    [start] and [goal] is not a grid neighbour of [start], then the search
    returns [null] under every strategy. *)
Theorem findPath_enclosed_goal start goal walls algorithm :
  start <> goal ->
  goal ∉ getNeighbors start ->
  (forall n, n ∈ getNeighbors goal -> posKey n ∈ walls) ->
  findPath_run start goal walls algorithm = Done None.
Proof.
  intros Hne Hadj Hwalls.
  destruct (findPath_returns start goal walls algorithm) as [[res|] Hr]; [|done].
  exfalso. revert Hr. unfold findPath_run.
  apply search_never_reaches with (start := start); [done..|].
  apply Forall_singleton. simpl. split; [done|by left].
Qed.

(** A start cell inside the grid that is not a wall is never a neighbour of
    an enclosed goal. *)
Lemma enclosed_goal_not_adjacent start goal (walls : gset string) :
  inGrid start = true -> posKey start ∉ walls ->
  (forall n, n ∈ getNeighbors goal -> posKey n ∈ walls) ->
  goal ∉ getNeighbors start.
Proof.
  intros Hin Hw Hwalls Hadj. apply Hw, Hwalls. by apply getNeighbors_sym.
Qed.

Lemma findPath_enclosed_goal_witness :
  findPath_run (mkPos 5 5) (mkPos 0 0) {[ "0,1"; "1,0" ]} GREEDY = Done None.
Proof.
  apply (findPath_enclosed_goal (mkPos 5 5) (mkPos 0 0) {[ "0,1"; "1,0" ]} GREEDY).
  - discriminate.
  - intros Hn. apply elem_of_getNeighbors in Hn as [_ Hn]. simpl in Hn.
    destruct Hn as [Hn|[Hn|[Hn|Hn]]]; discriminate Hn.
  - intros n Hn. apply elem_of_getNeighbors in Hn as [Hg Hn]. simpl in Hn.
    destruct Hn as [-> | [-> | [-> | ->]]]; try discriminate Hg; vm_compute; reflexivity.
Defined.

(** ** Keys determine cells *)

Lemma pretty_N_go_noComma x s : noComma s -> noComma (pretty_N_go x s).
Proof.
  revert s. induction (N.lt_wf_0 x) as [x _ IH]; intros s Hs.
  assert (x = 0 \/ 0 < x)%N as [->|Hx] by lia.
  - by rewrite pretty_N_go_0.
  - rewrite pretty_N_go_step by done. apply IH.
    + by apply N.div_lt.
    + simpl. split; [|done]. unfold pretty_N_char. by repeat case_match.
Qed.

Lemma pretty_N_noComma (x : N) : noComma (pretty x).
Proof.
  unfold pretty, pretty_N. case_decide; [done|]. by apply pretty_N_go_noComma.
Qed.

Lemma pretty_Z_noComma (z : Z) : noComma (pretty z).
Proof.
  destruct z as [|p|p]; [done|apply pretty_N_noComma|].
  split; [done|]. apply pretty_N_noComma.
Qed.

Lemma append_comma_inj a a' b b' :
  noComma a -> noComma a' ->
  a +:+ "," +:+ b = a' +:+ "," +:+ b' -> a = a' /\ b = b'.
Proof.
  revert a'. induction a as [|ch a IH]; intros [|ch' a'] Ha Ha' H; simpl in *.
  - by inversion H.
  - inversion H; subst. by destruct Ha'.
  - inversion H; subst. by destruct Ha.
  - inversion H; subst. destruct Ha as [_ Ha], Ha' as [_ Ha'].
    destruct (IH a' Ha Ha' H2) as [-> ->]. done.
Qed.

Lemma posKey_inj p q : posKey p = posKey q -> p = q.
Proof.
  destruct p as [i j], q as [i' j']. unfold posKey; simpl. intros H.
  apply append_comma_inj in H as [Hi Hj]; try apply pretty_Z_noComma.
  apply (inj pretty) in Hi, Hj. by subst.
Qed.

(** ** The first node of the sorted frontier is a least one *)

Lemma sortBy_head_least {A} (cmp : A -> A -> Z) (key : A -> Z) l h t :
  (forall a b, cmp a b = key a - key b) ->
  sortBy cmp l = h :: t -> forall x, x ∈ l -> key h <= key x.
Proof.
  intros Hcmp. revert h t. induction l as [|y l IH]; intros h t Hs x Hx.
  - by apply elem_of_nil in Hx.
  - simpl in Hs. destruct (sortBy cmp l) as [|h' t'] eqn:E.
    + pose proof (sortBy_Permutation cmp l) as Hp. rewrite E in Hp.
      apply Permutation_nil_l in Hp. subst l. simpl in Hs. inversion Hs; subst.
      apply list_elem_of_singleton in Hx. subst. lia.
    + specialize (IH h' t' eq_refl). simpl in Hs.
      destruct (cmp y h' <=? 0) eqn:Ec.
      * inversion Hs; subst. apply Z.leb_le in Ec. rewrite Hcmp in Ec.
        apply elem_of_cons in Hx as [->|Hx]; [lia|]. specialize (IH x Hx). lia.
      * inversion Hs; subst. apply Z.leb_gt in Ec. rewrite Hcmp in Ec.
        apply elem_of_cons in Hx as [->|Hx]; [lia|]. by apply IH.
Qed.

Lemma walk_hops_nonneg walls start l p : walk walls start l p -> 0 <= hops l.
Proof. unfold hops. induction 1; simpl; [lia|]. rewrite length_app. simpl. lia. Qed.

Lemma hops_snoc (l : list Position) n : hops (l ++ [n]) = hops l + 1.
Proof. unfold hops. rewrite length_app. simpl. lia. Qed.

(** ** The uniform-cost strategy *)

Section Dijkstra.
Context (start goal : Position) (walls : gset string).

(** Along any walk, either its end has been taken from the frontier, or the
    walk passes through a cell of the frontier, or it passes through the
    node under expansion before its end. *)
Lemma walk_frontier u ns Q vis E l v :
  expanding start goal walls u ns Q vis E ->
  walk walls start l v ->
  (exists g, (v, g) ∈ E) \/
  (exists l1 n, walk walls start l1 (pos n) /\ n ∈ Q /\
                hops l1 <= hops l /\ (hops l1 < hops l \/ pos n = v)) \/
  (exists l1, walk walls start l1 (pos u) /\ hops l1 < hops l).
Proof.
  intros Hex. induction 1 as [|l p n Hw IH Hn Hk].
  - left. exists 0. apply Hex.
  - rewrite hops_snoc. destruct IH as [[g Hg]|[(l1 & m & Hl1 & Hm & Hle & _)|(l1 & Hl1 & Hlt)]].
    + destruct (ex_closed _ _ _ _ _ _ _ _ Hex p g n Hg Hn Hk) as [Hv|[-> _]].
      * destruct (ex_visited _ _ _ _ _ _ _ _ Hex n Hv) as [g' [(m & Hm & Hp & Hd)|HE]].
        -- right; left. exists (l ++ [n]), m. rewrite Hp, hops_snoc.
           split; [by eapply walk_step|]. split; [done|]. split; [lia|by right].
        -- left. by exists g'.
      * right; right. exists l. split; [done|lia].
    + right; left. exists l1, m. split; [done|]. split; [done|]. split; [lia|left; lia].
    + right; right. exists l1. split; [done|lia].
Qed.

Lemma expand_step_expanding u n ns st E :
  expanding start goal walls u (n :: ns) (queue st) (visited st) E ->
  bool_decide (posKey n ∉ visited st) && bool_decide (posKey n ∉ walls) = true ->
  expanding start goal walls u ns
    (queue st ++ [mkNode n (distance u + 1) (Some u)])
    ({[posKey n]} ∪ visited st) E.
Proof.
  intros Hex Hc. apply andb_prop in Hc as [Hv Hw].
  apply bool_decide_eq_true in Hv, Hw.
  assert (n ∈ getNeighbors (pos u)) as Hn by (apply Hex; by left).
  destruct (ex_walk_current _ _ _ _ _ _ _ _ Hex) as [Hwu Hdu].
  assert (forall v g, recordedAt (queue st ++ [mkNode n (distance u + 1) (Some u)]) E v g ->
                      recordedAt (queue st) E v g \/ (v = n /\ g = distance u + 1)) as Hsplit.
  { intros v g [(m & Hm & Hp & Hd)|HE]; [|left; by right].
    apply elem_of_app in Hm as [Hm|Hm].
    - left; left. by exists m.
    - apply list_elem_of_singleton in Hm. subst m. simpl in *. right. by subst. }
  constructor.
  - intros v Hin. apply elem_of_union in Hin as [Hin|Hin].
    + apply elem_of_singleton in Hin. apply posKey_inj in Hin. subst v.
      exists (distance u + 1). left. eexists. split; [apply elem_of_app; right; by left|done].
    + destruct (ex_visited _ _ _ _ _ _ _ _ Hex v Hin) as [g [(m & Hm & Hp & Hd)|HE]];
        exists g; [left|by right].
      exists m. split; [apply elem_of_app; by left|done].
  - intros v g Hr. destruct (Hsplit v g Hr) as [Hold|[-> _]].
    + apply elem_of_union; right. by eapply ex_recorded.
    + apply elem_of_union; left. by apply elem_of_singleton.
  - apply Hex.
  - apply Hex.
  - intros v g m HE Hm Hk.
    destruct (ex_closed _ _ _ _ _ _ _ _ Hex v g m HE Hm Hk) as [Hin|[-> Hin]].
    + left. apply elem_of_union; by right.
    + apply elem_of_cons in Hin as [->|Hin]; [|by right].
      left. apply elem_of_union; left. by apply elem_of_singleton.
  - apply Hex.
  - intros m Hm. apply elem_of_app in Hm as [Hm|Hm]; [by apply Hex|].
    apply list_elem_of_singleton in Hm. subst m. simpl. split.
    + by eapply walk_step.
    + rewrite hops_snoc. lia.
  - done.
  - intros v g l Hr Hl. destruct (Hsplit v g Hr) as [Hold|[-> ->]].
    + by eapply ex_lower.
    + destruct (walk_frontier u (n :: ns) (queue st) (visited st) E l n Hex Hl)
        as [[g' Hg']|[(l1 & m & Hl1 & Hm & Hle & Hcase)|(l1 & Hl1 & Hlt)]].
      * exfalso. apply Hv. eapply ex_recorded; [done|]. right. done.
      * assert (distance m <= hops l1) as Hlow.
        { eapply ex_lower; [done| |done]. left. by exists m. }
        pose proof (ex_least _ _ _ _ _ _ _ _ Hex m Hm) as Hleast.
        destruct Hcase as [Hlt|Heq]; [lia|].
        exfalso. apply Hv. eapply ex_recorded; [done|]. left. exists m. done.
      * assert (distance u <= hops l1) as Hlow; [|lia].
        eapply ex_lower; [done| |done]. right. apply Hex.
  - intros m Hm. apply elem_of_app in Hm as [Hm|Hm]; [by apply Hex|].
    apply list_elem_of_singleton in Hm. subst m. simpl. lia.
  - intros m Hm. apply Hex. by right.
Qed.

Lemma expand_skip_expanding u n ns Q vis E :
  expanding start goal walls u (n :: ns) Q vis E ->
  bool_decide (posKey n ∉ vis) && bool_decide (posKey n ∉ walls) = false ->
  expanding start goal walls u ns Q vis E.
Proof.
  intros Hex Hc. destruct Hex as [H1 H2 H3 H4 H5 H6 H7 H8 H9 H10 H11].
  constructor; try done.
  - intros v g m HE Hm Hk.
    destruct (H5 v g m HE Hm Hk) as [Hin|[-> Hin]]; [by left|].
    apply elem_of_cons in Hin as [->|Hin]; [|by right].
    left. apply andb_false_iff in Hc as [Hc|Hc]; apply bool_decide_eq_false in Hc.
    + by apply dec_stable.
    + done.
  - intros m Hm. apply H11. by right.
Qed.

Lemma expand_expanding u ns st E :
  expanding start goal walls u ns (queue st) (visited st) E ->
  expanding start goal walls u []
    (queue (expand walls u ns st)) (visited (expand walls u ns st)) E.
Proof.
  revert st. induction ns as [|n ns IH]; intros st Hex; simpl; [done|].
  destruct (bool_decide (posKey n ∉ visited st) && bool_decide (posKey n ∉ walls)) eqn:Hc.
  - apply IH. simpl. by apply expand_step_expanding.
  - apply IH. by eapply expand_skip_expanding.
Qed.

Lemma next_expanding u0 Q vis E u rest :
  expanding start goal walls u0 [] Q vis E ->
  sortBy (compareNodes DIJKSTRA goal) Q = u :: rest ->
  pos u <> goal ->
  expanding start goal walls u (getNeighbors (pos u)) rest vis
            ((pos u, distance u) :: E).
Proof.
  intros Hex Hs Hg.
  pose proof (sortBy_Permutation (compareNodes DIJKSTRA goal) Q) as Hp. rewrite Hs in Hp.
  assert (forall m, m ∈ Q <-> m = u \/ m ∈ rest) as HQ.
  { intros m. rewrite <- Hp. apply elem_of_cons. }
  assert (forall v g, recordedAt Q E v g <-> recordedAt rest ((pos u, distance u) :: E) v g)
    as Hrec.
  { intros v g. split.
    - intros [(m & Hm & Hpm & Hd)|HE]; [|right; by right].
      apply HQ in Hm as [->|Hm]; [subst; right; by left|left; by exists m].
    - intros [(m & Hm & Hpm & Hd)|HE].
      + left. exists m. split; [apply HQ; by right|done].
      + apply elem_of_cons in HE as [[= -> ->]|HE]; [|by right].
        left. exists u. split; [apply HQ; by left|done]. }
  constructor.
  - intros v Hv. destruct (ex_visited _ _ _ _ _ _ _ _ Hex v Hv) as [g Hr].
    exists g. by apply Hrec.
  - intros v g Hr. apply Hrec in Hr. by eapply ex_recorded.
  - right. apply Hex.
  - by left.
  - intros v g n HE Hn Hk. apply elem_of_cons in HE as [[= -> ->]|HE]; [by right|].
    destruct (ex_closed _ _ _ _ _ _ _ _ Hex v g n HE Hn Hk) as [Hin|[_ Hin]]; [by left|].
    by apply elem_of_nil in Hin.
  - intros g HE. apply elem_of_cons in HE as [[= ? ?]|HE]; [done|].
    by eapply ex_goal.
  - intros m Hm. apply (ex_walks _ _ _ _ _ _ _ _ Hex). apply HQ. by right.
  - apply (ex_walks _ _ _ _ _ _ _ _ Hex). apply HQ. by left.
  - intros v g l Hr Hl. apply Hrec in Hr. by eapply ex_lower.
  - intros m Hm.
    apply (sortBy_head_least (compareNodes DIJKSTRA goal) distance Q u rest); [done|done|].
    apply HQ. by right.
  - done.
Qed.

(** With an empty frontier, every cell at the end of a walk has been taken
    from the frontier. *)
Lemma exhausted u vis E l v :
  expanding start goal walls u [] [] vis E ->
  walk walls start l v -> exists g, (v, g) ∈ E.
Proof.
  intros Hex. induction 1 as [|l p n Hw [g Hg] Hn Hk].
  - exists 0. apply Hex.
  - destruct (ex_closed _ _ _ _ _ _ _ _ Hex p g n Hg Hn Hk) as [Hv|[_ Hin]];
      [|by apply elem_of_nil in Hin].
    destruct (ex_visited _ _ _ _ _ _ _ _ Hex n Hv) as [g' [(m & Hm & _)|HE]].
    + by apply elem_of_nil in Hm.
    + by exists g'.
Qed.

Lemma search_uniform_cost fuel st u0 E out :
  expanding start goal walls u0 [] (queue st) (visited st) E ->
  search fuel goal walls DIJKSTRA st = Done out ->
  match out with
  | Some res =>
      forall l, walk walls start l goal -> hops (path res) <= hops l
  | None => forall l, ~ walk walls start l goal
  end.
Proof.
  revert st u0 E. induction fuel as [|fuel IH]; intros st u0 E Hex; [done|].
  rewrite search_S.
  destruct (sortBy (compareNodes DIJKSTRA goal) (queue st)) as [|u rest] eqn:Hs.
  - intros [= <-]. intros l Hl.
    pose proof (sortBy_Permutation (compareNodes DIJKSTRA goal) (queue st)) as Hp.
    rewrite Hs in Hp. apply Permutation_nil_l in Hp. rewrite <- Hp in Hex.
    destruct (exhausted u0 (visited st) E l goal Hex Hl) as [g Hg].
    by eapply ex_goal.
  - destruct (bool_decide (r (pos u) = r goal) && bool_decide (c (pos u) = c goal)) eqn:Hg.
    + intros [= <-]. simpl. intros l Hl. apply goal_test in Hg.
      pose proof (sortBy_Permutation (compareNodes DIJKSTRA goal) (queue st)) as Hp.
      rewrite Hs in Hp.
      assert (u ∈ queue st) as Hu by (rewrite <- Hp; by left).
      destruct (ex_walks _ _ _ _ _ _ _ _ Hex u Hu) as [_ <-].
      eapply ex_lower; [done| |done]. left. by exists u.
    + assert (pos u <> goal) as Hne.
      { intros Heq. apply goal_test in Heq. congruence. }
      apply (IH _ u ((pos u, distance u) :: E)).
      apply expand_expanding. simpl. by eapply next_expanding.
Qed.

End Dijkstra.

(** The uniform-cost strategy finds a path whenever one exists, and no walk
    from [start] to [goal] has fewer moves than the path it returns. *)
Lemma findPath_uniform_cost start goal walls l0 :
  walk walls start l0 goal ->
  exists res,
    findPath start goal walls DIJKSTRA = Some res /\
    walk walls start (path res) goal /\
    forall l, walk walls start l goal -> hops (path res) <= hops l.
Proof.
  intros Hl0.
  destruct (decide (start = goal)) as [<-|Hne].
  { pose proof (findPath_same_cell start walls DIJKSTRA) as Hf.
    eexists. split; [done|]. split; [by apply findPath_walk in Hf|].
    intros l Hl. apply walk_hops_nonneg in Hl. unfold hops at 1. simpl. lia. }
  pose proof (findPath_run_eq start goal walls DIJKSTRA) as Hrun.
  assert (match findPath start goal walls DIJKSTRA with
          | Some res => forall l, walk walls start l goal -> hops (path res) <= hops l
          | None => forall l, ~ walk walls start l goal
          end) as Hres.
  { revert Hrun. generalize (findPath start goal walls DIJKSTRA). intros r0.
    unfold findPath_run. change maxIterations with (S 401). rewrite search_S.
    unfold initial. cbn [queue sortBy foldr insertBy pos count order visited].
    assert (bool_decide (r start = r goal) && bool_decide (c start = c goal) = false)
      as -> by (apply not_true_iff_false; by rewrite goal_test).
    apply (search_uniform_cost start goal walls _ _ (mkNode start 0 None) [(start, 0)]).
    apply expand_expanding. simpl. constructor.
    - intros v Hv. apply elem_of_singleton in Hv. apply posKey_inj in Hv. subst.
      exists 0. right. by left.
    - intros v g [(m & Hm & _)|HE]; [by apply elem_of_nil in Hm|].
      apply list_elem_of_singleton in HE. inversion HE. by apply elem_of_singleton.
    - by left.
    - by left.
    - intros v g n HE Hn Hk. apply list_elem_of_singleton in HE. inversion HE; subst.
      by right.
    - intros g HE. apply list_elem_of_singleton in HE. by inversion HE.
    - intros n Hn. by apply elem_of_nil in Hn.
    - simpl. split; [constructor|done].
    - intros v g l [(m & Hm & _)|HE] Hl; [by apply elem_of_nil in Hm|].
      apply list_elem_of_singleton in HE. inversion HE; subst.
      by eapply walk_hops_nonneg.
    - intros n Hn. by apply elem_of_nil in Hn.
    - done. }
  destruct (findPath start goal walls DIJKSTRA) as [res|] eqn:Hf.
  - exists res. split; [done|]. split; [by apply findPath_walk in Hf|done].
  - by destruct (Hres l0).
Qed.

(** C1, part by part.  The uniform-cost strategy returns a shortest path
    whenever the goal can be reached, and every path returned by any
    strategy, the greedy one included, is a walk that avoids the walls.  The
    A* strategy does not always return a shortest path: with walls at (0,1),
    (1,1) and (1,3) it returns 9 moves from (1,4) to (0,0), where the
    uniform-cost strategy and breadth-first search find 7. *)
Theorem shortest_for_uniform_cost_not_for_astar :
  (forall start goal walls l0,
     walk walls start l0 goal ->
     exists res,
       findPath start goal walls DIJKSTRA = Some res /\
       walk walls start (path res) goal /\
       forall l, walk walls start l goal -> hops (path res) <= hops l) /\
  (forall start goal walls algorithm res,
     findPath start goal walls algorithm = Some res ->
     walk walls start (path res) goal) /\
  (let start := mkPos 1 4 in
   let goal := mkPos 0 0 in
   let walls : gset string := {[ "0,1"; "1,1"; "1,3" ]} in
   (exists res, findPath start goal walls ASTAR = Some res /\ hops (path res) = 9) /\
   (exists res, findPath start goal walls DIJKSTRA = Some res /\ hops (path res) = 7) /\
   bfsDistance start goal walls = Some 7).
Proof.
  split; [|split].
  - apply findPath_uniform_cost.
  - apply findPath_walk.
  - split; [|split].
    + eexists. split; vm_compute; reflexivity.
    + eexists. split; vm_compute; reflexivity.
    + vm_compute; reflexivity.
Qed.

Lemma shortest_for_uniform_cost_witness :
  exists res,
    findPath (mkPos 1 4) (mkPos 0 0) {[ "0,1"; "1,1"; "1,3" ]} DIJKSTRA = Some res /\
    walk {[ "0,1"; "1,1"; "1,3" ]} (mkPos 1 4) (path res) (mkPos 0 0) /\
    forall l, walk {[ "0,1"; "1,1"; "1,3" ]} (mkPos 1 4) l (mkPos 0 0) ->
              hops (path res) <= hops l.
Proof.
  apply (proj1 shortest_for_uniform_cost_not_for_astar
           (mkPos 1 4) (mkPos 0 0) {[ "0,1"; "1,1"; "1,3" ]}
           [mkPos 1 4; mkPos 2 4; mkPos 2 3; mkPos 2 2; mkPos 2 1; mkPos 2 0;
            mkPos 1 0; mkPos 0 0]).
  eapply findPath_walk with (algorithm := DIJKSTRA) (res := mkPathResult _ _ _).
  vm_compute; reflexivity.
Defined.

End PathfindingFacts.

(** * Properties of the optimizers *)

Module AlgorithmsFacts.
Import Pathfinding Algorithms AlgSpec FoldFacts.

Lemma ltInf_atMost d m :
  atMost (if ltInf d m then Some d else m) d.
Proof.
  destruct m as [x|]; simpl.
  - destruct (d <? x) eqn:E; [exists d; split; [done|lia]|].
    exists x. split; [done|]. apply Z.ltb_ge in E. lia.
  - exists d. split; [done|lia].
Qed.

Section Permute.
Context (start : Position).

Lemma permute_leaf m st :
  minDist (permute 0 start [] m st)
  = if ltInf (tourCost start m) (minDist st) then Some (tourCost start m) else minDist st.
Proof. simpl. by destruct (ltInf _ _). Qed.

(** The running minimum never rises. *)
Lemma permute_mono fuel arr m st d :
  atMost (minDist st) d -> atMost (minDist (permute fuel start arr m st)) d.
Proof.
  revert arr m st. induction fuel as [|fuel IH]; intros arr m st Hst.
  - destruct arr as [|a arr]; [|done]. simpl.
    destruct Hst as (d0 & Hm & Hle). rewrite Hm. simpl.
    destruct (tourCost start m <? d0) eqn:E; simpl; [|by exists d0].
    apply Z.ltb_lt in E. eexists. split; [done|lia].
  - destruct arr as [|a arr].
    + simpl. destruct Hst as (d0 & Hm & Hle). rewrite Hm. simpl.
      destruct (tourCost start m <? d0) eqn:E; simpl; [|by exists d0].
      apply Z.ltb_lt in E. eexists. split; [done|lia].
    + cbn [permute]. apply (foldl_inv (fun s => atMost (minDist s) d)); [done|].
      intros s i _ Hs. by apply IH.
Qed.

(** Every ordering of [arr] is tried: afterwards the running minimum is at
    most the cost of [m] followed by that ordering. *)
Lemma permute_covers fuel arr m st q :
  (length arr <= fuel)%nat -> arr ≡ₚ q ->
  atMost (minDist (permute fuel start arr m st)) (tourCost start (m ++ q)).
Proof.
  revert arr m st q. induction fuel as [|fuel IH]; intros arr m st q Hlen Hperm.
  - destruct arr as [|a arr]; [|simpl in Hlen; lia].
    apply Permutation_nil_l in Hperm as <-. rewrite app_nil_r, permute_leaf.
    apply ltInf_atMost.
  - destruct arr as [|a arr].
    + apply Permutation_nil_l in Hperm as <-. rewrite app_nil_r.
      change (permute (S fuel) start [] m st) with (permute 0 start [] m st).
      rewrite permute_leaf. apply ltInf_atMost.
    + destruct q as [|x q]; [by apply Permutation_nil_r in Hperm|].
      assert (x ∈ a :: arr) as Hx by (rewrite Hperm; by left).
      apply list_elem_of_lookup_1 in Hx as [i Hi].
      pose proof (lookup_lt_Some _ _ _ Hi) as Hlt.
      cbn [permute]. set (l := a :: arr) in *.
      replace (length l) with (i + (1 + (length l - S i)))%nat by lia.
      rewrite seq_app, foldl_app. rewrite seq_app, foldl_app. simpl seq at 2.
      cbn [foldl].
      apply (foldl_inv (fun s => atMost (minDist s) (tourCost start (m ++ x :: q)))).
      * rewrite (drop_S _ _ _ Hi). simpl take at 1.
        replace (m ++ x :: q) with ((m ++ [x]) ++ q) by by rewrite <- app_assoc.
        apply IH.
        -- rewrite length_app, length_take, length_drop. lia.
        -- rewrite <- delete_take_drop.
           apply (Permutation.Permutation_cons_inv (a := x)). rewrite <- Hperm.
           symmetry. by apply delete_Permutation.
      * intros s j _ Hs. by apply permute_mono.
Qed.

(** What is recorded as [bestPath] is an ordering of all the targets, and
    [minDist] is its cost. *)
Lemma permute_recorded points fuel arr m st :
  m ++ arr ≡ₚ points ->
  tourRecorded start points st ->
  tourRecorded start points (permute fuel start arr m st).
Proof.
  revert arr m st. induction fuel as [|fuel IH]; intros arr m st Hperm Hst.
  - destruct arr as [|a arr]; [|done]. simpl.
    destruct (ltInf _ _); [|done]. right. simpl. split; [done|].
    by rewrite app_nil_r in Hperm.
  - destruct arr as [|a arr].
    + simpl. destruct (ltInf _ _); [|done]. right. simpl. split; [done|].
      by rewrite app_nil_r in Hperm.
    + cbn [permute]. set (l := a :: arr) in *.
      apply (foldl_inv (tourRecorded start points)); [done|].
      intros s i Hi Hs. apply IH; [|done].
      apply elem_of_seq in Hi as [_ Hi]. simpl in Hi.
      destruct (lookup_lt_is_Some_2 l i Hi) as [x Hx].
      rewrite (drop_S _ _ _ Hx).
      rewrite <- Hperm, <- app_assoc. apply Permutation_app_head.
      change (take 1 (x :: drop (S i) l)) with [x].
      rewrite <- delete_take_drop. symmetry. by apply delete_Permutation.
Qed.

End Permute.

(** The cost loop of [permute] computes the length of the tour. *)
Lemma tourCost_length start m : tourCost start m = tourLength start m.
Proof.
  revert start. induction m as [|p m IH]; intros start; [done|].
  unfold tourLength. cbn [tourCost zip_with foldr]. by rewrite IH.
Qed.

(** C9: in OPTIMAL mode [solveTSP] returns an ordering of the targets whose
    tour from [start], measured as the sum of the Manhattan distances of its
    legs, is at most as long as the tour through any ordering of the
    targets. *)
Theorem solveTSP_optimal start points :
  solveTSP start points Method.OPTIMAL ≡ₚ points /\
  (forall q, q ≡ₚ points ->
     tourLength start (solveTSP start points Method.OPTIMAL) <= tourLength start q).
Proof.
  setoid_rewrite <- tourCost_length.
  unfold solveTSP.
  set (final := permute (length points) start points [] (mkTour None [])).
  assert (tourRecorded start points final) as Hrec.
  { apply permute_recorded; [done|]. by left. }
  assert (forall q, q ≡ₚ points -> atMost (minDist final) (tourCost start q)) as Hcov.
  { intros q Hq. apply (permute_covers start (length points) points [] _ q); [lia|done]. }
  destruct (Hcov points (reflexivity _)) as (d0 & Hd0 & _).
  destruct Hrec as [Hnone|[Hmin Hperm]]; [congruence|].
  split; [done|]. intros q Hq.
  destruct (Hcov q Hq) as (d1 & Hd1 & Hle). congruence.
Qed.

Lemma solveTSP_optimal_witness :
  tourLength (mkPos 0 0)
    (solveTSP (mkPos 0 0) [mkPos 0 9; mkPos 0 1; mkPos 5 5] Method.OPTIMAL)
  <= tourLength (mkPos 0 0) [mkPos 0 1; mkPos 5 5; mkPos 0 9] /\
  tourLength (mkPos 0 0) [mkPos 0 1; mkPos 5 5; mkPos 0 9] = 19 /\
  tourLength (mkPos 0 0)
    (solveTSP (mkPos 0 0) [mkPos 0 9; mkPos 0 1; mkPos 5 5] Method.OPTIMAL) = 18 /\
  tourLength (mkPos 0 0) [mkPos 0 9; mkPos 0 1; mkPos 5 5] = 26.
Proof.
  split; [|split; [|split]; reflexivity].
  apply (proj2 (solveTSP_optimal (mkPos 0 0) [mkPos 0 9; mkPos 0 1; mkPos 5 5])).
  apply perm_trans with [mkPos 0 1; mkPos 0 9; mkPos 5 5].
  - apply perm_skip, perm_swap.
  - apply perm_swap.
Defined.

(** ** solveAssignment *)

Lemma entry_nonneg riderPositions orderPositions i j :
  0 <= entry (costMatrixOf riderPositions orderPositions) i j.
Proof.
  unfold entry, costMatrixOf.
  destruct (riderPositions !! i) as [rp|] eqn:Hi.
  - rewrite (list_lookup_total_correct _ i (map (fun op => getManhattanDistance rp op) orderPositions)).
    2:{ change (map ?f ?l) with (f <$> l). by rewrite list_lookup_fmap, Hi. }
    destruct (orderPositions !! j) as [op|] eqn:Hj.
    + rewrite (list_lookup_total_correct _ j (getManhattanDistance rp op)).
      2:{ change (map ?f ?l) with (f <$> l). by rewrite list_lookup_fmap, Hj. }
      unfold getManhattanDistance. lia.
    + rewrite list_lookup_total_alt.
      change (map ?f ?l) with (f <$> l). rewrite list_lookup_fmap, Hj. done.
  - rewrite (list_lookup_total_alt _ i).
    change (map ?f ?l) with (f <$> l). rewrite list_lookup_fmap, Hi. simpl.
    rewrite list_lookup_total_alt. by rewrite lookup_nil.
Qed.

Section Backtrack.
Context (n m : nat) (costMatrix : list (list Z)).
Hypothesis costs_nonneg : forall i j, 0 <= entry costMatrix i j.
Hypothesis enough_targets : (n <= m)%nat.

Lemma assignmentCost_nonneg i a : 0 <= assignmentCost costMatrix i a.
Proof.
  revert i. induction a as [|j a IH]; intros i; simpl; [lia|].
  specialize (IH (S i)). specialize (costs_nonneg i j). lia.
Qed.

Lemma assignmentCost_snoc i p j :
  assignmentCost costMatrix i (p ++ [j])
  = assignmentCost costMatrix i p + entry costMatrix (i + length p) j.
Proof.
  revert i. induction p as [|k p IH]; intros i; simpl.
  - rewrite Nat.add_0_r. lia.
  - rewrite IH. replace (S i + length p)%nat with (i + S (length p))%nat by lia. lia.
Qed.

(** The three ways through [backtrack]. *)
Lemma backtrack_pruned fuel riderIdx currentCost st :
  geInf currentCost (minTotalCost st) = true ->
  backtrack fuel n m costMatrix riderIdx currentCost st = st.
Proof. intros H. destruct fuel; simpl; by rewrite H. Qed.

Lemma backtrack_leaf fuel currentCost st :
  geInf currentCost (minTotalCost st) = false ->
  backtrack fuel n m costMatrix n currentCost st
  = mkAssign (Some currentCost) (currentAssignment st) (usedOrders st)
             (currentAssignment st).
Proof.
  intros H.
  assert (ltInf currentCost (minTotalCost st) = true) as Hlt.
  { destruct (minTotalCost st) as [x|]; [|done]. simpl in *.
    apply Z.leb_gt in H. by apply Z.ltb_lt. }
  destruct fuel; simpl; by rewrite H, Nat.eqb_refl, Hlt.
Qed.

Lemma backtrack_node fuel riderIdx currentCost st :
  geInf currentCost (minTotalCost st) = false ->
  riderIdx <> n ->
  backtrack (S fuel) n m costMatrix riderIdx currentCost st
  = (foldl (tryTarget fuel n m costMatrix riderIdx currentCost) (st, false) (seq 0 m)).1.
Proof.
  intros H Hne. cbn [backtrack]. rewrite H.
  rewrite (proj2 (Nat.eqb_neq _ _) Hne).
  fold (tryTarget fuel n m costMatrix riderIdx currentCost).
  destruct (foldl _ _ _) as [st1 found].
  rewrite (proj2 (Nat.ltb_ge _ _) enough_targets), andb_false_r. done.
Qed.

(** What one call of [backtrack] guarantees. *)
Lemma backtrack_ok fuel riderIdx currentCost st p :
  (n - riderIdx <= fuel)%nat -> (riderIdx <= n)%nat ->
  partialAssignment n m costMatrix p riderIdx currentCost st ->
  bestRecorded n m costMatrix st ->
  backtrackOk n m costMatrix riderIdx st
    (backtrack fuel n m costMatrix riderIdx currentCost st) /\
  notWorse st (backtrack fuel n m costMatrix riderIdx currentCost st) /\
  (forall a, length a = (n - riderIdx)%nat -> completion m (usedOrders st) a ->
     atMost (minTotalCost (backtrack fuel n m costMatrix riderIdx currentCost st))
            (currentCost + assignmentCost costMatrix riderIdx a)).
Proof.
  revert riderIdx currentCost st p.
  induction fuel as [|fuel IH]; intros riderIdx currentCost st p Hfuel Hle Hp Hbest.
  all: destruct (geInf currentCost (minTotalCost st)) eqn:Hge.
  1,3: rewrite backtrack_pruned by done;
       split; [split; [done|split; [apply Hp|split; [done|apply Hbest]]]|];
       split; [by intros d Hd|];
       intros a _ _; destruct (minTotalCost st) as [x|]; [|done];
       apply Z.leb_le in Hge; exists x; split; [done|];
       pose proof (assignmentCost_nonneg riderIdx a); lia.
  all: destruct (decide (riderIdx = n)) as [->|Hne].
  1,3: rewrite backtrack_leaf by done;
       destruct Hp as (Hlen & Hca & Htake & Hnd & Hused & Hcost);
       split; [|split];
       [split; [done|]; split; [done|]; split; [done|];
        unfold bestRecorded; cbn [minTotalCost bestAssignment];
        exists p; rewrite <- Htake, <- Hca, firstn_all;
        split; [done|]; split; [lia|]; split; [done|]; split; [apply Hused|done]
       |intros d (d0 & Hd0 & Hd); rewrite Hd0 in Hge; simpl in Hge;
        apply Z.leb_gt in Hge; exists currentCost; split; [done|lia]
       |intros a Ha _; rewrite Nat.sub_diag in Ha; destruct a; [|done];
        simpl; exists currentCost; split; [done|lia]].
  { exfalso. lia. }
  rewrite backtrack_node by done.
  assert (riderIdx < n)%nat as Hlt by lia.
  destruct Hp as (Hlen & Hca & Htake & Hnd & Hused & Hcost).
  (* one target *)
  assert (forall s found j, (j < m)%nat ->
            backtrackOk n m costMatrix riderIdx st s ->
            backtrackOk n m costMatrix riderIdx st
              (tryTarget fuel n m costMatrix riderIdx currentCost (s, found) j).1 /\
            notWorse s (tryTarget fuel n m costMatrix riderIdx currentCost (s, found) j).1 /\
            forall a', j ∉ usedOrders st ->
              length (j :: a') = (n - riderIdx)%nat ->
              completion m (usedOrders st) (j :: a') ->
              atMost (minTotalCost
                        (tryTarget fuel n m costMatrix riderIdx currentCost (s, found) j).1)
                     (currentCost + assignmentCost costMatrix riderIdx (j :: a'))) as Hbody.
  { intros s found j Hjm (Hu & Hl & Ht & Hb). unfold tryTarget.
    destruct (bool_decide (j ∉ usedOrders s)) eqn:Hj.
    2:{ cbn [fst]. split; [by split; [|split; [|split]]|]. split; [by intros d Hd|].
        intros a' Hnot. apply bool_decide_eq_false in Hj.
        rewrite Hu in Hj. done. }
    apply bool_decide_eq_true in Hj.
    set (s1 := mkAssign (minTotalCost s) (bestAssignment s) ({[j]} ∪ usedOrders s)
                 (<[riderIdx := Z.of_nat j]> (currentAssignment s))).
    assert (partialAssignment n m costMatrix (p ++ [j]) (S riderIdx)
              (currentCost + entry costMatrix riderIdx j) s1) as Hp1.
    { unfold partialAssignment, s1;
        cbn [currentAssignment usedOrders minTotalCost bestAssignment].
      split; [rewrite length_app; simpl; lia|].
      split; [by rewrite length_insert|].
      split.
      { rewrite fmap_app. simpl. rewrite <- Htake, <- Ht.
        rewrite (take_S_r _ _ (Z.of_nat j)).
        - by rewrite take_insert_ge by lia.
        - apply list_lookup_insert_eq. lia. }
      split.
      { apply NoDup_app. split; [done|]. split; [|apply NoDup_singleton].
        intros x Hx Hx'. apply list_elem_of_singleton in Hx'. subst x.
        apply Hj. rewrite Hu. by apply Hused. }
      split.
      { intros x Hx. apply elem_of_app in Hx as [Hx|Hx].
        - destruct (Hused x Hx) as [? ?]. split; [done|]. apply elem_of_union. right. by rewrite Hu.
        - apply list_elem_of_singleton in Hx. subst x. split; [done|]. apply elem_of_union. left.
          by apply elem_of_singleton. }
      rewrite assignmentCost_snoc, Hcost, Hlen. simpl. done. }
    destruct (IH (S riderIdx) (currentCost + entry costMatrix riderIdx j) s1 (p ++ [j]))
      as ((Hu2 & Hl2 & Ht2 & Hb2) & Hm2 & Hcov2); [lia|lia|done|done|].
    set (s2 := backtrack _ _ _ _ _ _ _) in *. simpl.
    split; [|split].
    - split; [|split; [done|split; [|done]]].
      + simpl. rewrite Hu2. unfold s1; simpl. rewrite <- Hu.
        apply set_eq. intros x.
        rewrite elem_of_difference, elem_of_union, elem_of_singleton.
        split; [by intros [[?|?] ?]|]. intros Hx. split; [by right|]. by intros ->.
      + simpl. apply (f_equal (take riderIdx)) in Ht2.
        rewrite !take_take, Nat.min_l in Ht2 by lia. rewrite Ht2.
        unfold s1; simpl. rewrite take_insert_ge by lia. done.
    - intros d Hd. simpl. by apply Hm2.
    - intros a' Hnot Hlen' (Hnd' & Hall). simpl.
      rewrite Z.add_assoc. apply Hcov2.
      + simpl in Hlen'. lia.
      + apply NoDup_cons in Hnd' as [Hja Hnd']. split; [done|].
        intros x Hx. destruct (Hall x) as [? Hxu]; [by right|]. split; [done|].
        unfold s1; simpl. rewrite Hu. intros Hin.
        apply elem_of_union in Hin as [Hin|Hin]; [|done].
        apply elem_of_singleton in Hin. by subst. }
  assert (forall k, k ∈ seq 0 m -> (k < m)%nat) as Hseq.
  { intros k Hk. apply elem_of_seq in Hk. lia. }
  split; [|split].
  - apply (foldl_inv (fun acc => backtrackOk n m costMatrix riderIdx st acc.1)); [done|].
    intros [s found] j Hj Hs. by apply Hbody; [apply Hseq|].
  - apply (foldl_inv (fun acc => backtrackOk n m costMatrix riderIdx st acc.1
                                 /\ notWorse st acc.1)); [by split; [|intros d Hd]|].
    intros [s found] j Hj [Hs Hw].
    destruct (Hbody s found j (Hseq j Hj) Hs) as (? & Hw' & _).
    split; [done|]. intros d Hd. by apply Hw', Hw.
  - intros a Ha Hcomp. destruct a as [|j a']; [simpl in Ha; lia|].
    destruct (proj2 Hcomp j) as [Hjm Hju]; [by left|].
    apply (foldl_reach_inv
             (fun acc => backtrackOk n m costMatrix riderIdx st acc.1)
             (fun acc => atMost (minTotalCost acc.1)
                           (currentCost + assignmentCost costMatrix riderIdx (j :: a')))
             _ _ _ j).
    + apply elem_of_seq. lia.
    + done.
    + intros [s found] k Hk Hs. by apply Hbody; [apply Hseq|].
    + intros [s found] Hs. by apply Hbody.
    + intros [s found] k Hk Hs Hat.
      destruct (Hbody s found k (Hseq k Hk) Hs) as (_ & Hw & _). by apply Hw.
Qed.

End Backtrack.

Lemma pairsFrom_riders costMatrix k b :
  riderIndex <$> pairsFrom costMatrix k b = seq k (length b).
Proof. revert k. induction b as [|j b IH]; intros k; simpl; [done|]. by rewrite IH. Qed.

Lemma pairsFrom_orders costMatrix k b :
  orderIndex <$> pairsFrom costMatrix k b = Z.of_nat <$> b.
Proof. revert k. induction b as [|j b IH]; intros k; simpl; [done|]. by rewrite IH. Qed.

Lemma pairsFrom_cost costMatrix k b :
  totalCost (pairsFrom costMatrix k b) = assignmentCost costMatrix k b.
Proof.
  revert k. induction b as [|j b IH]; intros k; simpl; [done|].
  unfold totalCost in IH. by rewrite IH.
Qed.

Lemma pairsFrom_read costMatrix pre b :
  omap (fun i =>
          match (pre ++ (Z.of_nat <$> b)) !! i with
          | Some orderIdx =>
              if bool_decide (orderIdx <> -1)
              then Some (mkAssignment i orderIdx (entry costMatrix i (Z.to_nat orderIdx)))
              else None
          | None => None
          end)
       (seq (length pre) (length b))
  = pairsFrom costMatrix (length pre) b.
Proof.
  revert pre. induction b as [|j b IH]; intros pre; [done|].
  rewrite fmap_cons. cbn [length seq omap list_omap pairsFrom].
  rewrite list_lookup_middle by done.
  rewrite bool_decide_eq_true_2 by lia.
  rewrite Nat2Z.id. f_equal.
  specialize (IH (pre ++ [Z.of_nat j])).
  rewrite length_app, Nat.add_1_r, <- app_assoc in IH. exact IH.
Qed.

Lemma totalCost_Permutation l l' : l ≡ₚ l' -> totalCost l = totalCost l'.
Proof.
  unfold totalCost. induction 1; simpl; lia.
Qed.

(** With enough targets the search ends on a complete assignment that no
    other complete assignment undercuts. *)
Lemma solveAssignment_best riderPositions orderPositions :
  (length riderPositions <= length orderPositions)%nat ->
  exists b,
    solveAssignment riderPositions orderPositions
    = pairsFrom (costMatrixOf riderPositions orderPositions) 0 b /\
    length b = length riderPositions /\ NoDup b /\
    (forall j, j ∈ b -> (j < length orderPositions)%nat) /\
    forall a, length a = length riderPositions -> NoDup a ->
              (forall j, j ∈ a -> (j < length orderPositions)%nat) ->
              assignmentCost (costMatrixOf riderPositions orderPositions) 0 b
              <= assignmentCost (costMatrixOf riderPositions orderPositions) 0 a.
Proof.
  intros Hnm. unfold solveAssignment.
  set (n := length riderPositions). set (m := length orderPositions).
  set (cm := costMatrixOf riderPositions orderPositions).
  set (st0 := mkAssign None [] ∅ (replicate n (-1))).
  destruct (backtrack_ok n m cm (entry_nonneg _ _) Hnm n 0 0 st0 [])
    as ((_ & _ & _ & Hbest) & _ & Hcover); [lia|lia| |done|].
  { split; [done|]. split; [apply length_replicate|]. split; [done|].
    split; [apply NoDup_nil_2|]. split; [|done]. intros j Hj. by apply elem_of_nil in Hj. }
  set (final := backtrack n n m cm 0 0 st0) in *.
  destruct (Hcover (seq 0 n)) as (d0 & Hd0 & _).
  { rewrite length_seq. lia. }
  { split; [apply NoDup_seq|]. intros j Hj. apply elem_of_seq in Hj.
    split; [lia|]. apply not_elem_of_empty. }
  unfold bestRecorded in Hbest. rewrite Hd0 in Hbest.
  destruct Hbest as (b & Hb & Hlen & Hnd & Hlt & Hcost).
  exists b. split; [|split; [done|split; [done|split; [done|]]]].
  - rewrite Hb, <- Hlen. apply (pairsFrom_read cm [] b).
  - intros a Ha Hnda Hlta.
    destruct (Hcover a) as (d1 & Hd1 & Hle).
    { rewrite Ha. lia. }
    { split; [done|]. intros j Hj. split; [by apply Hlta|apply not_elem_of_empty]. }
    rewrite Hd0 in Hd1. injection Hd1 as <-. rewrite <- Hcost. lia.
Qed.

(** A matching that covers the riders [k], [k + 1], ... in this order costs
    what its list of targets costs. *)
Lemma matching_cost costMatrix k l :
  riderIndex <$> l = seq k (length l) ->
  Forall (fun a => cost a = entry costMatrix (riderIndex a) (Z.to_nat (orderIndex a))) l ->
  totalCost l = assignmentCost costMatrix k ((Z.to_nat ∘ orderIndex) <$> l).
Proof.
  revert k. induction l as [|a l IH]; intros k Hr Hc; [done|].
  simpl in Hr. injection Hr as Hk Hr.
  apply Forall_cons in Hc as [Ha Hc].
  cbn [fmap list_fmap assignmentCost]. unfold totalCost in *. simpl.
  rewrite (IH (S k)) by done. rewrite Ha, Hk. done.
Qed.

(** With at least as many targets as riders, [solveAssignment] returns a valid
    matching that no valid matching undercuts. *)
Lemma solveAssignment_minimal riderPositions orderPositions :
  (length riderPositions <= length orderPositions)%nat ->
  validMatching riderPositions orderPositions
    (solveAssignment riderPositions orderPositions) /\
  forall l, validMatching riderPositions orderPositions l ->
            totalCost (solveAssignment riderPositions orderPositions) <= totalCost l.
Proof.
  intros Hnm.
  destruct (solveAssignment_best riderPositions orderPositions Hnm)
    as (b & -> & Hlen & Hnd & Hlt & Hmin).
  split.
  - split; [|split; [|split]].
    + assert (forall k, (k + length b <= length riderPositions)%nat ->
                Forall (fun a =>
                  (riderIndex a < length riderPositions)%nat /\
                  (0 <= orderIndex a < Z.of_nat (length orderPositions)) /\
                  cost a = entry (costMatrixOf riderPositions orderPositions)
                                 (riderIndex a) (Z.to_nat (orderIndex a)))
                  (pairsFrom (costMatrixOf riderPositions orderPositions) k b)) as H.
      { clear Hlen Hnd Hmin. induction b as [|j b IH]; intros k Hk; simpl; [done|].
        simpl in Hk. constructor.
        - simpl. split; [lia|]. rewrite Nat2Z.id. split; [|done].
          specialize (Hlt j (list_elem_of_here _ _)). lia.
        - apply IH; [|lia]. intros j' Hj'. apply Hlt. by right. }
      apply H. lia.
    + rewrite pairsFrom_riders. apply NoDup_seq.
    + rewrite pairsFrom_orders. apply NoDup_fmap_2; [|done]. intros x y. lia.
    + pose proof (f_equal length (pairsFrom_riders (costMatrixOf riderPositions orderPositions) 0 b)) as Hl.
      rewrite length_fmap, length_seq in Hl. lia.
  - intros l (Hall & Hr & Ho & Hl).
    rewrite Nat.min_l in Hl by done.
    assert (riderIndex <$> l ≡ₚ seq 0 (length riderPositions)) as Hperm.
    { apply submseteq_length_Permutation.
      - apply NoDup_submseteq; [done|]. intros x Hx.
        apply list_elem_of_fmap in Hx as (a & -> & Ha).
        rewrite Forall_forall in Hall. apply Hall in Ha. apply elem_of_seq. lia.
      - rewrite length_fmap, length_seq. lia. }
    symmetry in Hperm.
    apply Permutation_map_inv in Hperm as (l' & Hl' & Hperm).
    rewrite (totalCost_Permutation _ _ Hperm), pairsFrom_cost.
    assert (length l' = length riderPositions) as Hlen'.
    { by rewrite <- (Permutation_length Hperm). }
    rewrite (matching_cost (costMatrixOf riderPositions orderPositions) 0 l').
    + apply Hmin.
      * by rewrite length_fmap.
      * rewrite list_fmap_compose. apply NoDup_fmap_2_strong.
        -- intros x y Hx Hy Hxy.
           assert (forall z, z ∈ orderIndex <$> l' -> 0 <= z) as Hpos.
           { intros z Hz. apply list_elem_of_fmap in Hz as (a & -> & Ha).
             rewrite <- Hperm in Ha. rewrite Forall_forall in Hall.
             apply Hall in Ha. lia. }
           apply Hpos in Hx, Hy. lia.
        -- by rewrite <- Hperm.
      * intros j Hj. apply list_elem_of_fmap in Hj as (a & -> & Ha).
        rewrite <- Hperm in Ha. rewrite Forall_forall in Hall.
        apply Hall in Ha. simpl. lia.
    + rewrite Hlen'. symmetry. exact Hl'.
    + rewrite <- Hperm. eapply Forall_impl; [exact Hall|]. by intros a (_ & _ & ?).
Qed.

(** C2: when the riders do not outnumber the targets, [solveAssignment]
    returns a one-to-one matching of all riders whose total Manhattan cost
    is at most that of every valid one-to-one matching.  With more riders
    than targets this fails: with riders at (0,10) and (0,0) and one target
    at (0,0), [solveAssignment] gives the target to the first rider at cost
    10 and leaves the second rider, who stands on the target, without an
    assignment; matching the second rider instead is one-to-one and costs
    0. *)
Theorem solveAssignment_optimal_unless_riders_outnumber :
  (forall riderPositions orderPositions,
     (length riderPositions <= length orderPositions)%nat ->
     validMatching riderPositions orderPositions
       (solveAssignment riderPositions orderPositions) /\
     forall l, validMatching riderPositions orderPositions l ->
               totalCost (solveAssignment riderPositions orderPositions) <= totalCost l) /\
  (let riders := [mkPos 0 10; mkPos 0 0] in
   let targets := [mkPos 0 0] in
   solveAssignment riders targets = [mkAssignment 0 0 10] /\
   validMatching riders targets [mkAssignment 1 0 0] /\
   validMatching riders targets (solveAssignment riders targets) /\
   totalCost [mkAssignment 1 0 0] < totalCost (solveAssignment riders targets)).
Proof.
  split; [apply solveAssignment_minimal|].
  intros riders targets.
  assert (solveAssignment riders targets = [mkAssignment 0 0 10]) as ->
    by (vm_compute; reflexivity).
  split; [done|].
  split; [|split; [|by vm_compute]].
  - split; [|split; [|split]].
    + apply Forall_singleton. simpl. split; [lia|]. split; [lia|]. by vm_compute.
    + simpl. apply NoDup_singleton.
    + simpl. apply NoDup_singleton.
    + by vm_compute.
  - split; [|split; [|split]].
    + apply Forall_singleton. simpl. split; [lia|]. split; [lia|]. by vm_compute.
    + simpl. apply NoDup_singleton.
    + simpl. apply NoDup_singleton.
    + by vm_compute.
Qed.

Lemma solveAssignment_optimal_witness :
  let riders := [mkPos 0 0; mkPos 3 3] in
  let targets := [mkPos 3 4; mkPos 0 1; mkPos 9 9] in
  validMatching riders targets (solveAssignment riders targets) /\
  forall l, validMatching riders targets l ->
            totalCost (solveAssignment riders targets) <= totalCost l.
Proof.
  intros riders targets.
  apply (proj1 solveAssignment_optimal_unless_riders_outnumber riders targets).
  simpl. lia.
Defined.

End AlgorithmsFacts.

(** * Properties of the simulation *)

Module AppFacts.
Import Pathfinding Algorithms AlgSpec App NumberSpec AppSpec FoldFacts NumberFacts.

(** ** Movement *)





Lemma movementTick_moving rd :
  Rider.pathQueue rd <> [] -> movementTick rd = movedRider rd (move rd ∅).
Proof. unfold movementTick. by destruct (Rider.pathQueue rd). Qed.











(** The rider returned by the tick does not depend on the trail that the
    movement loop extends. *)
Lemma moveLoop_trace acc here queue steps tr tr' :
  newAccumulator (moveLoop acc here queue steps tr)
    = newAccumulator (moveLoop acc here queue steps tr') /\
  currentPos (moveLoop acc here queue steps tr)
    = currentPos (moveLoop acc here queue steps tr') /\
  currentPath (moveLoop acc here queue steps tr)
    = currentPath (moveLoop acc here queue steps tr') /\
  stepsMoved (moveLoop acc here queue steps tr)
    = stepsMoved (moveLoop acc here queue steps tr').
Proof.
  revert acc here steps tr tr'.
  induction queue as [|p queue IH]; intros acc here steps tr tr'; simpl; [done|].
  destruct (1 <=? acc)%float; [apply IH|done].
Qed.

Lemma movedRider_trace rider tr :
  movedRider rider (move rider tr) = movementTick rider \/ Rider.pathQueue rider = [].
Proof.
  destruct (Rider.pathQueue rider) as [|p q] eqn:E; [by right|]. left.
  rewrite movementTick_moving by (rewrite E; done).
  unfold movedRider, move.
  destruct (moveLoop_trace (Rider.movementAccumulator rider + Rider.speed rider)
              (Rider.pos rider) (Rider.pathQueue rider) 0 tr ∅) as (-> & -> & -> & ->).
  done.
Qed.

(** A rider with cells in its queue is processed by the movement rule and
    by nothing else. *)
Lemma riderStep_moving hotels homes walls algorithm now rider st :
  Rider.pathQueue rider <> [] ->
  exists st',
    riderStep hotels homes walls algorithm now rider st
    = Some (movementTick rider, st').
Proof.
  intros Hne. unfold riderStep.
  destruct (movedRider_trace rider (nextPathTrace st)) as [<-|E]; [|done].
  destruct (Rider.pathQueue rider); [done|]. eauto.
Qed.



(** ** Batching in [createOrder] *)

Section Batching.
Context (w : World) (hotelId : string) (home : Entity.t).

Lemma considerOrder_mono rider bs o d :
  atMost (minDetour bs) d ->
  atMost (minDetour (considerOrder (homes w) home rider bs o)) d.
Proof.
  intros (d0 & Hm & Hle). unfold considerOrder.
  destruct (List.find _ _) as [h|]; [|by exists d0].
  destruct (_ <=? _); simpl; [|by exists d0].
  rewrite Hm. simpl. destruct (_ <? d0) eqn:E; [|by exists d0].
  apply Z.ltb_lt in E. eexists. split; [done|lia].
Qed.

Lemma considerOrder_covers rider bs o h :
  List.find (byId (Order.homeId o)) (homes w) = Some h ->
  getManhattanDistance (Entity.pos h) (Entity.pos home) <= BATCH_DISTANCE_THRESHOLD ->
  atMost (minDetour (considerOrder (homes w) home rider bs o))
         (getManhattanDistance (Entity.pos h) (Entity.pos home)).
Proof.
  intros Hh Hd. unfold considerOrder. rewrite Hh.
  apply Z.leb_le in Hd. rewrite Hd. simpl.
  destruct (minDetour bs) as [d0|] eqn:Hm; simpl.
  - destruct (_ <? d0) eqn:E; simpl.
    + eexists. split; [done|lia].
    + apply Z.ltb_ge in E. exists d0. by rewrite Hm.
  - eexists. split; [done|lia].
Qed.

Lemma considerOrder_recorded rider bs o :
  rider ∈ riders w -> isActiveFor hotelId rider = true ->
  o ∈ orders w -> Order.id o ∈ Rider.assignedOrderIds rider ->
  recorded w hotelId home bs ->
  recorded w hotelId home (considerOrder (homes w) home rider bs o).
Proof.
  intros Hr Ha Ho Hid Hbs. unfold considerOrder.
  destruct (List.find _ _) as [h|] eqn:Hh; [|done].
  destruct (_ <=? _) eqn:Hd; simpl; [|done].
  destruct (ltInf _ _); [|done].
  unfold recorded; simpl. apply Z.leb_le in Hd.
  split; [done|]. split; [done|]. exists o, h. done.
Qed.

Lemma considerRider_mono bs rider d :
  atMost (minDetour bs) d ->
  atMost (minDetour (considerRider (orders w) (homes w) home bs rider)) d.
Proof.
  intros H. unfold considerRider.
  apply (foldl_inv (fun s => atMost (minDetour s) d)); [done|].
  intros s o _. apply considerOrder_mono.
Qed.

Lemma considerRider_covers bs rider d :
  candidate w hotelId home rider d ->
  atMost (minDetour (considerRider (orders w) (homes w) home bs rider)) d.
Proof.
  intros (_ & _ & o & h & Ho & Hid & Hh & -> & Hd). unfold considerRider.
  apply (foldl_reach (fun s => atMost (minDetour s) _) _ _ _ o).
  - by apply list_elem_of_filter.
  - intros s. by apply considerOrder_covers.
  - intros s y. apply considerOrder_mono.
Qed.

Lemma considerRider_recorded bs rider :
  rider ∈ riders w -> isActiveFor hotelId rider = true ->
  recorded w hotelId home bs ->
  recorded w hotelId home (considerRider (orders w) (homes w) home bs rider).
Proof.
  intros Hr Ha Hbs. unfold considerRider.
  apply (foldl_inv (recorded w hotelId home)); [done|].
  intros s o Ho. apply list_elem_of_filter in Ho as [Hid Ho].
  by apply considerOrder_recorded.
Qed.

Lemma elem_of_List_filter {A} (p : A -> bool) (l : list A) x :
  x ∈ List.filter p l <-> x ∈ l /\ p x = true.
Proof. rewrite !list_elem_of_In. apply filter_In. Qed.

(** The search ends on a candidate at the least distance of a candidate,
    provided that there is one. *)
Lemma batch_search rider d :
  candidate w hotelId home rider d ->
  exists best dmin,
    bestRider (foldl (considerRider (orders w) (homes w) home) (mkBatch None None)
                     (List.filter (isActiveFor hotelId) (riders w))) = Some best /\
    minDetour (foldl (considerRider (orders w) (homes w) home) (mkBatch None None)
                     (List.filter (isActiveFor hotelId) (riders w))) = Some dmin /\
    candidate w hotelId home best dmin /\
    (forall rider' d', candidate w hotelId home rider' d' -> dmin <= d').
Proof.
  intros Hq.
  set (search := foldl _ _ _).
  assert (forall rider' d', candidate w hotelId home rider' d' ->
                            atMost (minDetour search) d') as Hcov.
  { intros rider' d' Hq'. unfold search.
    apply (foldl_reach (fun s => atMost (minDetour s) d') _ _ _ rider').
    - apply elem_of_List_filter. destruct Hq' as (? & ? & _). done.
    - intros s. by apply considerRider_covers.
    - intros s y. apply considerRider_mono. }
  assert (recorded w hotelId home search) as Hrec.
  { unfold search. apply (foldl_inv (recorded w hotelId home)); [done|].
    intros s x Hx. apply elem_of_List_filter in Hx as [Hx Ha].
    by apply considerRider_recorded. }
  destruct (Hcov _ _ Hq) as (dmin & Hmin & _).
  unfold recorded in Hrec. rewrite Hmin in Hrec.
  destruct (bestRider search) as [best|] eqn:Hbest; [|done].
  exists best, dmin. split; [done|]. split; [done|]. split; [done|].
  intros rider' d' Hq'. destruct (Hcov _ _ Hq') as (d0 & Hd0 & Hle). congruence.
Qed.

End Batching.

Lemma isActiveFor_spec hotelId x :
  isActiveFor hotelId x = true <->
  (Rider.status x = MOVING_TO_HOTEL \/ Rider.status x = WAITING_FOR_FOOD) /\
  Rider.targetEntityId x = Some hotelId.
Proof.
  unfold isActiveFor. by rewrite andb_true_iff, orb_true_iff, !bool_decide_eq_true.
Qed.

(** The riders that qualify are those the loops of [createOrder] can
    record: the threshold of the code is 8. *)
Lemma qualifies_candidate w hotelId home rider d :
  qualifies w hotelId home rider d <-> candidate w hotelId home rider d.
Proof.
  unfold qualifies, candidate. rewrite isActiveFor_spec. split.
  - intros (? & ? & ? & o & h & ? & ? & ? & ? & ?).
    split; [done|]. split; [done|]. by exists o, h.
  - intros (? & [? ?] & o & h & ? & ? & ? & ? & ?).
    split; [done|]. split; [done|]. split; [done|]. by exists o, h.
Qed.

Lemma search_recorded w hotelId home :
  recorded w hotelId home
    (foldl (considerRider (orders w) (homes w) home) (mkBatch None None)
           (List.filter (isActiveFor hotelId) (riders w))).
Proof.
  apply (foldl_inv (recorded w hotelId home)); [done|].
  intros s x Hx. apply elem_of_List_filter in Hx as [Hx Ha].
  by apply considerRider_recorded.
Qed.

Lemma batched_update newOrderId bestId l :
  Forall2 (batched newOrderId bestId) l
    (updateById bestId
       (fun x => setColor COLORS.RIDER_BUSY (appendOrderId newOrderId x)) l).
Proof.
  unfold updateById. apply Forall2_fmap_r, Forall_Forall2_diag, Forall_forall.
  intros x _. unfold riderById, batched, compose.
  destruct (decide (Rider.id x = bestId)) as [E|E].
  - rewrite bool_decide_eq_true_2 by done. by repeat split.
  - rewrite bool_decide_eq_false_2 by done. by repeat split.
Qed.

Lemma dispatched_update hotelId newOrderId pathToHotel chosenId l :
  Forall2 (fun x x' : Rider.t =>
             Rider.assignedOrderIds x' = Rider.assignedOrderIds x \/
             Rider.assignedOrderIds x' = [newOrderId])
          l (updateById chosenId (dispatched hotelId newOrderId pathToHotel) l).
Proof.
  unfold updateById. apply Forall2_fmap_r, Forall_Forall2_diag, Forall_forall.
  intros x _. unfold compose. destruct (riderById chosenId x); [by right|by left].
Qed.

(** C7: when some rider heading for or waiting at the order's hotel already
    serves a home within Manhattan distance 8 of the new home, [createOrder]
    picks such a rider at the least such distance, appends the id of the new
    order to the assigned orders of the riders that carry its id, stores the
    new order, COOKING, under that rider id, and changes no rider's place,
    status, queue or target: no idle rider is dispatched, whether there is
    one or not.  The bound is 8 and no more: when no rider qualifies and an
    idle rider exists, no rider has the order appended to the orders it is
    already carrying (a rider's assigned orders stay as they are, or become
    the new order alone, by a fresh dispatch). *)
Theorem createOrder_batches solve homeId hotelId newOrderId stamp w home hotel :
  List.find (byId homeId) (homes w) = Some home ->
  List.find (byId hotelId) (hotels w) = Some hotel ->
  (forall rider d,
     qualifies w hotelId home rider d ->
     exists best dmin,
       qualifies w hotelId home best dmin /\
       (forall rider' d', qualifies w hotelId home rider' d' -> dmin <= d') /\
       Forall2 (batched newOrderId (Rider.id best)) (riders w)
               (riders (createOrder solve homeId hotelId newOrderId stamp w)) /\
       exists o,
         orders (createOrder solve homeId hotelId newOrderId stamp w) = orders w ++ [o] /\
         Order.id o = newOrderId /\ Order.riderId o = Some (Rider.id best) /\
         Order.homeId o = homeId /\ Order.hotelId o = hotelId /\
         Order.status o = COOKING) /\
  ((forall rider d, ~ qualifies w hotelId home rider d) ->
   (exists x, x ∈ riders w /\ Rider.status x = IDLE) ->
   Forall2 (fun x x' : Rider.t =>
              Rider.assignedOrderIds x' = Rider.assignedOrderIds x \/
              Rider.assignedOrderIds x' = [newOrderId])
           (riders w) (riders (createOrder solve homeId hotelId newOrderId stamp w))).
Proof.
  intros Hhome Hhotel. split.
  - intros rider d Hq. apply qualifies_candidate in Hq.
    destruct (batch_search w hotelId home rider d Hq)
      as (best & dmin & Hb & Hm & Hbq & Hmin).
    exists best, dmin. split; [by apply qualifies_candidate|]. split.
    { intros rider' d' Hq'. apply (Hmin rider'). by apply qualifies_candidate. }
    unfold createOrder. rewrite Hhome, Hhotel. cbv zeta. rewrite Hb. simpl.
    split; [apply batched_update|]. eexists. split; [done|]. done.
  - intros Hnone (x & Hx & Hidle).
    pose proof (search_recorded w hotelId home) as Hrec.
    unfold createOrder. rewrite Hhome, Hhotel. cbv zeta.
    unfold recorded in Hrec.
    destruct (bestRider _) as [best|].
    { exfalso. destruct (minDetour _) as [d|]; [|done].
      apply (Hnone best d). by apply qualifies_candidate. }
    assert (forall l : list Rider.t,
              Forall2 (fun x x' : Rider.t =>
                         Rider.assignedOrderIds x' = Rider.assignedOrderIds x \/
                         Rider.assignedOrderIds x' = [newOrderId]) l l) as Hrefl.
    { intros l. apply Forall_Forall2_diag, Forall_forall. intros; by left. }
    destruct (List.filter isIdle (riders w)) as [|idle0 idle] eqn:Hf.
    { exfalso. assert (x ∈ List.filter isIdle (riders w)) as Hin.
      { apply elem_of_List_filter. split; [done|]. unfold isIdle.
        by apply bool_decide_eq_true. }
      rewrite Hf in Hin. by apply elem_of_nil in Hin. }
    destruct (if fairnessMode w then _ else _) as [chosenRider|]; [|apply Hrefl].
    destruct (findPath _ _ _ _) as [pathToHotel|]; simpl; [|apply Hrefl].
    apply dispatched_update.
Qed.

Lemma createOrder_batches_witness :
  let busy := Rider.mk "r1" RIDER (mkPos 0 3) "R1" COLORS.RIDER_BUSY MOVING_TO_HOTEL
                [mkPos 0 4; mkPos 0 5] ["o1"] (Some "h1") 1 0 0 0 0 None in
  let idle := Rider.mk "r2" RIDER (mkPos 1 5) "R2" COLORS.RIDER_IDLE IDLE
                [] [] None 1 0 0 0 0 None in
  let w := mkWorld [busy; idle]
             [freshOrder "o1" "d1" "h1" "12:00:00"]
             [Entity.mk "h1" HOTEL (mkPos 0 5) "H1" ""]
             [Entity.mk "d1" HOME (mkPos 9 9) "C1" ""; Entity.mk "d2" HOME (mkPos 9 12) "C2" ""]
             ∅ DIJKSTRA SANDBOX false 50 ∅ 0 "" 0 in
  exists best dmin,
    qualifies w "h1" (Entity.mk "d2" HOME (mkPos 9 12) "C2" "") best dmin /\
    (forall rider' d', qualifies w "h1" (Entity.mk "d2" HOME (mkPos 9 12) "C2" "") rider' d'
                       -> dmin <= d') /\
    Forall2 (batched "o2" (Rider.id best)) (riders w)
            (riders (createOrder noFair "d2" "h1" "o2" "12:00:05" w)) /\
    exists o,
      orders (createOrder noFair "d2" "h1" "o2" "12:00:05" w) = orders w ++ [o] /\
      Order.id o = "o2" /\ Order.riderId o = Some (Rider.id best) /\
      Order.homeId o = "d2" /\ Order.hotelId o = "h1" /\ Order.status o = COOKING.
Proof.
  intros busy idle w.
  apply (proj1 (createOrder_batches noFair "d2" "h1" "o2" "12:00:05" w
                  (Entity.mk "d2" HOME (mkPos 9 12) "C2" "")
                  (Entity.mk "h1" HOTEL (mkPos 0 5) "H1" "") eq_refl eq_refl) busy 3).
  split; [by left|]. split; [by left|]. split; [reflexivity|].
  exists (freshOrder "o1" "d1" "h1" "12:00:00"), (Entity.mk "d1" HOME (mkPos 9 9) "C1" "").
  split; [by left|]. split; [by left|]. split; [reflexivity|]. split; [reflexivity|].
  discriminate.
Defined.

(** C4, what the code does: when the nearest idle rider is chosen and the
    pathfinder finds no path to the hotel, [createOrder] only sets the
    status message; the riders are unchanged and so is the order
    collection, which therefore does not receive the new order. *)
Theorem createOrder_unroutable solve homeId hotelId newOrderId stamp w
    home hotel chosenRider :
  List.find (byId homeId) (homes w) = Some home ->
  List.find (byId hotelId) (hotels w) = Some hotel ->
  List.filter (isActiveFor hotelId) (riders w) = [] ->
  fairnessMode w = false ->
  head (sortBy (byDistanceTo (Entity.pos hotel)) (List.filter isIdle (riders w)))
    = Some chosenRider ->
  findPath (Rider.pos chosenRider) (Entity.pos hotel) (walls w) (algorithm w) = None ->
  riders (createOrder solve homeId hotelId newOrderId stamp w) = riders w /\
  orders (createOrder solve homeId hotelId newOrderId stamp w) = orders w /\
  statusMessage (createOrder solve homeId hotelId newOrderId stamp w)
  = "Error: " +:+ Rider.label chosenRider +:+ " cannot reach " +:+ Entity.label hotel.
Proof.
  intros Hhome Hhotel Hact Hfair Hchosen Hpath.
  unfold createOrder. rewrite Hhome, Hhotel. cbv zeta. rewrite Hact. simpl.
  rewrite Hfair.
  destruct (List.filter isIdle (riders w)) as [|x idle] eqn:Hidle; [done|].
  rewrite Hchosen, Hpath. done.
Qed.

Lemma createOrder_unroutable_witness :
  let w := mkWorld
             [Rider.mk "r1" RIDER (mkPos 0 0) "R1" COLORS.RIDER_IDLE IDLE
                [] [] None 1 0 0 0 0 None]
             []
             [Entity.mk "h1" HOTEL (mkPos 5 5) "H1" ""]
             [Entity.mk "d1" HOME (mkPos 9 9) "C1" ""]
             {[ "0,1"; "1,0" ]} DIJKSTRA SANDBOX false 50 ∅ 0 "" 0 in
  riders (createOrder noFair "d1" "h1" "o1" "12:00:00" w) = riders w /\
  orders (createOrder noFair "d1" "h1" "o1" "12:00:00" w) = [] /\
  statusMessage (createOrder noFair "d1" "h1" "o1" "12:00:00" w)
  = "Error: R1 cannot reach H1".
Proof.
  intros w.
  apply (createOrder_unroutable noFair "d1" "h1" "o1" "12:00:00" w
           (Entity.mk "d1" HOME (mkPos 9 9) "C1" "")
           (Entity.mk "h1" HOTEL (mkPos 5 5) "H1" "")
           (Rider.mk "r1" RIDER (mkPos 0 0) "R1" COLORS.RIDER_IDLE IDLE
              [] [] None 1 0 0 0 0 None));
    vm_compute; reflexivity.
Defined.

(** ** Order status *)

Lemma follows_init old :
  follows old (mkTick (cookOrder <$> old) (existsb cookingChanges old)
                      false false ∅ 0 None).
Proof.
  split; [done|]. intros i o Hi. simpl.
  exists (cookOrder o). rewrite list_lookup_fmap, Hi. split; [done|].
  unfold cookOrder, ticked, cooked.
  destruct (bool_decide (Order.status o = COOKING)) eqn:E; simpl.
  - apply bool_decide_eq_true in E. rewrite E. repeat split. simpl. lia.
  - done.
Qed.

Lemma follows_ext old st st' :
  nextOrders st' = nextOrders st ->
  (ordersSet st = true -> ordersSet st' = true) ->
  follows old st -> follows old st'.
Proof.
  intros Hn Hs [H1 H2]. split; [auto|]. rewrite Hn. done.
Qed.

Lemma follows_alter old st f idx :
  (forall o e, ticked o e.1 -> ticked o (f e).1) ->
  follows old st ->
  follows old (setNextOrders (alter f idx (nextOrders st)) st).
Proof.
  intros Hf [H1 H2]. split; [done|]. intros i o Hi. simpl.
  destruct (H2 i o Hi) as (e & He & Ht).
  destruct (decide (i = idx)) as [->|Hne].
  - exists (f e). split; [|by apply Hf].
    rewrite list_lookup_alter_eq. by rewrite He.
  - exists e. split; [|done]. by rewrite list_lookup_alter_ne.
Qed.

Lemma follows_app old st more :
  follows old st -> follows old (setNextOrders (nextOrders st ++ more) st).
Proof.
  intros [H1 H2]. split; [done|]. intros i o Hi. simpl.
  destruct (H2 i o Hi) as (e & He & Ht). exists e. split; [|done].
  by apply lookup_app_l_Some.
Qed.

Lemma stampPickup_follows old now orderId st :
  follows old st -> follows old (stampPickup now orderId st).
Proof.
  intros H. unfold stampPickup. destruct (findIndex _ _); [|done].
  apply follows_alter; [|done]. intros o [e b]. done.
Qed.

Lemma waitingAtHotel_follows old homes walls algorithm now rider st rider' st' :
  waitingAtHotel homes walls algorithm now rider st = Some (rider', st') ->
  follows old st -> follows old st'.
Proof.
  unfold waitingAtHotel. intros H Hst.
  destruct (_ && _); [|by inversion H; subst].
  destruct (mapM _ _) as [targets|]; [|done].
  destruct (nearestRoute _ _ _ _ _ _ _) as [calculatedPath calculatedQueue].
  inversion H; subst; clear H.
  match goal with
  | |- follows _ (markRidersChanged ?s) => apply (follows_ext old s); [done|done|]
  end.
  apply (foldl_inv (follows old)); [done|].
  intros s o _. apply stampPickup_follows.
Qed.

Lemma deliveredCopy_ticked hotels homes now o e :
  ticked o e -> ticked o (deliveredCopy hotels homes now e).
Proof.
  intros (Hid & Hr & Ht). unfold deliveredCopy.
  set (o2 := if truthy _ then _ else _).
  assert (ticked o o2) as (Hid2 & Hr2 & Ht2).
  { unfold o2. destruct (truthy _); simpl; repeat split; try done;
      destruct (Order.status o); simpl; lia. }
  destruct (List.find _ hotels); [|done].
  destruct (List.find _ homes); done.
Qed.

Lemma delivering_follows old hotels homes walls algorithm now rider st :
  follows old st ->
  follows old (delivering hotels homes walls algorithm now rider st).2.
Proof.
  intros Hst. unfold delivering.
  set (first := match List.find _ _ with Some _ => _ | None => _ end).
  assert (follows old first.2) as Hfirst.
  { unfold first. destruct (List.find _ _); [|done].
    destruct (findIndex _ _); [|done]. simpl.
    eapply follows_ext; [| |apply follows_alter; [|exact Hst]]; [done|done|].
    intros o [e b]. apply deliveredCopy_ticked. }
  destruct first as [rider1 st1]. simpl in Hfirst.
  destruct (existsb _ _); [done|].
  assert (follows old (markRidersChanged st1)) as Hm by by apply (follows_ext old st1).
  destruct (match _ ≫= _ with Some h => Some h | None => _ end); [|done].
  destruct (findPath _ _ _ _); done.
Qed.

Lemma riderStep_follows old hotels homes walls algorithm now rider st rider' st' :
  riderStep hotels homes walls algorithm now rider st = Some (rider', st') ->
  follows old st -> follows old st'.
Proof.
  unfold riderStep. intros H Hst.
  destruct (Rider.pathQueue rider).
  - destruct (Rider.status rider).
    + by inversion H; subst.
    + inversion H; subst. by apply (follows_ext old st).
    + by eapply waitingAtHotel_follows.
    + injection H as H. pose proof (f_equal snd H) as Hs. simpl in Hs.
      rewrite <- Hs. by apply delivering_follows.
    + inversion H; subst. by apply (follows_ext old st).
  - inversion H; subst. by apply (follows_ext old st).
Qed.

Lemma mapRiders_follows old step rs st :
  (forall rider s rider' s',
     step rider s = Some (rider', s') -> follows old s -> follows old s') ->
  follows old st -> follows old (mapRiders step rs st).2.
Proof.
  intros Hstep. revert st. induction rs as [|rider rs IH]; intros st Hst; simpl; [done|].
  destruct (step rider st) as [[rider' st']|] eqn:E; [|done].
  specialize (IH st' (Hstep _ _ _ _ E Hst)).
  destruct (mapRiders step rs st') as [out st'']. done.
Qed.

Section Solver.
Variable solve : list Rider.t -> list Position -> Z -> list AssignmentResult.

Lemma dispatchPending_follows old fair hotels walls algorithm acc i :
  follows old acc.2 ->
  follows old (dispatchPending fair hotels walls algorithm acc i).2.
Proof.
  destruct acc as [nextRiders st]. simpl. intros Hst. unfold dispatchPending.
  destruct (nextOrders st !! i) as [[order shared]|] eqn:Hi; [|done].
  destruct (List.filter isIdle nextRiders); [done|].
  destruct (List.find _ hotels); [|done].
  destruct (if fair then _ else _); [|done].
  destruct (findIndex _ _); [|done].
  destruct (findPath _ _ _ _); [|done]. simpl.
  destruct Hst as [H1 H2]. split; [done|]. intros j o Hj. simpl.
  destruct (H2 j o Hj) as (e & He & Ht).
  destruct (decide (j = i)) as [->|Hne].
  - rewrite list_lookup_insert_eq by by eapply lookup_lt_Some.
    eexists. split; [done|]. simpl. rewrite Hi in He. by inversion He; subst.
  - rewrite list_lookup_insert_ne by done. eauto.
Qed.

Lemma dispatchAllPending_follows old fair hotels walls algorithm nextRiders st :
  follows old st ->
  follows old (dispatchAllPending fair hotels walls algorithm nextRiders st).2.
Proof.
  intros Hst. unfold dispatchAllPending.
  destruct (pendingIndices _); [done|]. destruct (List.filter _ _); [done|].
  apply (foldl_inv (fun a => follows old a.2)); [done|].
  intros s j _. apply dispatchPending_follows.
Qed.

Lemma syncRider_follows old acc ur :
  follows old acc.2 -> follows old (syncRider acc ur).2.
Proof.
  destruct acc as [nextRiders st]. simpl. intros Hst. unfold syncRider.
  destruct (findIndex _ _); [|done]. destruct (nextRiders !! _); [|done].
  destruct (bool_decide _); [|done]. simpl. by apply (follows_ext old st).
Qed.

(** The orders stored by the tick. *)
Lemma commitOrders_ticked old st i o :
  follows old st -> old !! i = Some o ->
  exists o', commitOrders old st !! i = Some o' /\ ticked o o'.
Proof.
  intros [H1 H2] Hi. destruct (H2 i o Hi) as (e & He & Ht).
  unfold commitOrders. destruct (ordersSet st) eqn:Hset.
  - exists e.1. split; [|done]. unfold currentOrders.
    by rewrite list_lookup_fmap, He.
  - rewrite lookup_zip_with, Hi, He. simpl.
    destruct e as [o' [|]]; simpl in *; [by exists o'|].
    exists o. split; [done|]. split; [done|]. split; [lia|]. unfold cooked.
    destruct (bool_decide (Order.status o = COOKING)) eqn:Ec; [|done].
    destruct (existsb cookingChanges old) eqn:Ex; [specialize (H1 eq_refl); congruence|].
    assert (cookingChanges o = false) as Hc.
    { destruct (cookingChanges o) eqn:Hc; [|done].
      assert (existsb cookingChanges old = true); [|congruence].
      apply existsb_exists. exists o. split; [|done].
      apply list_elem_of_In. by eapply list_elem_of_lookup_2. }
    unfold cookingChanges in Hc. rewrite Ec in Hc. simpl in Hc.
    apply negb_false_iff, Z.eqb_eq in Hc. done.
Qed.

Lemma tick_follows captured now gen w :
  exists st, follows (orders w) st /\
    orders (handleSimulationTick solve captured now gen w) = commitOrders (orders w) st.
Proof.
  unfold handleSimulationTick.
  set (st0 := mkTick _ _ _ _ _ _ _).
  assert (follows (orders w) st0) as H0.
  { eapply follows_ext; [| |apply (follows_init (orders w))]; done. }
  pose proof (mapRiders_follows (orders w)
                (riderStep (hotels w) (homes w) (walls w) (algorithm w) now)
                (riders w) st0) as Hmap.
  destruct (mapRiders _ _ st0) as [[nextRiders1|] st1]; simpl in Hmap.
  2:{ exists st1. split; [|done]. apply Hmap; [|done].
      intros. by eapply riderStep_follows. }
  assert (follows (orders w) st1) as H1.
  { apply Hmap; [|done]. intros. by eapply riderStep_follows. }
  pose proof (dispatchAllPending_follows (orders w) (fairnessMode captured) (hotels w)
                (walls w) (algorithm w) nextRiders1 st1 H1) as H2.
  destruct (dispatchAllPending _ _ _ _ _ _) as [nextRiders2 st2]. simpl in H2.
  destruct (_ && _); [|by exists st2].
  destruct (generateRandomOrders _ _ _ _) as [[newOrders updatedRiders]|]; [|by exists st2].
  destruct newOrders as [|n0 newOrders]; [by exists st2|].
  set (st3 := setNextOrders _ st2).
  assert (follows (orders w) st3) as H3 by by apply follows_app.
  pose proof (foldl_inv (fun a => follows (orders w) a.2) syncRider updatedRiders
                (nextRiders2, st3) H3) as H4.
  destruct (foldl syncRider _ _) as [nextRiders4 st4]. simpl in H4.
  exists st4. split; [|done]. apply H4. intros s ur _. apply syncRider_follows.
Qed.

Lemma tick_ticked captured now gen w i o :
  orders w !! i = Some o ->
  exists o', orders (handleSimulationTick solve captured now gen w) !! i = Some o'
             /\ ticked o o'.
Proof.
  intros Hi. destruct (tick_follows captured now gen w) as (st & Hst & ->).
  by eapply commitOrders_ticked.
Qed.

Lemma createOrder_prefix homeId hotelId newOrderId stamp w :
  exists more, orders (createOrder solve homeId hotelId newOrderId stamp w)
               = orders w ++ more.
Proof.
  unfold createOrder.
  destruct (List.find _ (homes w)); [|by exists []; rewrite app_nil_r].
  destruct (List.find _ (hotels w)); [|by exists []; rewrite app_nil_r].
  cbv zeta. destruct (bestRider _); [by eexists|].
  destruct (List.filter isIdle _).
  - destruct (List.filter _ _); by eexists.
  - destruct (if fairnessMode w then _ else _); [|by exists []; rewrite app_nil_r].
    destruct (findPath _ _ _ _); [by eexists|]. exists []. by rewrite app_nil_r.
Qed.

Lemma burst_prefix inputs w :
  exists more, orders (handleBurstOrders solve inputs w) = orders w ++ more.
Proof.
  unfold handleBurstOrders.
  destruct (generateRandomOrders _ _ _ _) as [[newOrders updatedRiders]|];
    [|by exists []; rewrite app_nil_r].
  destruct newOrders; [exists []; by rewrite app_nil_r|by eexists].
Qed.

Lemma step_advanced w op i o :
  orders w !! i = Some o ->
  exists o', orders (step solve w op) !! i = Some o' /\ advanced o o'.
Proof.
  intros Hi. destruct op as [captured now gen|homeId hotelId newOrderId stamp|inputs]; simpl.
  - destruct (tick_ticked captured now gen w i o Hi) as (o' & Ho' & Hid & Hr & _).
    exists o'. done.
  - destruct (createOrder_prefix homeId hotelId newOrderId stamp w) as [more ->].
    exists o. split; [by apply lookup_app_l_Some|done].
  - destruct (burst_prefix inputs w) as [more ->].
    exists o. split; [by apply lookup_app_l_Some|done].
Qed.

Lemma runOps_advanced ops w i o :
  orders w !! i = Some o ->
  exists o', orders (runOps solve ops w) !! i = Some o' /\ advanced o o'.
Proof.
  revert w o. induction ops as [|op ops IH]; intros w o Hi; simpl.
  - exists o. done.
  - destruct (step_advanced w op i o Hi) as (o1 & H1 & Hid1 & Hr1).
    destruct (IH _ _ H1) as (o2 & H2 & Hid2 & Hr2).
    exists o2. split; [done|]. split; [congruence|lia].
Qed.

End Solver.

(** C8: along any sequence of ticks, order creations and bursts, the
    order at a given index keeps its id and its status never moves
    backwards along COOKING, READY, DELIVERED; a tick lowers the timer of
    a COOKING order by [DELAY_MS], stopping at zero, and leaves the timer of
    any other order alone. *)
Theorem order_status_monotone solve ops1 ops2 w i o :
  orders (runOps solve ops1 w) !! i = Some o ->
  (exists o', orders (runOps solve (ops1 ++ ops2) w) !! i = Some o' /\
              Order.id o' = Order.id o /\
              (rank (Order.status o) <= rank (Order.status o'))%nat) /\
  (forall captured now gen,
     exists o', orders (runOps solve (ops1 ++ [Tick captured now gen]) w) !! i = Some o' /\
       (Order.status o = COOKING ->
        Order.cookingTimeRemainingMs o'
        = Z.max 0 (Order.cookingTimeRemainingMs o - DELAY_MS)) /\
       (Order.status o <> COOKING ->
        Order.cookingTimeRemainingMs o' = Order.cookingTimeRemainingMs o)).
Proof.
  intros Hi. split.
  - unfold runOps. rewrite foldl_app. by apply runOps_advanced.
  - intros captured now gen. unfold runOps. rewrite foldl_app. simpl.
    destruct (tick_ticked solve captured now gen _ i o Hi) as (o' & Ho' & _ & _ & Ht).
    exists o'. split; [done|]. unfold cooked in Ht.
    split; intros Hs; rewrite Ht.
    + by rewrite bool_decide_eq_true_2.
    + by rewrite bool_decide_eq_false_2.
Qed.

Lemma order_status_monotone_witness :
  let w := mkWorld
             [Rider.mk "r1" RIDER (mkPos 0 0) "R1" COLORS.RIDER_IDLE IDLE
                [] [] None 1 0 0 0 0 None]
             []
             [Entity.mk "h1" HOTEL (mkPos 0 2) "H1" ""]
             [Entity.mk "d1" HOME (mkPos 0 4) "C1" ""]
             ∅ DIJKSTRA SANDBOX false 50 ∅ 0 "" 0 in
  let tick := Tick w 1000 (mkGen "u" "12:00:01" 0) in
  let ops1 := [Create "d1" "h1" "o1" "12:00:00"; tick] in
  let ops2 := [tick; tick; tick] in
  let o := setCookingTime 14950
             (setRiderId (Some "r1") (freshOrder "o1" "d1" "h1" "12:00:00")) in
  (exists o', orders (runOps noFair (ops1 ++ ops2) w) !! 0%nat = Some o' /\
              Order.id o' = Order.id o /\
              (rank (Order.status o) <= rank (Order.status o'))%nat) /\
  (forall captured now gen,
     exists o', orders (runOps noFair (ops1 ++ [Tick captured now gen]) w) !! 0%nat
                = Some o' /\
       (Order.status o = COOKING ->
        Order.cookingTimeRemainingMs o'
        = Z.max 0 (Order.cookingTimeRemainingMs o - DELAY_MS)) /\
       (Order.status o <> COOKING ->
        Order.cookingTimeRemainingMs o' = Order.cookingTimeRemainingMs o)).
Proof.
  intros w tick ops1 ops2 o.
  apply (order_status_monotone noFair ops1 ops2 w 0 o).
  vm_compute; reflexivity.
Defined.

End AppFacts.

Module SearchFacts.
Import Pathfinding PathSpec SearchSpec FoldFacts PathfindingFacts.

(** ** Induction principles for the two loops of [findPath] *)

Lemma expand_invariant (walls : gset string) (cur : PathNode)
    (I : list Position -> SearchState -> Prop) :
  (forall n ns st, I (n :: ns) st -> posKey n ∉ visited st -> posKey n ∉ walls ->
     I ns (mkSearch (queue st ++ [mkNode n (distance cur + 1) (Some cur)])
                    ({[posKey n]} ∪ visited st) (order st ++ [n]) (count st))) ->
  (forall n ns st, I (n :: ns) st -> posKey n ∈ visited st \/ posKey n ∈ walls ->
     I ns st) ->
  forall ns st, I ns st -> I [] (expand walls cur ns st).
Proof.
  intros Hadd Hskip ns. induction ns as [|n ns IH]; intros st Hst; simpl; [done|].
  destruct (bool_decide (posKey n ∉ visited st)) eqn:Hv; simpl.
  - destruct (bool_decide (posKey n ∉ walls)) eqn:Hw; simpl.
    + apply bool_decide_eq_true in Hv, Hw. apply IH. by apply Hadd.
    + apply bool_decide_eq_false in Hw. apply IH. apply (Hskip n); [done|].
      right. by apply dec_stable.
  - apply bool_decide_eq_false in Hv. apply IH. apply (Hskip n); [done|].
    left. by apply dec_stable.
Qed.

Lemma sortBy_nil {A} (cmp : A -> A -> Z) l : sortBy cmp l = [] -> l = [].
Proof.
  intros H. pose proof (sortBy_Permutation cmp l) as Hp. rewrite H in Hp.
  by apply Permutation_nil_l in Hp.
Qed.

Section Loop.
Context (goal : Position) (walls : gset string) (algorithm : Algorithm).
Variable J : SearchState -> Prop.
Variable R : option PathResult -> Prop.
Hypothesis at_empty : forall st, J st -> queue st = [] -> R None.
Hypothesis at_goal : forall st cur rest,
  J st -> queue st ≡ₚ cur :: rest -> pos cur = goal ->
  R (Some (mkPathResult (rev (chain cur)) (count st + 1) (order st))).
Hypothesis at_step : forall st cur rest,
  J st -> queue st ≡ₚ cur :: rest -> pos cur <> goal ->
  J (expand walls cur (getNeighbors (pos cur))
       (mkSearch rest (visited st) (order st) (count st + 1))).

Lemma search_invariant fuel st res :
  J st -> search fuel goal walls algorithm st = Done res -> R res.
Proof.
  revert st. induction fuel as [|fuel IH]; intros st Hst; [done|].
  rewrite search_S.
  pose proof (sortBy_Permutation (compareNodes algorithm goal) (queue st)) as Hp.
  destruct (sortBy (compareNodes algorithm goal) (queue st)) as [|cur rest] eqn:Hs.
  - intros [= <-]. apply (at_empty st); [done|]. by apply Permutation_nil_l in Hp.
  - symmetry in Hp.
    destruct (bool_decide (r (pos cur) = r goal) && bool_decide (c (pos cur) = c goal))
      eqn:Hg.
    + intros [= <-]. apply goal_test in Hg. by eapply at_goal.
    + apply IH. eapply at_step; [done..|].
      intros Heq. apply goal_test in Heq. congruence.
Qed.

End Loop.

Lemma findPath_invariant start goal walls algorithm
    (J : SearchState -> Prop) (R : option PathResult -> Prop) :
  (forall st, J st -> queue st = [] -> R None) ->
  (forall st cur rest,
     J st -> queue st ≡ₚ cur :: rest -> pos cur = goal ->
     R (Some (mkPathResult (rev (chain cur)) (count st + 1) (order st)))) ->
  (forall st cur rest,
     J st -> queue st ≡ₚ cur :: rest -> pos cur <> goal ->
     J (expand walls cur (getNeighbors (pos cur))
          (mkSearch rest (visited st) (order st) (count st + 1)))) ->
  J (initial start) ->
  R (findPath start goal walls algorithm).
Proof.
  intros H1 H2 H3 H0.
  pose proof (findPath_run_eq start goal walls algorithm) as Hrun.
  revert Hrun. generalize (findPath start goal walls algorithm). intros res.
  unfold findPath_run. generalize maxIterations. intros fuel Hrun.
  exact (search_invariant goal walls algorithm J R H1 H2 H3 fuel (initial start) res H0 Hrun).
Qed.

(** ** A path is found exactly when the goal can be reached *)

Lemma settled_mono goal walls (vis vis' : gset string) v :
  vis ⊆ vis' -> settled goal walls vis v -> settled goal walls vis' v.
Proof.
  intros Hsub [Hne Hn]. split; [done|]. intros n Hmem Hw. apply Hsub. by apply Hn.
Qed.

Lemma expand_covered goal walls start cur ns st :
  covered goal walls (queue st) (visited st) (Some (pos cur, ns)) /\
    posKey start ∈ visited st ->
  covered goal walls (queue (expand walls cur ns st))
    (visited (expand walls cur ns st)) (Some (pos cur, [])) /\
    posKey start ∈ visited (expand walls cur ns st).
Proof.
  apply (expand_invariant walls cur
           (fun ns st => covered goal walls (queue st) (visited st) (Some (pos cur, ns))
                         /\ posKey start ∈ visited st)).
  - clear ns st. intros n ns st [Hc Hu] Hv Hw. simpl. split; [|apply elem_of_union; by right].
    intros v Hmem.
    destruct (decide (posKey v = posKey n)) as [Heq|Hne].
    { apply posKey_inj in Heq. subst v. left.
      exists (mkNode n (distance cur + 1) (Some cur)). split; [|done].
      apply elem_of_app. right. by apply list_elem_of_singleton. }
    assert (posKey v ∈ visited st) as Hmem'.
    { apply elem_of_union in Hmem as [Hx|?]; [|done]. by apply elem_of_singleton in Hx. }
    destruct (Hc v Hmem') as [(m & Hm & Hp)|[Hs|(-> & Hg & Hns)]].
    + left. exists m. split; [|done]. apply elem_of_app. by left.
    + right; left. eapply settled_mono; [|done]. apply union_subseteq_r.
    + right; right. split; [done|]. split; [done|].
      intros n' Hn' Hw'. destruct (Hns n' Hn' Hw') as [?|Hmem2]; [left; apply elem_of_union; by right|].
      apply elem_of_cons in Hmem2 as [->|?]; [|by right].
      left. apply elem_of_union. left. by apply elem_of_singleton.
  - clear ns st. intros n ns st [Hc Hu] Hor. split; [|done].
    intros v Hmem.
    destruct (Hc v Hmem) as [?|[?|(-> & Hg & Hns)]]; [by left|right; by left|].
    right; right. split; [done|]. split; [done|].
    intros n' Hn' Hw'. destruct (Hns n' Hn' Hw') as [?|Hmem2]; [by left|].
    apply elem_of_cons in Hmem2 as [->|?]; [|by right].
    destruct Hor as [?|?]; [by left|done].
Qed.

Lemma walk_settled goal walls (vis : gset string) start l v :
  posKey start ∈ vis ->
  (forall v, posKey v ∈ vis -> settled goal walls vis v) ->
  walk walls start l v -> posKey v ∈ vis.
Proof.
  intros Hs Hall. induction 1 as [|l p n Hw IH Hn Hk]; [done|].
  destruct (Hall p IH) as [_ Hp]. by apply Hp.
Qed.

Lemma findPath_complete start goal walls algorithm l :
  walk walls start l goal ->
  exists res, findPath start goal walls algorithm = Some res.
Proof.
  intros Hl.
  apply (findPath_invariant start goal walls algorithm
           (fun st => covered goal walls (queue st) (visited st) None /\
                      posKey start ∈ visited st)
           (fun res => exists r0, res = Some r0)).
  - intros st [Hc Hs] Hq. exfalso.
    assert (forall v, posKey v ∈ visited st -> settled goal walls (visited st) v) as Hall.
    { intros v Hv. destruct (Hc v Hv) as [(n & Hn & _)|[?|[]]]; [|done].
      rewrite Hq in Hn. by apply elem_of_nil in Hn. }
    pose proof (walk_settled goal walls (visited st) start l goal Hs Hall Hl) as Hg.
    by destruct (Hall goal Hg).
  - intros; by eexists.
  - intros st cur rest [Hc Hs] Hp Hne.
    destruct (expand_covered goal walls start cur (getNeighbors (pos cur))
                (mkSearch rest (visited st) (order st) (count st + 1))) as [Hc' Hs'].
    { split; [|done]. intros v Hv. simpl.
      destruct (Hc v Hv) as [(n & Hn & Hpn)|[?|[]]]; [|right; by left].
      rewrite Hp in Hn. apply elem_of_cons in Hn as [->|Hn].
      - right; right. split; [done|]. split; [done|]. intros; by right.
      - left. by exists n. }
    split; [|done]. intros v Hv.
    destruct (Hc' v Hv) as [?|[?|(-> & Hg & Hns)]]; [by left|right; by left|].
    right; left. split; [done|]. intros n Hn Hw.
    destruct (Hns n Hn Hw) as [?|Hmem]; [done|by apply elem_of_nil in Hmem].
  - simpl. split; [|by apply elem_of_singleton]. intros v Hv. left.
    exists (mkNode start 0 None). split; [by left|]. simpl.
    apply posKey_inj. apply elem_of_singleton in Hv. done.
Qed.

(** ** Bookkeeping of the search *)

Lemma chain_head n : pos n ∈ chain n.
Proof. destruct (chain_cons n) as [tl ->]. by left. Qed.

Lemma expand_bookkeeping start walls cur ns st :
  bookkeeping start walls st /\
    (forall p, p ∈ chain cur -> p ∈ order st) /\ NoDup (chain cur) /\
    (forall n, n ∈ ns -> inGrid n = true) ->
  bookkeeping start walls (expand walls cur ns st).
Proof.
  intros H.
  apply (expand_invariant walls cur
           (fun ns st => bookkeeping start walls st /\
              (forall p, p ∈ chain cur -> p ∈ order st) /\ NoDup (chain cur) /\
              (forall n, n ∈ ns -> inGrid n = true))) in H; [by destruct H|..].
  - clear. intros n ns st (Hb & Hc & Hnd & Hg) Hv Hw.
    destruct Hb as [Hseen Honce Hfirst Hfree Hchain Hsimple Hcount Hnn].
    assert (n ∉ order st) as Hfresh by (intros Hn; by apply Hseen in Hn).
    split; [|split; [|split; [done|]]].
    + constructor; cbn [order queue visited count].
      * intros p. rewrite elem_of_app, list_elem_of_singleton, elem_of_union,
          elem_of_singleton. rewrite Hseen. split.
        -- intros [?| ->]; [by right|by left].
        -- intros [Heq|?]; [right; by apply posKey_inj|by left].
      * apply NoDup_app. split; [done|]. split; [|apply NoDup_singleton].
        intros x Hx Hx'. apply list_elem_of_singleton in Hx'. by subst.
      * by destruct (order st).
      * destruct (order st) as [|p0 rest0]; [done|]. simpl. simpl in Hfree.
        apply Forall_app. split; [done|].
        apply Forall_singleton. split; [|done]. apply Hg. by left.
      * intros m p Hm Hp. apply elem_of_app.
        apply elem_of_app in Hm as [Hm|Hm].
        -- left. by eapply Hchain.
        -- apply list_elem_of_singleton in Hm. subst m. simpl in Hp.
           apply elem_of_cons in Hp as [->|Hp]; [right; by apply list_elem_of_singleton|].
           left. by apply Hc.
      * intros m Hm. apply elem_of_app in Hm as [Hm|Hm]; [by apply Hsimple|].
        apply list_elem_of_singleton in Hm. subst m. simpl.
        apply NoDup_cons. split; [|done]. intros Hn. apply Hfresh. by apply Hc.
      * rewrite !length_app. simpl. lia.
      * done.
    + cbn [order]. intros p Hp. apply elem_of_app. left. by apply Hc.
    + intros m Hm. apply Hg. by right.
  - clear. intros n ns st (Hb & Hc & Hnd & Hg) _.
    split; [done|]. split; [done|]. split; [done|]. intros m Hm. apply Hg. by right.
Qed.

Lemma order_bounded start walls st :
  bookkeeping start walls st ->
  (length (order st) <= S (Z.to_nat (GRID_ROWS * GRID_COLS)))%nat.
Proof.
  intros [_ Honce Hfirst Hfree _ _ _ _].
  destruct (order st) as [|p0 rest0]; simpl in *; [lia|].
  apply NoDup_cons in Honce as [_ Hnd].
  assert (rest0 ⊆+ gridCells) as Hsub.
  { apply NoDup_submseteq; [done|]. intros x Hx.
    rewrite Forall_forall in Hfree. apply inGrid_gridCells. by apply Hfree. }
  apply submseteq_length in Hsub.
  assert (length gridCells = Z.to_nat (GRID_ROWS * GRID_COLS)) as Hlen by (by vm_compute).
  lia.
Qed.

Lemma findPath_bookkeeping start goal walls algorithm res :
  findPath start goal walls algorithm = Some res ->
  NoDup (path res) /\
  NoDup (visitedOrder res) /\
  head (visitedOrder res) = Some start /\
  Forall (fun p => inGrid p = true /\ posKey p ∉ walls) (tail (visitedOrder res)) /\
  (forall p, p ∈ path res -> p ∈ visitedOrder res) /\
  1 <= visitedCount res <= Z.of_nat (length (visitedOrder res)) /\
  Z.of_nat (length (visitedOrder res)) <= GRID_ROWS * GRID_COLS + 1.
Proof.
  intros Hf.
  pose proof (findPath_invariant start goal walls algorithm
           (bookkeeping start walls)
           (fun out => forall res, out = Some res ->
              NoDup (path res) /\
              NoDup (visitedOrder res) /\
              head (visitedOrder res) = Some start /\
              Forall (fun p => inGrid p = true /\ posKey p ∉ walls) (tail (visitedOrder res)) /\
              (forall p, p ∈ path res -> p ∈ visitedOrder res) /\
              1 <= visitedCount res <= Z.of_nat (length (visitedOrder res)) /\
              Z.of_nat (length (visitedOrder res)) <= GRID_ROWS * GRID_COLS + 1)) as H.
  apply H; [by intros| | | |done]; clear H Hf res.
  - intros st cur rest Hb Hp Hg res [= <-]. simpl.
    pose proof (order_bounded start walls st Hb) as Hbound.
    destruct Hb as [Hseen Honce Hfirst Hfree Hchain Hsimple Hcount Hnn].
    assert (cur ∈ queue st) as Hcur by (rewrite Hp; by left).
    split; [rewrite <- Permutation_rev; by apply Hsimple|].
    split; [done|]. split; [done|]. split; [done|].
    split; [intros p Hp'; rewrite <- Permutation_rev in Hp'; by eapply Hchain|].
    apply Permutation_length in Hp. simpl in Hp.
    split; [lia|]. unfold GRID_ROWS, GRID_COLS in *. lia.
  - intros st cur rest Hb Hp Hne.
    assert (cur ∈ queue st) as Hcur by (rewrite Hp; by left).
    apply expand_bookkeeping. split; [|split; [|split]].
    + destruct Hb as [Hseen Honce Hfirst Hfree Hchain Hsimple Hcount Hnn].
      constructor; simpl; try done.
      * intros n p Hn. apply Hchain. rewrite Hp. by right.
      * intros n Hn. apply Hsimple. rewrite Hp. by right.
      * apply Permutation_length in Hp. simpl in Hp. lia.
      * lia.
    + simpl. intros p Hp'. by eapply (bk_chain _ _ _ Hb).
    + by apply (bk_simple _ _ _ Hb).
    + intros n. apply getNeighbors_inGrid.
  - constructor; simpl; try done.
    + intros p. rewrite list_elem_of_singleton, elem_of_singleton. split; [by intros ->|].
      apply posKey_inj.
    + apply NoDup_singleton.
    + intros n p Hn Hp. apply list_elem_of_singleton in Hn. subst n. done.
    + intros n Hn. apply list_elem_of_singleton in Hn. subst n. simpl. apply NoDup_singleton.
Qed.

(** ** Distances *)

Lemma inGrid_spec p :
  inGrid p = true <-> 0 <= r p < GRID_ROWS /\ 0 <= c p < GRID_COLS.
Proof.
  unfold inGrid. rewrite !andb_true_iff, !Z.leb_le, !Z.ltb_lt. lia.
Qed.

Lemma getNeighbors_spec p n :
  n ∈ getNeighbors p <-> inGrid n = true /\ getManhattanDistance p n = 1.
Proof.
  rewrite elem_of_getNeighbors. unfold getManhattanDistance.
  destruct p as [i j], n as [i' j']; simpl. split.
  - intros [Hg [H|[H|[H|H]]]]; injection H as -> ->; split; try done; lia.
  - intros [Hg Hd]. split; [done|].
    destruct (decide (i' = i - 1)) as [->|?]; [left; f_equal; lia|].
    destruct (decide (i' = i + 1)) as [->|?]; [right; left; f_equal; lia|].
    destruct (decide (j' = j - 1)) as [->|?]; [right; right; left; f_equal; lia|].
    right; right; right. f_equal; lia.
Qed.

Lemma walk_manhattan walls start l v :
  walk walls start l v -> getManhattanDistance start v <= hops l.
Proof.
  induction 1 as [|l p n Hw IH Hn Hk].
  - unfold getManhattanDistance, hops. simpl. lia.
  - rewrite hops_snoc. apply getNeighbors_spec in Hn as [_ Hn].
    unfold getManhattanDistance in *. lia.
Qed.

Lemma walk_end walls start l v :
  walk walls start l v -> v = start \/ (inGrid v = true /\ posKey v ∉ walls).
Proof.
  destruct 1 as [|l p n Hw Hn Hk]; [by left|]. right.
  split; [by eapply getNeighbors_inGrid|done].
Qed.

(** In a grid without walls a walk of Manhattan length joins any two
    cells. *)
Lemma open_grid_walk a b :
  inGrid a = true -> inGrid b = true ->
  exists l, walk ∅ a l b /\ hops l = getManhattanDistance a b.
Proof.
  intros Ha.
  remember (Z.to_nat (getManhattanDistance a b)) as k eqn:Hk.
  revert b Hk. induction k as [|k IH]; intros b Hk Hb.
  - assert (b = a) as ->.
    { destruct a as [i j], b as [i' j']. unfold getManhattanDistance in Hk.
      simpl in Hk. f_equal; lia. }
    exists [a]. split; [constructor|]. unfold hops, getManhattanDistance. simpl. lia.
  - apply inGrid_spec in Ha as Ha', Hb as Hb'.
    destruct a as [i j], b as [i' j']. unfold getManhattanDistance in Hk. simpl in *.
    assert (exists p, inGrid p = true /\ mkPos i' j' ∈ getNeighbors p /\
                      getManhattanDistance (mkPos i j) p
                      = getManhattanDistance (mkPos i j) (mkPos i' j') - 1)
      as (p & Hp & Hn & Hd).
    { destruct (decide (i' = i)) as [->|Hi].
      - destruct (decide (j < j')).
        + exists (mkPos i (j' - 1)). split; [apply inGrid_spec; simpl; lia|].
          split; [|unfold getManhattanDistance; simpl; lia].
          apply getNeighbors_spec. split; [done|]. unfold getManhattanDistance; simpl; lia.
        + exists (mkPos i (j' + 1)). split; [apply inGrid_spec; simpl; lia|].
          split; [|unfold getManhattanDistance; simpl; lia].
          apply getNeighbors_spec. split; [done|]. unfold getManhattanDistance; simpl; lia.
      - destruct (decide (i < i')).
        + exists (mkPos (i' - 1) j'). split; [apply inGrid_spec; simpl; lia|].
          split; [|unfold getManhattanDistance; simpl; lia].
          apply getNeighbors_spec. split; [done|]. unfold getManhattanDistance; simpl; lia.
        + exists (mkPos (i' + 1) j'). split; [apply inGrid_spec; simpl; lia|].
          split; [|unfold getManhattanDistance; simpl; lia].
          apply getNeighbors_spec. split; [done|]. unfold getManhattanDistance; simpl; lia. }
    destruct (IH p) as (l & Hl & Hh); [unfold getManhattanDistance in *; simpl in *; lia|done|].
    exists (l ++ [mkPos i' j']). split.
    + eapply walk_step; [done..|]. apply not_elem_of_empty.
    + rewrite hops_snoc, Hh, Hd. lia.
Qed.

(** A walk can be taken backwards when its first cell is a free cell of
    the grid. *)
Lemma walk_cells walls start l v p :
  walk walls start l v -> p ∈ l -> p = start \/ (inGrid p = true /\ posKey p ∉ walls).
Proof.
  induction 1 as [|l q n Hw IH Hn Hk]; intros Hp.
  - apply list_elem_of_singleton in Hp. by left.
  - apply elem_of_app in Hp as [Hp|Hp]; [by apply IH|].
    apply list_elem_of_singleton in Hp. subst p. right.
    split; [by eapply getNeighbors_inGrid|done].
Qed.

Lemma walk_prepend walls n p l v :
  walk walls p l v -> p ∈ getNeighbors n -> posKey p ∉ walls ->
  walk walls n (n :: l) v.
Proof.
  induction 1 as [|l q m Hw IH Hm Hk]; intros Hn Hp.
  - apply (walk_step walls n [n] n p); [constructor|done|done].
  - apply (walk_step walls n (n :: l) q m); [by apply IH|done|done].
Qed.

Lemma walk_reverse walls start l v :
  inGrid start = true -> posKey start ∉ walls ->
  walk walls start l v -> walk walls v (rev l) start.
Proof.
  intros Hg Hs. induction 1 as [|l p n Hw IH Hn Hk]; [constructor|].
  rewrite rev_app_distr. simpl.
  apply walk_prepend with p; [done| |].
  - apply getNeighbors_sym; [done|].
    destruct (walk_end _ _ _ _ Hw) as [->|[? _]]; done.
  - destruct (walk_end _ _ _ _ Hw) as [->|[_ ?]]; done.
Qed.

Lemma hops_rev (l : list Position) : hops (rev l) = hops l.
Proof. unfold hops. by rewrite length_rev. Qed.

(** ** Properties of [findPath] and [getNeighbors] *)

(** X1: under every strategy, [findPath] returns a path exactly when some
    sequence of up/down/left/right moves inside the grid leads from [start]
    to [goal] without entering a wall; otherwise it returns [null]. *)
Theorem findPath_finds_exactly_reachable start goal walls algorithm :
  (exists res, findPath start goal walls algorithm = Some res) <->
  (exists l, walk walls start l goal).
Proof.
  split.
  - intros [res Hf]. exists (path res). by eapply findPath_walk.
  - intros [l Hl]. by eapply findPath_complete.
Qed.

Lemma findPath_finds_exactly_reachable_witness :
  exists res, findPath (mkPos 0 0) (mkPos 0 2) {[ "0,1" ]} GREEDY = Some res.
Proof.
  apply (proj2 (findPath_finds_exactly_reachable
                  (mkPos 0 0) (mkPos 0 2) {[ "0,1" ]} GREEDY)).
  eassert (findPath (mkPos 0 0) (mkPos 0 2) {[ "0,1" ]} DIJKSTRA
           = Some (mkPathResult _ _ _)) as Hf by (vm_compute; reflexivity).
  eexists. exact (findPath_walk _ _ _ _ _ Hf).
Defined.

(** X2: a returned path never visits a cell twice. *)
Theorem findPath_path_is_simple start goal walls algorithm res :
  findPath start goal walls algorithm = Some res -> NoDup (path res).
Proof. intros Hf. by apply findPath_bookkeeping in Hf as (? & _). Qed.

Lemma findPath_path_is_simple_witness :
  exists res, findPath (mkPos 0 0) (mkPos 0 2) {[ "0,1" ]} GREEDY = Some res /\
              NoDup (path res).
Proof.
  eexists. split; [vm_compute; reflexivity|].
  apply (findPath_path_is_simple (mkPos 0 0) (mkPos 0 2) {[ "0,1" ]} GREEDY).
  vm_compute; reflexivity.
Defined.

(** X3: in a returned result, [visitedOrder] begins with [start], lists no
    cell twice, lists after [start] only free cells of the grid, and contains
    every cell of the path; [visitedCount] is at least 1 and at most the
    length of [visitedOrder], which is at most the number of grid cells
    plus one. *)
Theorem findPath_visited_bookkeeping start goal walls algorithm res :
  findPath start goal walls algorithm = Some res ->
  head (visitedOrder res) = Some start /\
  NoDup (visitedOrder res) /\
  Forall (fun p => inGrid p = true /\ posKey p ∉ walls) (tail (visitedOrder res)) /\
  (forall p, p ∈ path res -> p ∈ visitedOrder res) /\
  1 <= visitedCount res <= Z.of_nat (length (visitedOrder res)) /\
  Z.of_nat (length (visitedOrder res)) <= GRID_ROWS * GRID_COLS + 1.
Proof.
  intros Hf. apply findPath_bookkeeping in Hf as (_ & ? & ? & ? & ? & ? & ?). done.
Qed.

Lemma findPath_visited_bookkeeping_witness :
  exists res, findPath (mkPos 0 0) (mkPos 0 2) {[ "0,1" ]} ASTAR = Some res /\
    head (visitedOrder res) = Some (mkPos 0 0) /\
    NoDup (visitedOrder res) /\
    Forall (fun p => inGrid p = true /\ posKey p ∉ ({[ "0,1" ]} : gset string))
           (tail (visitedOrder res)) /\
    (forall p, p ∈ path res -> p ∈ visitedOrder res) /\
    1 <= visitedCount res <= Z.of_nat (length (visitedOrder res)) /\
    Z.of_nat (length (visitedOrder res)) <= GRID_ROWS * GRID_COLS + 1.
Proof.
  eexists. split; [vm_compute; reflexivity|].
  apply (findPath_visited_bookkeeping (mkPos 0 0) (mkPos 0 2) {[ "0,1" ]} ASTAR).
  vm_compute; reflexivity.
Defined.

(** X4: no returned path has fewer moves than the Manhattan distance
    between [start] and [goal]. *)
Theorem findPath_at_least_manhattan start goal walls algorithm res :
  findPath start goal walls algorithm = Some res ->
  getManhattanDistance start goal <= hops (path res).
Proof. intros Hf. apply findPath_walk in Hf. by eapply walk_manhattan. Qed.

Lemma findPath_at_least_manhattan_witness :
  exists res, findPath (mkPos 0 0) (mkPos 0 2) {[ "0,1" ]} DIJKSTRA = Some res /\
    getManhattanDistance (mkPos 0 0) (mkPos 0 2) <= hops (path res).
Proof.
  eexists. split; [vm_compute; reflexivity|].
  apply (findPath_at_least_manhattan (mkPos 0 0) (mkPos 0 2) {[ "0,1" ]} DIJKSTRA).
  vm_compute; reflexivity.
Defined.

(** X5: on a grid without walls the uniform-cost strategy joins any two
    grid cells by a path of exactly their Manhattan distance. *)
Theorem findPath_open_grid start goal :
  inGrid start = true -> inGrid goal = true ->
  exists res, findPath start goal ∅ DIJKSTRA = Some res /\
              hops (path res) = getManhattanDistance start goal.
Proof.
  intros Hs Hg.
  destruct (open_grid_walk start goal Hs Hg) as (l & Hl & Hh).
  destruct (findPath_uniform_cost start goal ∅ l Hl) as (res & Hf & Hw & Hmin).
  exists res. split; [done|].
  pose proof (Hmin l Hl). pose proof (walk_manhattan _ _ _ _ Hw). lia.
Qed.

Lemma findPath_open_grid_witness :
  exists res, findPath (mkPos 3 4) (mkPos 17 0) ∅ DIJKSTRA = Some res /\
              hops (path res) = getManhattanDistance (mkPos 3 4) (mkPos 17 0).
Proof.
  apply (findPath_open_grid (mkPos 3 4) (mkPos 17 0)); reflexivity.
Defined.

(** X6: a goal other than [start] that lies outside the grid, or on a wall,
    is never reached: [findPath] returns [null] under every strategy. *)
Theorem findPath_unreachable_goal start goal walls algorithm :
  goal <> start ->
  inGrid goal = false \/ posKey goal ∈ walls ->
  findPath start goal walls algorithm = None.
Proof.
  intros Hne Hbad.
  destruct (findPath start goal walls algorithm) as [res|] eqn:Hf; [|done].
  apply findPath_walk in Hf. apply walk_end in Hf as [?|[Hg Hw]]; [done|].
  destruct Hbad as [Hbad|Hbad]; [congruence|done].
Qed.

Lemma findPath_unreachable_goal_witness :
  findPath (mkPos 0 0) (mkPos 0 20) ∅ GREEDY = None.
Proof.
  apply (findPath_unreachable_goal (mkPos 0 0) (mkPos 0 20) ∅ GREEDY).
  - discriminate.
  - left. reflexivity.
Defined.

(** X7: between two free cells of the grid the uniform-cost strategy finds
    a path in one direction exactly when it finds one in the other, and the
    two paths have the same number of moves. *)
Theorem findPath_uniform_cost_symmetric a b walls :
  inGrid a = true -> posKey a ∉ walls ->
  inGrid b = true -> posKey b ∉ walls ->
  hops ∘ path <$> findPath a b walls DIJKSTRA
  = hops ∘ path <$> findPath b a walls DIJKSTRA.
Proof.
  intros Ha Hwa Hb Hwb.
  assert (forall a b, inGrid a = true -> posKey a ∉ walls ->
            forall res, findPath a b walls DIJKSTRA = Some res ->
            exists res', findPath b a walls DIJKSTRA = Some res' /\
                         hops (path res') <= hops (path res)) as Hhalf.
  { clear. intros a b Ha Hwa res Hf. apply findPath_walk in Hf.
    pose proof (walk_reverse _ _ _ _ Ha Hwa Hf) as Hrev.
    destruct (findPath_uniform_cost b a walls _ Hrev) as (res' & Hf' & _ & Hmin).
    exists res'. split; [done|]. specialize (Hmin _ Hrev). by rewrite hops_rev in Hmin. }
  destruct (findPath a b walls DIJKSTRA) as [r1|] eqn:H1;
    destruct (findPath b a walls DIJKSTRA) as [r2|] eqn:H2; simpl.
  - destruct (Hhalf a b Ha Hwa r1 H1) as (r2' & Hr2 & Hle1).
    destruct (Hhalf b a Hb Hwb r2 H2) as (r1' & Hr1 & Hle2).
    f_equal. assert (r2' = r2) by congruence. assert (r1' = r1) by congruence.
    subst. lia.
  - destruct (Hhalf a b Ha Hwa r1 H1) as (r2' & Hr2 & _). congruence.
  - destruct (Hhalf b a Hb Hwb r2 H2) as (r1' & Hr1 & _). congruence.
  - done.
Qed.

Lemma findPath_uniform_cost_symmetric_witness :
  hops ∘ path <$> findPath (mkPos 0 0) (mkPos 5 2) {[ "0,1"; "1,1" ]} DIJKSTRA
  = hops ∘ path <$> findPath (mkPos 5 2) (mkPos 0 0) {[ "0,1"; "1,1" ]} DIJKSTRA.
Proof.
  apply (findPath_uniform_cost_symmetric (mkPos 0 0) (mkPos 5 2) {[ "0,1"; "1,1" ]});
    vm_compute; try reflexivity; intros H; discriminate H.
Defined.

(** X8: [getNeighbors] returns, without repetition, exactly the grid cells
    at Manhattan distance 1 from the given cell; there are at most four. *)
Theorem getNeighbors_exactly_adjacent p :
  (forall n, n ∈ getNeighbors p <-> inGrid n = true /\ getManhattanDistance p n = 1) /\
  NoDup (getNeighbors p) /\
  (length (getNeighbors p) <= 4)%nat.
Proof.
  split; [intros n; apply getNeighbors_spec|]. split.
  - unfold getNeighbors. apply NoDup_filter. unfold dirs. simpl.
    destruct p as [i j]. simpl.
    repeat (apply NoDup_cons; split;
            [rewrite ?elem_of_cons, elem_of_nil; intros H;
             repeat (destruct H as [H|H]; [injection H; lia|]); done|]).
    constructor.
  - unfold getNeighbors. etrans; [apply length_filter|]. done.
Qed.

End SearchFacts.

Module RaceFacts.
Import Pathfinding PathSpec Comparison AlgorithmRace RouteBuilder RaceSpec.
Import FoldFacts PathfindingFacts SearchFacts.

Lemma walk_nonempty walls start l v : walk walls start l v -> l <> [].
Proof. destruct 1; [done|]. by destruct l. Qed.

Lemma walk_append walls a l1 b l2 c :
  walk walls a l1 b -> walk walls b l2 c -> walk walls a (l1 ++ drop 1 l2) c.
Proof.
  intros H1. induction 1 as [|l p n Hw IH Hn Hk]; simpl.
  - by rewrite app_nil_r.
  - pose proof (walk_nonempty _ _ _ _ Hw) as Hne.
    destruct l as [|x l]; [done|].
    change (drop 1 ((x :: l) ++ [n])) with (l ++ [n]).
    change (drop 1 (x :: l)) with l in IH. rewrite app_assoc.
    by eapply walk_step.
Qed.

Lemma walk_last_elem walls start l v : walk walls start l v -> v ∈ l.
Proof.
  destruct 1; [by left|]. apply elem_of_app. right. by left.
Qed.

Lemma legs_cons walls algo i p1 p2 rest acc :
  legs walls algo i (p1 :: p2 :: rest) acc =
  match findPath p1 p2 walls algo with
  | Some leg =>
      legs walls algo (S i) (p2 :: rest)
        (mkPathResult
           (path acc ++ (if (i =? 0)%nat then path leg else drop 1 (path leg)))
           (visitedCount acc + visitedCount leg)
           (visitedOrder acc ++ visitedOrder leg))
  | None => None
  end.
Proof. reflexivity. Qed.

(** What the loop over the legs hands back. *)
Lemma legs_route walls algo start i p pts acc m :
  legs walls algo i (p :: pts) acc = Some m ->
  (i = 0%nat /\ path acc = [] /\ start = p) \/
    (i <> 0%nat /\ walk walls start (path acc) p) ->
  i <> 0%nat \/ pts <> [] ->
  walk walls start (path m) (default p (last pts)) /\
  (forall w, w ∈ pts -> w ∈ path m) /\
  (forall w, w ∈ path acc -> w ∈ path m).
Proof.
  revert i p acc. induction pts as [|p2 rest IH]; intros i p acc Hl Hacc Hne.
  - simpl in Hl. injection Hl as <-. simpl.
    destruct Hacc as [[-> _]|[_ Hw]]; [by destruct Hne|].
    split; [done|]. split; [|done]. intros w Hw'. by apply elem_of_nil in Hw'.
  - rewrite legs_cons in Hl.
    destruct (findPath p p2 walls algo) as [leg|] eqn:Hf; [|done].
    apply findPath_walk in Hf.
    assert (walk walls start
              (path acc ++ (if (i =? 0)%nat then path leg else drop 1 (path leg))) p2) as Hw.
    { destruct Hacc as [(-> & -> & ->)|[Hi Hw]]; [done|].
      apply Nat.eqb_neq in Hi. rewrite Hi. by eapply walk_append. }
    apply IH in Hl as (Hwalk & Hin & Hsub); [|right; split; [lia|done]|left; lia].
    simpl in Hsub.
    assert (default p (last (p2 :: rest)) = default p2 (last rest)) as ->.
    { rewrite last_cons. by destruct (last rest). }
    split; [done|]. split.
    + intros w Hw'. apply elem_of_cons in Hw' as [->|Hw']; [|by apply Hin].
      apply Hsub. by eapply walk_last_elem.
    + intros w Hw'. apply Hsub. apply elem_of_app. by left.
Qed.

Lemma elem_of_compareAlgorithms start goal walls waypoints x :
  x ∈ compareAlgorithms start goal walls waypoints <->
  exists algo, algo ∈ algorithms /\
    x = mkComparison algo
          (legs walls algo 0 (start :: waypoints ++ [goal]) (mkPathResult [] 0 [])).
Proof.
  unfold compareAlgorithms. change (map ?f ?l) with (f <$> l).
  rewrite list_elem_of_fmap. split; intros (algo & ? & ?); exists algo; done.
Qed.

Lemma compareAlgorithms_walk start goal walls waypoints x m :
  x ∈ compareAlgorithms start goal walls waypoints ->
  metrics x = Some m ->
  walk walls start (path m) goal /\ forall w, w ∈ waypoints -> w ∈ path m.
Proof.
  intros Hx Hm. apply elem_of_compareAlgorithms in Hx as (algo & _ & ->). simpl in Hm.
  apply (legs_route walls algo start) in Hm as (Hw & Hin & _).
  - rewrite last_snoc in Hw. simpl in Hw. split; [done|].
    intros w Hw'. apply Hin. apply elem_of_app. by left.
  - left. done.
  - right. by destruct waypoints.
Qed.

(** Whether the loop over the legs succeeds does not depend on the
    strategy. *)
Lemma legs_joined walls algo i points acc :
  is_Some (legs walls algo i points acc) <-> joined walls points.
Proof.
  revert i acc. induction points as [|p1 rest IH]; intros i acc; [by split; eauto|].
  destruct rest as [|p2 rest]; [by split; eauto|].
  rewrite legs_cons. cbn [joined].
  pose proof (findPath_complete p1 p2 walls algo) as Hc.
  destruct (findPath p1 p2 walls algo) as [leg|] eqn:Hf.
  - rewrite IH. split; [|by intros [_ ?]]. intros Hj. split; [|done].
    exists (path leg). by eapply findPath_walk.
  - split; [by intros [? ?]|]. intros [[l Hl] _]. destruct (Hc l Hl) as [? ?]. done.
Qed.

(** The uniform-cost strategy's route is never longer than another
    strategy's. *)
Lemma legs_shortest walls algo i points acc acc' m m' :
  legs walls DIJKSTRA i points acc = Some m ->
  legs walls algo i points acc' = Some m' ->
  (length (path acc) <= length (path acc'))%nat ->
  (length (path m) <= length (path m'))%nat.
Proof.
  revert i acc acc'. induction points as [|p1 rest IH]; intros i acc acc' H1 H2 Hle.
  { simpl in *. by simplify_eq. }
  destruct rest as [|p2 rest]; [simpl in *; by simplify_eq|].
  rewrite legs_cons in H1, H2.
  destruct (findPath p1 p2 walls algo) as [leg'|] eqn:Hf'; [|done].
  apply findPath_walk in Hf'.
  destruct (findPath_uniform_cost p1 p2 walls _ Hf') as (leg & Hf & Hw & Hmin).
  rewrite Hf in H1. specialize (Hmin _ Hf'). unfold hops in Hmin.
  eapply IH; [exact H1|exact H2|]. simpl. rewrite !length_app.
  destruct (i =? 0)%nat; [lia|]. rewrite !length_drop. lia.
Qed.

(** ** Properties of [compareAlgorithms] *)

(** X9: [compareAlgorithms] reports on the three strategies in the order
    DIJKSTRA, GREEDY, ASTAR; every route it reports leads from [start] to
    [goal] by moves inside the grid that enter no wall, and passes through
    every waypoint. *)
Theorem compareAlgorithms_routes start goal walls waypoints :
  algorithm <$> compareAlgorithms start goal walls waypoints = [DIJKSTRA; GREEDY; ASTAR] /\
  forall x m,
    x ∈ compareAlgorithms start goal walls waypoints ->
    metrics x = Some m ->
    walk walls start (path m) goal /\ forall w, w ∈ waypoints -> w ∈ path m.
Proof.
  split; [done|]. intros x m. apply compareAlgorithms_walk.
Qed.

Lemma compareAlgorithms_routes_witness :
  exists m,
    legs {[ "0,1" ]} ASTAR 0 [mkPos 0 0; mkPos 2 2; mkPos 0 2] (mkPathResult [] 0 [])
    = Some m /\
    walk {[ "0,1" ]} (mkPos 0 0) (path m) (mkPos 0 2) /\
    forall w, w ∈ [mkPos 2 2] -> w ∈ path m.
Proof.
  eexists. split; [vm_compute; reflexivity|].
  apply (proj2 (compareAlgorithms_routes (mkPos 0 0) (mkPos 0 2) {[ "0,1" ]} [mkPos 2 2])
           (mkComparison ASTAR
              (legs {[ "0,1" ]} ASTAR 0 [mkPos 0 0; mkPos 2 2; mkPos 0 2]
                    (mkPathResult [] 0 [])))).
  - apply elem_of_compareAlgorithms. exists ASTAR. split; [|reflexivity].
    right; right; left.
  - vm_compute; reflexivity.
Defined.

(** X10: the three strategies succeed or fail together: a strategy's
    metrics are non-null exactly when every point of the route
    [start, ...waypoints, goal] can be reached from the point before it. *)
Theorem compareAlgorithms_all_or_none start goal walls waypoints x :
  x ∈ compareAlgorithms start goal walls waypoints ->
  (is_Some (metrics x) <-> joined walls (start :: waypoints ++ [goal])).
Proof.
  intros Hx. apply elem_of_compareAlgorithms in Hx as (algo & _ & ->).
  cbn [metrics]. apply legs_joined.
Qed.

Lemma compareAlgorithms_all_or_none_witness :
  is_Some (metrics (mkComparison GREEDY
             (legs {[ "0,1" ]} GREEDY 0 [mkPos 0 0; mkPos 2 2; mkPos 0 2]
                   (mkPathResult [] 0 [])))) <->
  joined {[ "0,1" ]} (mkPos 0 0 :: [mkPos 2 2] ++ [mkPos 0 2]).
Proof.
  apply (compareAlgorithms_all_or_none (mkPos 0 0) (mkPos 0 2) {[ "0,1" ]} [mkPos 2 2]).
  apply elem_of_compareAlgorithms. exists GREEDY. split; [|reflexivity].
  right; left.
Defined.

(** X11: in the race results the DIJKSTRA entry, whenever it has metrics,
    earns the "Optimal Path" badge: no strategy's route has fewer cells. *)
Theorem dijkstra_earns_optimal_badge start goal walls waypoints d :
  d ∈ compareAlgorithms start goal walls waypoints ->
  algorithm d = DIJKSTRA ->
  is_Some (metrics d) ->
  isShortest (compareAlgorithms start goal walls waypoints) d = true.
Proof.
  intros Hd Ha [md Hmd]. unfold isShortest. rewrite Hmd.
  apply forallb_forall. intros x Hx. apply list_elem_of_In in Hx.
  apply elem_of_compareAlgorithms in Hd as (algo & _ & ->).
  cbn [algorithm metrics] in Ha, Hmd. subst algo.
  apply elem_of_compareAlgorithms in Hx as (algo & _ & ->). cbn [metrics].
  destruct (legs walls algo 0 (start :: waypoints ++ [goal]) (mkPathResult [] 0 []))
    as [mx|] eqn:Hmx; [|done].
  cbn [fmap option_fmap option_map orInfinity].
  case_bool_decide; [done|]. cbn [geFinite]. apply Z.leb_le. unfold pathLength.
  pose proof (legs_shortest walls algo 0 _ _ _ md mx Hmd Hmx). simpl in *. lia.
Qed.

Lemma dijkstra_earns_optimal_badge_witness :
  isShortest (compareAlgorithms (mkPos 1 4) (mkPos 0 0) {[ "0,1"; "1,1"; "1,3" ]} [])
    (mkComparison DIJKSTRA
       (legs {[ "0,1"; "1,1"; "1,3" ]} DIJKSTRA 0 [mkPos 1 4; mkPos 0 0]
             (mkPathResult [] 0 []))) = true.
Proof.
  apply (dijkstra_earns_optimal_badge (mkPos 1 4) (mkPos 0 0) {[ "0,1"; "1,1"; "1,3" ]} []).
  - apply elem_of_compareAlgorithms. exists DIJKSTRA. split; [left|reflexivity].
  - reflexivity.
  - vm_compute. eexists. reflexivity.
Defined.

(** X12: the waypoint version of [compareAlgorithms] agrees with the
    earlier version: one intermediate stop is the one-waypoint route, and no
    intermediate stop is the direct route. *)
Theorem compareAlgorithms_generalises start goal walls :
  (forall mid,
     compareAlgorithmsIntermediate start goal walls (Some mid)
     = compareAlgorithms start goal walls [mid]) /\
  compareAlgorithmsIntermediate start goal walls None
  = compareAlgorithms start goal walls [].
Proof.
  split; [intros mid|]; apply map_ext; intros algo.
  - cbn [app]. rewrite legs_cons.
    destruct (findPath start mid walls algo) as [[p1 c1 o1]|];
      [|by destruct (findPath mid goal walls algo)].
    rewrite legs_cons.
    by destruct (findPath mid goal walls algo) as [[p2 c2 o2]|].
  - cbn [app]. rewrite legs_cons.
    by destruct (findPath start goal walls algo) as [[p1 c1 o1]|].
Qed.

(** ** Properties of the route builder *)

Lemma imap_keep_all {A} (f : nat -> A -> list A) (l : list A) :
  (forall i x, f i x = [x]) -> imap f l ≫= id = l.
Proof.
  revert f. induction l as [|x l IH]; intros f Hf; [done|].
  rewrite imap_cons. cbn [mbind list_bind]. rewrite Hf. simpl. f_equal.
  apply IH. intros i y. apply Hf.
Qed.

Lemma handleRemoveStop_delete index stops :
  handleRemoveStop index stops = delete index stops.
Proof.
  unfold handleRemoveStop. revert index.
  induction stops as [|s stops IH]; intros index; [done|].
  rewrite imap_cons. cbn [mbind list_bind]. destruct index as [|index].
  - rewrite bool_decide_eq_false_2 by lia. simpl.
    apply imap_keep_all. intros i x. simpl. repeat case_bool_decide; try done; lia.
  - rewrite bool_decide_eq_true_2 by lia. simpl. f_equal. rewrite <- IH.
    f_equal. apply imap_ext. intros i x _. simpl.
    repeat case_bool_decide; try done; lia.
Qed.

(** X13: removing a stop by its index deletes exactly the stop at that
    position (nothing, when the index is out of range), and removing the stop
    that was just added gives back the list of stops. *)
Theorem stops_add_remove index tempHotelId tempHomeId stops :
  handleRemoveStop index stops = delete index stops /\
  handleRemoveStop (length stops) (handleAddStop tempHotelId tempHomeId stops) = stops.
Proof.
  split; [apply handleRemoveStop_delete|].
  rewrite handleRemoveStop_delete. unfold handleAddStop.
  destruct (_ && _).
  - induction stops as [|s stops IH]; [done|]. simpl. by rewrite IH.
  - induction stops as [|s stops IH]; [done|]. simpl. by rewrite IH.
Qed.

Lemma stopWaypoints_route hotels homes (pairs : list (Entity.t * Entity.t)) stops k n :
  Forall2 (fun s hd => findEntity (hotelId s) hotels = Some hd.1 /\
                       findEntity (homeId s) homes = Some hd.2) stops pairs ->
  (k + length stops = n)%nat ->
  forall lastPair, last pairs = Some lastPair ->
  (imap (fun i => stopWaypoints hotels homes n (k + i)) stops ≫= id)
    ++ [Entity.pos lastPair.2]
  = pairs ≫= (fun hd => [Entity.pos hd.1; Entity.pos hd.2]).
Proof.
  intros H. revert k. induction H as [|s hd stops pairs [Hh Hd] HF IH]; intros k Hk lp Hlast;
    [done|].
  rewrite imap_cons, !bind_cons.
  unfold stopWaypoints at 1. rewrite Hh, Hd, Nat.add_0_r.
  simpl in Hk. destruct (last pairs) as [lp'|] eqn:Hlp.
  - assert (last (hd :: pairs) = Some lp') as Hlast'.
    { destruct pairs; [done|]. by rewrite last_cons_cons. }
    assert (lp' = lp) as -> by congruence.
    assert ((k <? n - 1)%nat = true) as ->.
    { apply Nat.ltb_lt. apply Forall2_length in HF. destruct pairs; [done|].
      simpl in HF. lia. }
    rewrite <- (IH (S k) ltac:(lia) lp eq_refl). simpl. do 2 f_equal.
    f_equal. f_equal. apply imap_ext. intros i x _. simpl. f_equal. lia.
  - apply last_None in Hlp. subst pairs. apply Forall2_nil_inv_r in HF. subst stops.
    simpl in *. injection Hlast as <-.
    assert ((k <? n - 1)%nat = false) as -> by (apply Nat.ltb_ge; lia). done.
Qed.

Lemma handleStart_route riders hotels homes selectedRiderId stops rider pairs :
  List.find (fun x => bool_decide (Rider.id x = selectedRiderId)) riders = Some rider ->
  stops <> [] ->
  Forall2 (fun s hd => findEntity (hotelId s) hotels = Some hd.1 /\
                       findEntity (homeId s) homes = Some hd.2) stops pairs ->
  exists waypoints goal,
    handleStart riders hotels homes selectedRiderId stops
    = Some (Rider.pos rider, waypoints, goal) /\
    waypoints ++ [goal] = pairs ≫= (fun hd => [Entity.pos hd.1; Entity.pos hd.2]).
Proof.
  intros Hr Hne HF. unfold handleStart. rewrite Hr.
  destruct (last stops) as [lastStop|] eqn:Hlast; [|by apply last_None in Hlast].
  assert (exists lp, last pairs = Some lp /\ findEntity (homeId lastStop) homes = Some lp.2)
    as (lp & Hlp & Hhome).
  { clear -HF Hlast. induction HF as [|s hd stops pairs [Hh Hd] HF IH]; [done|].
    destruct stops as [|s' stops].
    - apply Forall2_nil_inv_l in HF. subst pairs. simpl in *. injection Hlast as <-.
      by exists hd.
    - destruct pairs as [|hd' pairs]; [by apply Forall2_cons_nil_inv in HF|].
      rewrite last_cons_cons in Hlast. rewrite last_cons_cons. by apply IH. }
  rewrite Hhome. eexists _, _. split; [done|].
  apply (stopWaypoints_route hotels homes pairs stops 0 (length stops) HF); [done|done].
Qed.

(** X14: when the selected rider and every stop's hotel and home are found,
    [handleStart] starts the race at the rider's cell, and its waypoints
    followed by its end point are the stops' hotel and home cells in order:
    hotel 1, home 1, hotel 2, home 2, ... *)
Theorem handleStart_visits_stops_in_order
    riders hotels homes selectedRiderId stops rider pairs :
  List.find (fun x => bool_decide (Rider.id x = selectedRiderId)) riders = Some rider ->
  stops <> [] ->
  Forall2 (fun s hd => findEntity (hotelId s) hotels = Some hd.1 /\
                       findEntity (homeId s) homes = Some hd.2) stops pairs ->
  exists waypoints goal,
    handleStart riders hotels homes selectedRiderId stops
    = Some (Rider.pos rider, waypoints, goal) /\
    waypoints ++ [goal] = pairs ≫= (fun hd => [Entity.pos hd.1; Entity.pos hd.2]).
Proof. apply handleStart_route. Qed.

Lemma handleStart_visits_stops_in_order_witness :
  let rider := Rider.mk "r1" RIDER (mkPos 0 0) "R1" "" IDLE [] [] None 1 0 0 0 0 None in
  let hotel := Entity.mk "h1" HOTEL (mkPos 0 2) "H1" "" in
  let home := Entity.mk "d1" HOME (mkPos 2 2) "C1" "" in
  exists waypoints goal,
    handleStart [rider] [hotel] [home] "r1" [mkStop "h1" "d1"]
    = Some (Rider.pos rider, waypoints, goal) /\
    waypoints ++ [goal]
    = [(hotel, home)] ≫= (fun hd => [Entity.pos hd.1; Entity.pos hd.2]).
Proof.
  intros rider hotel home.
  apply (handleStart_visits_stops_in_order [rider] [hotel] [home] "r1"
           [mkStop "h1" "d1"] rider [(hotel, home)]).
  - reflexivity.
  - discriminate.
  - constructor; [|constructor]. split; reflexivity.
Defined.

(** X15: [handleStart] starts no race when no rider is selected, when the
    list of stops is empty, or when the home of the last stop is gone. *)
Theorem handleStart_refuses riders hotels homes selectedRiderId stops :
  List.find (fun x => bool_decide (Rider.id x = selectedRiderId)) riders = None \/
  stops = [] \/
  (exists s, last stops = Some s /\ findEntity (homeId s) homes = None) ->
  handleStart riders hotels homes selectedRiderId stops = None.
Proof.
  unfold handleStart. intros [->|[->|(s & -> & ->)]]; [done| |].
  - by destruct (List.find _ riders).
  - by destruct (List.find _ riders).
Qed.

Lemma handleStart_refuses_witness :
  handleStart [] [] [] "r1" [mkStop "h1" "d1"] = None.
Proof.
  apply (handleStart_refuses [] [] [] "r1" [mkStop "h1" "d1"]). left. reflexivity.
Defined.

(** X16: a race started from the route builder shows, for every strategy
    that finds a route, a path from the rider's cell to the home of the last
    stop that passes through the hotel and the home of every stop. *)
Theorem race_from_route_builder
    riders hotels homes selectedRiderId stops rider pairs walls start waypoints goal x m :
  List.find (fun x => bool_decide (Rider.id x = selectedRiderId)) riders = Some rider ->
  Forall2 (fun s hd => findEntity (hotelId s) hotels = Some hd.1 /\
                       findEntity (homeId s) homes = Some hd.2) stops pairs ->
  handleStart riders hotels homes selectedRiderId stops = Some (start, waypoints, goal) ->
  x ∈ compareAlgorithms start goal walls waypoints ->
  metrics x = Some m ->
  start = Rider.pos rider /\
  (exists hd, last pairs = Some hd /\ goal = Entity.pos hd.2) /\
  walk walls start (path m) goal /\
  forall hd, hd ∈ pairs -> Entity.pos hd.1 ∈ path m /\ Entity.pos hd.2 ∈ path m.
Proof.
  intros Hr HF Hs Hx Hm.
  assert (stops <> []) as Hne.
  { intros ->. unfold handleStart in Hs. rewrite Hr in Hs. done. }
  destruct (handleStart_route riders hotels homes selectedRiderId stops rider pairs
              Hr Hne HF) as (wps & g & Hs' & Hroute).
  rewrite Hs' in Hs. injection Hs as <- <- <-.
  destruct (compareAlgorithms_walk _ _ _ _ _ _ Hx Hm) as [Hw Hin].
  split; [done|].
  assert (forall q, q ∈ wps ++ [g] -> q ∈ path m) as Hall.
  { intros q Hq. apply elem_of_app in Hq as [Hq|Hq]; [by apply Hin|].
    apply list_elem_of_singleton in Hq. subst q. by eapply walk_last_elem. }
  split; [|split; [done|]].
  - assert (pairs <> []) as Hpne.
    { intros ->. apply Forall2_nil_inv_r in HF. done. }
    destruct (last pairs) as [hd|] eqn:Hlast; [|by apply last_None in Hlast].
    exists hd. split; [done|].
    apply (f_equal last) in Hroute. rewrite last_snoc in Hroute.
    clear -Hroute Hlast. revert Hroute.
    induction pairs as [|hd0 pairs IH]; [done|].
    destruct pairs as [|hd1 pairs].
    + simpl in *. injection Hlast as <-. by intros [= ->].
    + rewrite last_cons_cons in Hlast. rewrite bind_cons.
      change ([Entity.pos hd0.1; Entity.pos hd0.2] ++ ?l)
        with (Entity.pos hd0.1 :: Entity.pos hd0.2 :: l).
      rewrite bind_cons.
      change ([Entity.pos hd1.1; Entity.pos hd1.2] ++ ?l)
        with (Entity.pos hd1.1 :: Entity.pos hd1.2 :: l).
      rewrite !last_cons_cons. intros H. apply IH; [done|].
      rewrite bind_cons.
      change ([Entity.pos hd1.1; Entity.pos hd1.2] ++ ?l)
        with (Entity.pos hd1.1 :: Entity.pos hd1.2 :: l).
      by rewrite last_cons_cons.
  - intros hd Hhd.
    assert (forall q, q ∈ [Entity.pos hd.1; Entity.pos hd.2] -> q ∈ path m) as Hboth.
    { intros q Hq. apply Hall. rewrite Hroute. apply list_elem_of_bind. by exists hd. }
    split; apply Hboth; [by left|right; by left].
Qed.

Lemma race_from_route_builder_witness :
  let rider := Rider.mk "r1" RIDER (mkPos 0 0) "R1" "" IDLE [] [] None 1 0 0 0 0 None in
  let hotel := Entity.mk "h1" HOTEL (mkPos 0 2) "H1" "" in
  let home := Entity.mk "d1" HOME (mkPos 2 2) "C1" "" in
  exists m,
    legs {[ "0,1" ]} GREEDY 0 [mkPos 0 0; mkPos 0 2; mkPos 2 2] (mkPathResult [] 0 [])
    = Some m /\
    mkPos 0 0 = Rider.pos rider /\
    (exists hd, last [(hotel, home)] = Some hd /\ mkPos 2 2 = Entity.pos hd.2) /\
    walk {[ "0,1" ]} (mkPos 0 0) (path m) (mkPos 2 2) /\
    forall hd, hd ∈ [(hotel, home)] -> Entity.pos hd.1 ∈ path m /\ Entity.pos hd.2 ∈ path m.
Proof.
  intros rider hotel home. eexists. split; [vm_compute; reflexivity|].
  apply (race_from_route_builder [rider] [hotel] [home] "r1" [mkStop "h1" "d1"] rider
           [(hotel, home)] {[ "0,1" ]} (mkPos 0 0) [mkPos 0 2] (mkPos 2 2)
           (mkComparison GREEDY
              (legs {[ "0,1" ]} GREEDY 0 [mkPos 0 0; mkPos 0 2; mkPos 2 2]
                    (mkPathResult [] 0 [])))).
  - reflexivity.
  - constructor; [|constructor]. split; reflexivity.
  - reflexivity.
  - apply elem_of_compareAlgorithms. exists GREEDY. split; [|reflexivity].
    right; left.
  - vm_compute; reflexivity.
Defined.

End RaceFacts.

Module TourFacts.
Import Pathfinding Algorithms AlgSpec TourSpec FoldFacts PathfindingFacts AlgorithmsFacts.

Lemma nearestLoop_spec fuel current unvisited result :
  (length unvisited <= fuel)%nat ->
  exists tour,
    nearestLoop fuel current unvisited result = result ++ tour /\
    tour ≡ₚ unvisited /\ nearestFirst current tour.
Proof.
  revert current unvisited result.
  induction fuel as [|fuel IH]; intros current unvisited result Hlen.
  - destruct unvisited; [|simpl in Hlen; lia]. exists []. by rewrite app_nil_r.
  - cbn [nearestLoop].
    set (cmp := fun a b => getManhattanDistance current a - getManhattanDistance current b).
    pose proof (sortBy_Permutation cmp unvisited) as Hp.
    pose proof (sortBy_head_least cmp (getManhattanDistance current) unvisited) as Hleast.
    destruct (sortBy cmp unvisited) as [|next rest] eqn:Hs.
    + apply Permutation_nil_l in Hp. subst. exists []. by rewrite app_nil_r.
    + destruct (IH next rest (result ++ [next])) as (tour & -> & Hperm & Hnf).
      { apply Permutation_length in Hp. simpl in Hp. lia. }
      exists (next :: tour). split; [by rewrite <- app_assoc|].
      split; [by rewrite Hperm|]. split; [|done].
      intros q Hq. apply (Hleast next rest); [done|done|].
      rewrite <- Hp. right. by rewrite <- Hperm.
Qed.

(** X17: the nearest-neighbour mode of [solveTSP] returns the targets in an
    order in which every stop is one of the remaining targets nearest, in
    Manhattan distance, to the position before it (the start, for the first
    stop). *)
Theorem solveTSP_greedy_nearest_first start points :
  solveTSP start points Method.GREEDY ≡ₚ points /\
  nearestFirst start (solveTSP start points Method.GREEDY).
Proof.
  unfold solveTSP.
  destruct (nearestLoop_spec (length points) start points []) as (tour & -> & Hp & Hn);
    [done|].
  done.
Qed.

Lemma tsp_optimal_least start points q :
  q ≡ₚ points ->
  solveTSP start points Method.OPTIMAL ≡ₚ points /\
  tourLength start (solveTSP start points Method.OPTIMAL) <= tourLength start q.
Proof.
  intros Hq. rewrite <- !tourCost_length. unfold solveTSP.
  set (final := permute (length points) start points [] (mkTour None [])).
  assert (tourRecorded start points final) as Hrec.
  { apply permute_recorded; [done|]. by left. }
  assert (forall q, q ≡ₚ points -> atMost (minDist final) (tourCost start q)) as Hcov.
  { intros q' Hq'. apply (permute_covers start (length points) points [] _ q'); [lia|done]. }
  destruct (Hcov q Hq) as (d1 & Hd1 & Hle).
  destruct Hrec as [Hnone|[Hmin Hperm]]; [congruence|].
  split; [done|]. congruence.
Qed.

(** X18: whatever the method, [solveTSP] returns a rearrangement of the
    targets, and the tour of the OPTIMAL method, measured as the sum of the
    Manhattan distances of its legs, is no longer than the tour of any
    method. *)
Theorem solveTSP_methods_compared start points method :
  solveTSP start points method ≡ₚ points /\
  tourLength start (solveTSP start points Method.OPTIMAL)
  <= tourLength start (solveTSP start points method).
Proof.
  assert (solveTSP start points method ≡ₚ points) as Hp.
  { destruct method; [done| |].
    - unfold solveTSP.
      by destruct (nearestLoop_spec (length points) start points []) as (t & -> & ? & _).
    - by apply (tsp_optimal_least start points points). }
  split; [done|]. by apply tsp_optimal_least.
Qed.

End TourFacts.

Module MatchFacts.
Import Pathfinding Algorithms AlgSpec MatchSpec FoldFacts PathfindingFacts AlgorithmsFacts.

Lemma backtrack_loop n m costMatrix fuel riderIdx currentCost st :
  geInf currentCost (minTotalCost st) = false ->
  riderIdx <> n ->
  backtrack (S fuel) n m costMatrix riderIdx currentCost st =
  let out := foldl (tryTarget fuel n m costMatrix riderIdx currentCost) (st, false)
                   (seq 0 m) in
  if negb out.2 && (m <? n)%nat then
    backtrack fuel n m costMatrix (S riderIdx) currentCost
      (mkAssign (minTotalCost out.1) (bestAssignment out.1) (usedOrders out.1)
                (<[riderIdx := -1]> (currentAssignment out.1)))
  else out.1.
Proof.
  intros H Hne. cbn [backtrack]. rewrite H.
  rewrite (proj2 (Nat.eqb_neq _ _) Hne).
  fold (tryTarget fuel n m costMatrix riderIdx currentCost).
  by destruct (foldl _ _ _) as [st1 found].
Qed.

Lemma tryTarget_all_used fuel n m costMatrix riderIdx currentCost st found l :
  (forall j, j ∈ l -> j ∈ usedOrders st) ->
  foldl (tryTarget fuel n m costMatrix riderIdx currentCost) (st, found) l = (st, found).
Proof.
  induction l as [|j l IH]; intros Hl; [done|]. simpl.
  rewrite bool_decide_eq_false_2; [|intros Hn; apply Hn, Hl; by left].
  apply IH. intros j' Hj'. apply Hl. by right.
Qed.

Lemma tryTarget_used fuel n m costMatrix riderIdx currentCost s found j :
  j ∈ usedOrders s ->
  tryTarget fuel n m costMatrix riderIdx currentCost (s, found) j = (s, found).
Proof. intros Hj. unfold tryTarget. by rewrite bool_decide_eq_false_2 by (by intros ?). Qed.

Lemma tryTarget_free fuel n m costMatrix riderIdx currentCost s found j :
  j ∉ usedOrders s ->
  tryTarget fuel n m costMatrix riderIdx currentCost (s, found) j =
  let s2 := backtrack fuel n m costMatrix (S riderIdx)
              (currentCost + entry costMatrix riderIdx j)
              (mkAssign (minTotalCost s) (bestAssignment s) ({[j]} ∪ usedOrders s)
                        (<[riderIdx := Z.of_nat j]> (currentAssignment s))) in
  (mkAssign (minTotalCost s2) (bestAssignment s2) (usedOrders s2 ∖ {[j]})
            (currentAssignment s2), true).
Proof. intros Hj. unfold tryTarget. by rewrite bool_decide_eq_true_2. Qed.

Section ExtraRiders.
Context (n m : nat) (cmN cmM : list (list Z)).
Hypothesis more_riders : (m <= n)%nat.
Hypothesis agree : forall i j, (i < m)%nat -> entry cmN i j = entry cmM i j.
Hypothesis costs_nonneg : forall i j, 0 <= entry cmM i j.

(** Once every target is taken, the remaining riders are passed over one
    after the other and the assignment built so far is recorded, if it is
    cheaper than the best one. *)
Lemma backtrack_skips fuel riderIdx currentCost st :
  (m <= riderIdx <= n)%nat -> (n - riderIdx <= fuel)%nat ->
  (forall j, (j < m)%nat -> j ∈ usedOrders st) ->
  drop m (currentAssignment st) = replicate (n - m) (-1) ->
  length (currentAssignment st) = n ->
  backtrack fuel n m cmN riderIdx currentCost st =
  if geInf currentCost (minTotalCost st) then st
  else mkAssign (Some currentCost) (currentAssignment st) (usedOrders st)
                (currentAssignment st).
Proof.
  revert riderIdx. induction fuel as [|fuel IH]; intros riderIdx Hr Hfuel Hused Hdrop Hlen;
    destruct (geInf currentCost (minTotalCost st)) eqn:Hge;
    try (by rewrite backtrack_pruned).
  - assert (riderIdx = n) as -> by lia. by rewrite backtrack_leaf.
  - destruct (decide (riderIdx = n)) as [->|Hne]; [by rewrite backtrack_leaf|].
    rewrite backtrack_loop by done.
    rewrite tryTarget_all_used; [|intros j Hj; apply Hused; apply elem_of_seq in Hj; lia].
    cbn [fst snd negb andb].
    assert ((m <? n)%nat = true) as -> by (apply Nat.ltb_lt; lia).
    assert (<[riderIdx := -1]> (currentAssignment st) = currentAssignment st) as ->.
    { apply list_insert_id.
      rewrite <- (take_drop m (currentAssignment st)), Hdrop.
      rewrite lookup_app_r by (rewrite length_take; lia).
      apply lookup_replicate_2. rewrite length_take. lia. }
    replace (mkAssign (minTotalCost st) (bestAssignment st) (usedOrders st)
                      (currentAssignment st)) with st by (by destruct st).
    rewrite IH; [done|lia|lia|done|done|done].
Qed.

Lemma all_targets_taken (p : list nat) :
  NoDup p -> length p = m -> (forall j, j ∈ p -> (j < m)%nat) ->
  forall j, (j < m)%nat -> j ∈ p.
Proof.
  intros Hnd Hlen Hlt j Hj.
  assert (p ≡ₚ seq 0 m) as Hp.
  { apply submseteq_length_Permutation.
    - apply NoDup_submseteq; [done|]. intros x Hx. apply elem_of_seq. apply Hlt in Hx. lia.
    - rewrite length_seq. lia. }
  rewrite Hp. apply elem_of_seq. lia.
Qed.

Lemma some_target_free (p : list nat) :
  NoDup p -> (length p < m)%nat ->
  exists j, (j < m)%nat /\ j ∉ p.
Proof.
  intros Hnd Hlen.
  destruct (decide (Exists (fun j => j ∉ p) (seq 0 m))) as [He|Hn].
  - apply Exists_exists in He as (j & Hj & Hp). exists j. split; [|done].
    apply elem_of_seq in Hj. lia.
  - exfalso. apply not_Exists_Forall in Hn; [|apply _].
    rewrite Forall_forall in Hn.
    assert (seq 0 m ⊆+ p) as Hsub.
    { apply NoDup_submseteq; [apply NoDup_seq|]. intros x Hx.
      specialize (Hn x Hx). simpl in Hn. by apply dec_stable. }
    apply submseteq_length in Hsub. rewrite length_seq in Hsub. lia.
Qed.

(** The search for [n] riders and the search for the first [m] of them stay
    in step. *)
Lemma backtrack_sim k :
  forall fuelN fuelM riderIdx currentCost stN stM p,
    (m - riderIdx = k)%nat -> (riderIdx <= m)%nat ->
    (n - riderIdx <= fuelN)%nat -> (m - riderIdx <= fuelM)%nat ->
    sameSearch n m stN stM ->
    partialAssignment m m cmM p riderIdx currentCost stM ->
    bestRecorded m m cmM stM ->
    (forall j, j ∈ usedOrders stM -> j ∈ p) ->
    sameSearch n m
      (backtrack fuelN n m cmN riderIdx currentCost stN)
      (backtrack fuelM m m cmM riderIdx currentCost stM).
Proof.
  induction k as [|k IH];
    intros fuelN fuelM riderIdx currentCost stN stM p Hk Hle HfN HfM Hsame Hp Hbest Hup.
  - assert (riderIdx = m) as -> by lia.
    destruct Hsame as (Hmin & Hused & Hlen & Htake & Hdrop & Hb).
    destruct Hp as (Hlp & Hlc & Htp & Hnd & Hpu & Hcost).
    rewrite backtrack_skips; [|lia|lia| |done|done].
    2:{ intros j Hj. rewrite Hused. apply Hpu.
        apply all_targets_taken; [done|done| |done]. intros j' Hj'. by apply Hpu. }
    rewrite Hmin.
    destruct (geInf currentCost (minTotalCost stM)) eqn:Hge.
    + rewrite backtrack_pruned by done. done.
    + rewrite backtrack_leaf by done.
      split; [done|]. split; [done|]. split; [done|]. split; [done|]. split; [done|].
      right. simpl. split; [done|].
      by rewrite <- Htake, <- Hdrop, take_drop.
  - assert (riderIdx < m)%nat as Hlt by lia.
    pose proof Hsame as (Hmin & Hused & Hlen & Htake & Hdrop & Hb).
    destruct (geInf currentCost (minTotalCost stM)) eqn:Hge.
    { rewrite !backtrack_pruned by (by rewrite ?Hmin). done. }
    destruct fuelN as [|fuelN]; [lia|]. destruct fuelM as [|fuelM]; [lia|].
    rewrite backtrack_loop by (rewrite ?Hmin; done || lia).
    rewrite (backtrack_node m m cmM) by (done || lia).
    assert (forall l accN accM,
              (forall j, j ∈ l -> (j < m)%nat) ->
              sameSearch n m accN.1 accM.1 ->
              backtrackOk m m cmM riderIdx stM accM.1 ->
              let outN := foldl (tryTarget fuelN n m cmN riderIdx currentCost) accN l in
              let outM := foldl (tryTarget fuelM m m cmM riderIdx currentCost) accM l in
              sameSearch n m outN.1 outM.1 /\
              backtrackOk m m cmM riderIdx stM outM.1 /\
              (accN.2 = true \/ (exists j, j ∈ l /\ j ∉ usedOrders stM) -> outN.2 = true))
      as Hfold.
    { induction l as [|j l IHl]; intros [sN fN] [sM fM] Hl Hs Hok; cbn [fst snd] in *.
      { simpl. split; [done|]. split; [done|]. intros [?|(j & Hj & _)]; [done|].
        by apply elem_of_nil in Hj. }
      cbn [foldl].
      destruct Hs as (Hmin' & Hused' & Hlen' & Htake' & Hdrop' & Hb').
      destruct Hok as (Hu & Hl' & Ht & Hbr).
      destruct (decide (j ∈ usedOrders sM)) as [Hj|Hj].
      { rewrite !tryTarget_used by (by rewrite ?Hused').
        destruct (IHl (sN, fN) (sM, fM)) as (H1 & H2 & H3); cbn [fst snd];
          [intros; apply Hl; by right|done|done|].
        split; [done|]. split; [done|]. intros [?|(j' & Hj' & Hfree)]; apply H3; [by left|].
        right. exists j'. split; [|done].
        apply elem_of_cons in Hj' as [->|?]; [|done]. by rewrite Hu in Hj. }
      rewrite !tryTarget_free by (by rewrite ?Hused'). cbn zeta. rewrite Hused'.
      assert (j < m)%nat as Hjm by (apply Hl; by left).
      rewrite (agree riderIdx j Hlt). rewrite Hmin'.
      set (s1N := mkAssign (minTotalCost sM) (bestAssignment sN) ({[j]} ∪ usedOrders sM)
                    (<[riderIdx := Z.of_nat j]> (currentAssignment sN))).
      set (s1M := mkAssign (minTotalCost sM) (bestAssignment sM) ({[j]} ∪ usedOrders sM)
                    (<[riderIdx := Z.of_nat j]> (currentAssignment sM))).
      destruct Hp as (Hlp & Hlc & Htp & Hnd & Hpu & Hcost).
      assert (sameSearch n m s1N s1M) as Hs1.
      { unfold s1N, s1M. split; [done|]. split; [done|]. cbn [currentAssignment bestAssignment].
        split; [by rewrite length_insert|].
        split; [rewrite take_insert_lt by lia; by rewrite Htake'|].
        split; [by rewrite drop_insert_lt by lia|done]. }
      assert (partialAssignment m m cmM (p ++ [j]) (S riderIdx)
                (currentCost + entry cmM riderIdx j) s1M) as Hp1.
      { unfold partialAssignment, s1M; cbn [currentAssignment usedOrders].
        split; [rewrite length_app; simpl; lia|].
        split; [by rewrite length_insert|].
        split.
        { rewrite fmap_app. simpl. rewrite <- Htp, <- Ht.
          rewrite (take_S_r _ _ (Z.of_nat j)).
          - by rewrite take_insert_ge by lia.
          - apply list_lookup_insert_eq. lia. }
        split.
        { apply NoDup_app. split; [done|]. split; [|apply NoDup_singleton].
          intros x Hx Hx'. apply list_elem_of_singleton in Hx'. subst x.
          apply Hj. rewrite Hu. by apply Hpu. }
        split.
        { intros x Hx. apply elem_of_app in Hx as [Hx|Hx].
          - destruct (Hpu x Hx) as [? ?]. split; [done|]. apply elem_of_union. right.
            by rewrite Hu.
          - apply list_elem_of_singleton in Hx. subst x. split; [done|].
            apply elem_of_union. left. by apply elem_of_singleton. }
        rewrite (assignmentCost_snoc m m cmM) by lia. rewrite Hcost, Hlp. simpl. done. }
      assert (forall x, x ∈ usedOrders s1M -> x ∈ p ++ [j]) as Hup1.
      { unfold s1M; cbn [usedOrders]. intros x Hx. apply elem_of_app.
        apply elem_of_union in Hx as [Hx|Hx].
        - right. apply elem_of_singleton in Hx. subst. by left.
        - left. apply Hup. by rewrite <- Hu. }
      pose proof (IH fuelN fuelM (S riderIdx) (currentCost + entry cmM riderIdx j)
                    s1N s1M (p ++ [j]) ltac:(lia) ltac:(lia) ltac:(lia) ltac:(lia)
                    Hs1 Hp1 Hbr Hup1) as Hs2.
      destruct (backtrack_ok m m cmM costs_nonneg (le_n m) fuelM (S riderIdx)
                  (currentCost + entry cmM riderIdx j) s1M (p ++ [j])
                  ltac:(lia) ltac:(lia) Hp1 Hbr) as ((Hu2 & Hl2 & Ht2 & Hb2) & _ & _).
      set (s2N := backtrack fuelN n m cmN (S riderIdx) _ s1N) in *.
      set (s2M := backtrack fuelM m m cmM (S riderIdx) _ s1M) in *.
      destruct Hs2 as (Hmin2 & Hused2 & Hlen2 & Htake2 & Hdrop2 & Hbb2).
      destruct (IHl (mkAssign (minTotalCost s2N) (bestAssignment s2N)
                              (usedOrders s2N ∖ {[j]}) (currentAssignment s2N), true)
                    (mkAssign (minTotalCost s2M) (bestAssignment s2M)
                              (usedOrders s2M ∖ {[j]}) (currentAssignment s2M), true))
        as (H1 & H2 & H3); cbn [fst snd].
      { intros; apply Hl; by right. }
      { split; [done|]. split; [cbn; by rewrite Hused2|]. done. }
      { split; [|split; [done|split; [|done]]].
        - cbn [usedOrders]. rewrite Hu2. unfold s1M; cbn [usedOrders]. rewrite <- Hu.
          apply set_eq. intros x.
          rewrite elem_of_difference, elem_of_union, elem_of_singleton.
          split; [by intros [[?|?] ?]|]. intros Hx. split; [by right|]. by intros ->.
        - cbn [currentAssignment]. apply (f_equal (take riderIdx)) in Ht2.
          rewrite !take_take, Nat.min_l in Ht2 by lia. rewrite Ht2.
          unfold s1M; cbn [currentAssignment]. rewrite take_insert_ge by lia. done. }
      split; [done|]. split; [done|]. intros _. apply H3. by left. }
    destruct (Hfold (seq 0 m) (stN, false) (stM, false)) as (H1 & H2 & H3); cbn [fst snd].
    { intros j Hj. apply elem_of_seq in Hj. lia. }
    { done. }
    { destruct Hp as (Hlp & Hlc & Htp & Hnd & Hpu & Hcost).
      split; [done|]. split; [done|]. split; [done|]. done. }
    cbn zeta. rewrite H3.
    + done.
    + right. destruct Hp as (Hlp & Hlc & Htp & Hnd & Hpu & Hcost).
      destruct (some_target_free p Hnd ltac:(lia)) as (j & Hj & Hfree).
      exists j. split; [apply elem_of_seq; lia|]. intros Hin. by apply Hfree, Hup.
Qed.

End ExtraRiders.

Lemma entry_take riderPositions orderPositions k i j :
  (i < k)%nat ->
  entry (costMatrixOf riderPositions orderPositions) i j
  = entry (costMatrixOf (take k riderPositions) orderPositions) i j.
Proof.
  intros Hi. unfold entry, costMatrixOf.
  change (map ?f ?l) with (f <$> l).
  rewrite !(list_lookup_total_alt _ i), fmap_take, lookup_take_lt by done. done.
Qed.

Lemma omap_agree {A B} (f g : A -> option B) (l : list A) :
  (forall x, x ∈ l -> f x = g x) -> omap f l = omap g l.
Proof.
  induction l as [|x l IH]; intros H; [done|]. simpl.
  rewrite (H x) by (by left).
  assert (omap f l = omap g l) as Hrec by (apply IH; intros y Hy; apply H; by right).
  destruct (g x); [f_equal|]; exact Hrec.
Qed.

Lemma omap_none {A B} (f : A -> option B) (l : list A) :
  (forall x, x ∈ l -> f x = None) -> omap f l = [].
Proof.
  induction l as [|x l IH]; intros H; [done|]. simpl.
  rewrite (H x) by (by left). apply IH. intros y Hy. apply H. by right.
Qed.

Lemma sameSearch_read n m cmN cmM stN stM :
  (m <= n)%nat ->
  (forall i j, (i < m)%nat -> entry cmN i j = entry cmM i j) ->
  sameSearch n m stN stM ->
  omap (readAssignment cmN (bestAssignment stN)) (seq 0 n)
  = omap (readAssignment cmM (bestAssignment stM)) (seq 0 m).
Proof.
  intros Hmn Hagree (_ & _ & _ & _ & _ & [[-> ->]|[Hlen ->]]).
  - rewrite !omap_none; [done|by intros|by intros].
  - assert (seq 0 n = seq 0 m ++ seq m (n - m)) as ->
      by (rewrite <- seq_app; f_equal; lia).
    rewrite omap_app.
    rewrite (omap_none _ (seq m (n - m))), app_nil_r.
    + apply omap_agree. intros i Hi. apply elem_of_seq in Hi. unfold readAssignment.
      rewrite lookup_app_l by lia.
      destruct (bestAssignment stM !! i) as [o|]; [|done].
      case_bool_decide; [|done]. by rewrite Hagree by lia.
    + intros i Hi. apply elem_of_seq in Hi. unfold readAssignment.
      rewrite lookup_app_r by lia.
      destruct (replicate (n - m) (-1) !! (i - length (bestAssignment stM))%nat)
        as [o|] eqn:Ho; [|done].
      apply lookup_replicate in Ho as [-> _]. done.
Qed.

Lemma solveAssignment_take riderPositions orderPositions :
  solveAssignment riderPositions orderPositions
  = solveAssignment (take (length orderPositions) riderPositions) orderPositions.
Proof.
  destruct (decide (length riderPositions <= length orderPositions)%nat) as [Hle|Hgt].
  { by rewrite take_ge. }
  set (m := length orderPositions). set (n := length riderPositions).
  assert (length (take m riderPositions) = m) as Hlen by (rewrite length_take; lia).
  change (solveAssignment riderPositions orderPositions)
    with (omap (readAssignment (costMatrixOf riderPositions orderPositions)
                  (bestAssignment
                     (backtrack n n m (costMatrixOf riderPositions orderPositions) 0 0
                        (mkAssign None [] ∅ (replicate n (-1))))))
               (seq 0 n)).
  change (solveAssignment (take m riderPositions) orderPositions)
    with (omap (readAssignment (costMatrixOf (take m riderPositions) orderPositions)
                  (bestAssignment
                     (backtrack (length (take m riderPositions))
                        (length (take m riderPositions)) m
                        (costMatrixOf (take m riderPositions) orderPositions) 0 0
                        (mkAssign None [] ∅
                           (replicate (length (take m riderPositions)) (-1))))))
               (seq 0 (length (take m riderPositions)))).
  rewrite Hlen.
  apply sameSearch_read; [lia|intros; by apply entry_take|].
  apply (backtrack_sim n m _ _ ltac:(lia) (fun i j Hi => entry_take _ _ m i j Hi)
           (entry_nonneg _ _) m n m 0 0 _ _ []); try lia.
  - split; [done|]. split; [done|]. cbn [currentAssignment bestAssignment].
    split; [apply length_replicate|].
    split; [rewrite take_replicate; f_equal; lia|].
    split; [by rewrite drop_replicate|]. by left.
  - split; [done|]. split; [apply length_replicate|]. split; [done|].
    split; [apply NoDup_nil_2|]. split; [|done]. intros j Hj. by apply elem_of_nil in Hj.
  - done.
  - intros j Hj. cbn in Hj. by apply not_elem_of_empty in Hj.
Qed.

(** X19: riders beyond the number of targets play no part in the result:
    [solveAssignment] returns what it returns for the first
    [orderPositions.length] riders alone. *)
Theorem solveAssignment_ignores_extra_riders riderPositions orderPositions :
  solveAssignment riderPositions orderPositions
  = solveAssignment (take (length orderPositions) riderPositions) orderPositions.
Proof. apply solveAssignment_take. Qed.

(** X20: for any numbers of riders and targets [solveAssignment] returns a
    one-to-one matching with as many pairs as the smaller side has members,
    each priced at its Manhattan distance; its total cost is the least among
    the matchings of the first [orderPositions.length] riders. *)
Theorem solveAssignment_always_matches riderPositions orderPositions :
  validMatching riderPositions orderPositions
    (solveAssignment riderPositions orderPositions) /\
  forall l,
    validMatching (take (length orderPositions) riderPositions) orderPositions l ->
    totalCost (solveAssignment riderPositions orderPositions) <= totalCost l.
Proof.
  rewrite solveAssignment_take.
  set (m := length orderPositions).
  assert (length (take m riderPositions) <= m)%nat as Hle by (rewrite length_take; lia).
  destruct (solveAssignment_minimal (take m riderPositions) orderPositions Hle)
    as [(Hall & Hr & Ho & Hl) Hmin].
  split; [|done].
  rewrite length_take in Hl. fold m in Hl.
  split; [|split; [done|split; [done|]]].
  - eapply Forall_impl; [exact Hall|]. intros a (Hi & Hj & Hc). simpl in *.
    rewrite length_take in Hi. split; [lia|]. split; [done|].
    rewrite Hc. symmetry. apply entry_take. lia.
  - rewrite Hl. fold m. lia.
Qed.

Lemma solveAssignment_always_matches_witness :
  totalCost (solveAssignment [mkPos 0 10; mkPos 0 0; mkPos 4 4] [mkPos 0 0; mkPos 5 5])
  <= totalCost [mkAssignment 0 1 10; mkAssignment 1 0 0].
Proof.
  apply (proj2 (solveAssignment_always_matches
                  [mkPos 0 10; mkPos 0 0; mkPos 4 4] [mkPos 0 0; mkPos 5 5])).
  split; [|split; [|split]].
  - repeat constructor; simpl; lia.
  - compute_done.
  - compute_done.
  - reflexivity.
Defined.

End MatchFacts.

Module DeskFacts.
Import NumberFacts Pathfinding Algorithms App AppSpec AlgSpec Desk DeskSpec.
Import FoldFacts PathfindingFacts AppFacts.

(** ** createOrder *)

Lemma sameRider_refl x : sameRider x x.
Proof. by repeat split. Qed.

Lemma updateById_same i f l :
  (forall x, sameRider x (f x)) ->
  Forall2 sameRider l (updateById i f l).
Proof.
  intros Hf. unfold updateById. induction l as [|x l IH]; [constructor|].
  rewrite fmap_cons. constructor; [|done].
  destruct (riderById i x); [apply Hf|apply sameRider_refl].
Qed.

Lemma Forall2_sameRider_refl l : Forall2 sameRider l l.
Proof. induction l; constructor; [apply sameRider_refl|done]. Qed.

Lemma createOrder_frame solve homeId hotelId newOrderId stamp w :
  let w' := createOrder solve homeId hotelId newOrderId stamp w in
  Forall2 sameRider (riders w) (riders w') /\
  hotels w' = hotels w /\ homes w' = homes w /\ walls w' = walls w /\
  pathTrace w' = pathTrace w /\ distanceTraveled w' = distanceTraveled w.
Proof.
  unfold createOrder.
  destruct (List.find _ (homes w)); [|split; [apply Forall2_sameRider_refl|done]].
  destruct (List.find _ (hotels w)); [|split; [apply Forall2_sameRider_refl|done]].
  cbv zeta. destruct (bestRider _).
  { simpl. split; [|done]. apply updateById_same. intros x. by repeat split. }
  destruct (List.filter isIdle _).
  - destruct (List.filter _ _); simpl.
    + split; [apply Forall2_sameRider_refl|done].
    + split; [|done]. apply updateById_same. intros x. by repeat split.
  - destruct (if fairnessMode w then _ else _);
      [|split; [apply Forall2_sameRider_refl|done]].
    destruct (findPath _ _ _ _); simpl.
    + split; [|done]. apply updateById_same. intros x. by repeat split.
    + split; [apply Forall2_sameRider_refl|done].
Qed.

Lemma updateById_hit i f l x :
  x ∈ l -> Rider.id x = i -> f x ∈ updateById i f l.
Proof.
  intros Hx Hi. unfold updateById. apply list_elem_of_fmap. exists x. split; [|done].
  unfold riderById. by rewrite bool_decide_eq_true_2.
Qed.

Lemma find_elem {A} (p : A -> bool) (l : list A) x :
  List.find p l = Some x -> x ∈ l /\ p x = true.
Proof. intros H. apply find_some in H as [H ?]. by apply list_elem_of_In in H. Qed.

Lemma bestRider_known hotelId home w best :
  bestRider (foldl (considerRider (orders w) (homes w) home) (mkBatch None None)
                   (List.filter (isActiveFor hotelId) (riders w))) = Some best ->
  best ∈ riders w.
Proof.
  intros Hb.
  assert (recorded w hotelId home
            (foldl (considerRider (orders w) (homes w) home) (mkBatch None None)
                   (List.filter (isActiveFor hotelId) (riders w)))) as Hrec.
  { apply (foldl_inv (recorded w hotelId home)); [done|].
    intros s x Hx. apply elem_of_List_filter in Hx as [Hx Ha].
    by apply considerRider_recorded. }
  unfold recorded in Hrec. rewrite Hb in Hrec.
  destruct (minDetour _); [|done]. by destruct Hrec.
Qed.

Lemma head_sortBy_elem {A} (cmp : A -> A -> Z) (l : list A) x :
  head (sortBy cmp l) = Some x -> x ∈ l.
Proof.
  intros H. rewrite <- (sortBy_Permutation cmp l).
  destruct (sortBy cmp l); [done|]. injection H as ->. by left.
Qed.

(** X21: [createOrder] leaves the order collection as it is, or appends to
    it the one new order, in state COOKING with the full cooking time: either
    unassigned, or assigned to a rider of the new state who carries the
    order's id among its assigned orders.  When the home or the hotel id is
    unknown, nothing changes at all. *)
Theorem createOrder_outcomes solve homeId hotelId newOrderId stamp w :
  let w' := createOrder solve homeId hotelId newOrderId stamp w in
  let newOrder := freshOrder newOrderId homeId hotelId stamp in
  (orders w' = orders w \/
   orders w' = orders w ++ [newOrder] \/
   exists x, x ∈ riders w' /\ newOrderId ∈ Rider.assignedOrderIds x /\
             orders w' = orders w ++ [setRiderId (Some (Rider.id x)) newOrder]) /\
  Order.status newOrder = COOKING /\
  Order.cookingTimeRemainingMs newOrder = COOKING_TIME_MS /\
  (List.find (byId homeId) (homes w) = None \/
   List.find (byId hotelId) (hotels w) = None -> w' = w).
Proof.
  cbv zeta. split; [|split; [done|split; [done|]]].
  2:{ unfold createOrder. intros [->| ->]; [done|]. by destruct (List.find _ (homes w)). }
  unfold createOrder.
  destruct (List.find _ (homes w)) as [home|]; [|by left].
  destruct (List.find _ (hotels w)) as [hotel|]; [|by left].
  cbv zeta. destruct (bestRider _) as [best|] eqn:Hbest.
  { apply bestRider_known in Hbest. right; right.
    eexists (setColor COLORS.RIDER_BUSY (appendOrderId newOrderId best)).
    split; [by apply (updateById_hit _ (fun x => setColor _ (appendOrderId _ x)))|].
    split; [|done]. simpl. apply elem_of_app. right. by left. }
  destruct (List.filter isIdle (riders w)) as [|idle0 idle] eqn:Hidle.
  - destruct (List.filter (isActiveFor hotelId) (riders w)) as [|fallback rest] eqn:Hact.
    + right; left. done.
    + right; right. exists (appendOrderId newOrderId fallback).
      split; [|split; [|done]].
      * apply updateById_hit; [|done].
        assert (fallback ∈ List.filter (isActiveFor hotelId) (riders w)) as Hf
          by (rewrite Hact; by left).
        by apply elem_of_List_filter in Hf as [? _].
      * simpl. apply elem_of_app. right. by left.
  - destruct (if fairnessMode w then _ else _) as [chosenRider|] eqn:Hch; [|by left].
    assert (chosenRider ∈ riders w) as Hin.
    { assert (chosenRider ∈ idle0 :: idle) as Hc.
      { destruct (fairnessMode w).
        - destruct (solve _ _ _) as [|res ?].
          + injection Hch as <-. by left.
          + by apply list_elem_of_lookup_2 in Hch.
        - by apply head_sortBy_elem in Hch. }
      rewrite <- Hidle in Hc. by apply elem_of_List_filter in Hc as [? _]. }
    destruct (findPath _ _ _ _) as [pathToHotel|]; [|by left].
    right; right. exists (dispatched hotelId newOrderId pathToHotel chosenRider).
    split; [by apply updateById_hit|]. split; [|done]. simpl. by left.
Qed.

Lemma createOrder_outcomes_witness :
  createOrder noFair "nowhere" "h1" "o1" "12:00"
    (mkWorld [] [] [] [] ∅ DIJKSTRA SANDBOX false 50 ∅ 0 "" 0)
  = mkWorld [] [] [] [] ∅ DIJKSTRA SANDBOX false 50 ∅ 0 "" 0.
Proof.
  apply (proj2 (proj2 (proj2 (createOrder_outcomes noFair "nowhere" "h1" "o1" "12:00"
           (mkWorld [] [] [] [] ∅ DIJKSTRA SANDBOX false 50 ∅ 0 "" 0))))).
  left. reflexivity.
Defined.

(** X22: [createOrder] never adds, removes, reorders or moves a rider, and
    never changes a rider's id, label, speed or earnings; it leaves the
    hotels, the homes, the walls, the path trace and the distance counter as
    they are. *)
Theorem createOrder_keeps_riders solve homeId hotelId newOrderId stamp w :
  let w' := createOrder solve homeId hotelId newOrderId stamp w in
  Forall2 sameRider (riders w) (riders w') /\
  hotels w' = hotels w /\ homes w' = homes w /\ walls w' = walls w /\
  pathTrace w' = pathTrace w /\ distanceTraveled w' = distanceTraveled w.
Proof. apply createOrder_frame. Qed.

(** ** generateRandomOrders and handleBurstOrders *)

Lemma alter_same (f : Rider.t -> Rider.t) i l :
  (forall x, sameRider x (f x)) -> Forall2 sameRider l (alter f i l).
Proof.
  intros Hf. revert i. induction l as [|x l IH]; intros i; [constructor|].
  destruct i; simpl.
  - constructor; [apply Hf|apply Forall2_sameRider_refl].
  - constructor; [apply sameRider_refl|apply IH].
Qed.

Lemma sameRider_trans x y z : sameRider x y -> sameRider y z -> sameRider x z.
Proof.
  intros (?&?&?&?&?&?&?) (?&?&?&?&?&?&?). repeat split; congruence.
Qed.

Lemma Forall2_sameRider_trans l1 l2 l3 :
  Forall2 sameRider l1 l2 -> Forall2 sameRider l2 l3 -> Forall2 sameRider l1 l3.
Proof.
  intros H. revert l3. induction H; intros l3 H3; inversion H3; subst; constructor.
  - by eapply sameRider_trans.
  - by apply IHForall2.
Qed.

(** What a generated order looks like. *)
Lemma generateOne_adds solve w newOrdersList updatedRiders g hotel :
  fairnessMode w = false ->
  head (hotels w) = Some hotel ->
  homes w <> [] -> Z.of_nat (length (homes w)) < 2 ^ 53 ->
  (0 <=? random g)%float = true -> (random g <? 1)%float = true ->
  exists o updatedRiders',
    generateOne solve w (newOrdersList, updatedRiders) g
    = Some (newOrdersList ++ [o], updatedRiders') /\
    Forall2 sameRider updatedRiders updatedRiders' /\
    Order.id o = uuid g /\ Order.status o = COOKING /\
    Order.cookingTimeRemainingMs o = COOKING_TIME_MS /\
    Order.hotelId o = Entity.id hotel /\
    exists home, home ∈ homes w /\ Order.homeId o = Entity.id home.
Proof.
  intros Hfair Hhotel Hhomes Hmany H0 H1. unfold generateOne. rewrite Hhotel.
  cbn [mbind option_bind].
  assert (0 < length (homes w))%nat as Hlen by (destruct (homes w); [done|simpl; lia]).
  destruct (random_index (random g) (Z.of_nat (length (homes w))) H0 H1)
    as (k & -> & Hk0 & Hk1); [change (2 ^ prec) with (2 ^ 53); lia|].
  cbn [mbind option_bind].
  assert ((k <? 0) = false) as -> by (apply Z.ltb_ge; lia).
  destruct (homes w !! Z.to_nat k) as [home|] eqn:Hhome.
  2:{ apply lookup_ge_None in Hhome. lia. }
  cbn [mbind option_bind].
  assert (home ∈ homes w) as Hin by (by eapply list_elem_of_lookup_2).
  destruct (List.filter isIdle updatedRiders) as [|idle0 idle] eqn:Hidle.
  { eexists _, _. split; [done|]. split; [apply Forall2_sameRider_refl|].
    repeat split; try done. by exists home. }
  rewrite Hfair.
  destruct (head (sortBy _ (idle0 :: idle))) as [chosenRider|] eqn:Hch.
  2:{ exfalso. pose proof (sortBy_Permutation
                  (byDistanceTo (Entity.pos hotel)) (idle0 :: idle)) as Hp.
      destruct (sortBy _ (idle0 :: idle)); [|done].
      by apply Permutation_nil_l in Hp. }
  cbn [mbind option_bind].
  destruct (findIndex _ _) as [realIdx|];
    [destruct (findPath _ _ _ _) as [pathToHotel|]|].
  - eexists _, _. split; [done|]. split; [apply alter_same; intros x; by repeat split|].
    repeat split; try done. by exists home.
  - eexists _, _. split; [done|]. split; [apply Forall2_sameRider_refl|].
    repeat split; try done. by exists home.
  - eexists _, _. split; [done|]. split; [apply Forall2_sameRider_refl|].
    repeat split; try done. by exists home.
Qed.

Lemma generateRandomOrders_adds solve w inputs currentRiders hotel :
  fairnessMode w = false ->
  head (hotels w) = Some hotel ->
  homes w <> [] -> Z.of_nat (length (homes w)) < 2 ^ 53 ->
  (forall g, g ∈ inputs ->
     (0 <=? random g)%float = true /\ (random g <? 1)%float = true) ->
  exists newOrders updatedRiders,
    generateRandomOrders solve w inputs currentRiders = Some (newOrders, updatedRiders) /\
    Forall2 sameRider currentRiders updatedRiders /\
    Order.id <$> newOrders = uuid <$> inputs /\
    Forall (fun o => Order.status o = COOKING /\
                     Order.cookingTimeRemainingMs o = COOKING_TIME_MS /\
                     Order.hotelId o = Entity.id hotel /\
                     exists home, home ∈ homes w /\ Order.homeId o = Entity.id home)
           newOrders.
Proof.
  intros Hfair Hhotel Hhomes Hmany Hin. unfold generateRandomOrders.
  destruct (hotels w) as [|h0 hs] eqn:Hh; [done|].
  destruct (homes w) as [|d0 ds] eqn:Hd; [done|].
  rewrite <- Hh in Hhotel. rewrite <- Hd in *.
  assert (forall acc0 rs0,
            Forall2 sameRider currentRiders rs0 ->
            exists more updatedRiders,
              foldl (fun acc g => acc ≫= fun a => generateOne solve w a g)
                    (Some (acc0, rs0)) inputs = Some (acc0 ++ more, updatedRiders) /\
              Forall2 sameRider currentRiders updatedRiders /\
              Order.id <$> more = uuid <$> inputs /\
              Forall (fun o => Order.status o = COOKING /\
                               Order.cookingTimeRemainingMs o = COOKING_TIME_MS /\
                               Order.hotelId o = Entity.id hotel /\
                               exists home, home ∈ homes w /\
                                            Order.homeId o = Entity.id home) more) as H.
  { induction inputs as [|g inputs IH]; intros acc0 rs0 Hrs.
    - exists [], rs0. rewrite app_nil_r. done.
    - cbn [foldl mbind option_bind].
      destruct (generateOne_adds solve w acc0 rs0 g hotel Hfair Hhotel Hhomes Hmany)
        as (o & rs1 & -> & Hsame & Hid & Hst & Htime & Hhot & Hhome);
        [apply Hin; by left..|].
      destruct (IH (fun g' Hg' => Hin g' (list_elem_of_further _ _ _ Hg'))
                   (acc0 ++ [o]) rs1) as (more & rs2 & -> & Hs2 & Hids & Hall).
      { by eapply Forall2_sameRider_trans. }
      exists (o :: more), rs2. rewrite <- app_assoc. split; [done|]. split; [done|].
      split; [rewrite !fmap_cons; by rewrite Hid, Hids|]. constructor; [done|done]. }
  destruct (H [] currentRiders (Forall2_sameRider_refl _)) as (more & rs & Hf & ?).
  exists more, rs. done.
Qed.

(** X23: outside the fairness mode, with a hotel and a home on the grid (the
    array of homes, like every array, has fewer than [2 ^ 53] elements) and
    random numbers in [0, 1), [handleBurstOrders] appends one order for each
    of its iterations: each carries the generated id, is COOKING with the
    full cooking time, is placed at the first hotel and goes to one of the
    homes; no rider is added, removed, moved or paid.  Without a hotel, or
    without a home, only the status message changes. *)
Theorem handleBurstOrders_adds solve inputs w :
  (fairnessMode w = false ->
   hotels w <> [] -> homes w <> [] -> Z.of_nat (length (homes w)) < 2 ^ 53 ->
   inputs <> [] ->
   (forall g, g ∈ inputs ->
      (0 <=? random g)%float = true /\ (random g <? 1)%float = true) ->
   exists newOrders,
     orders (handleBurstOrders solve inputs w) = orders w ++ newOrders /\
     Order.id <$> newOrders = uuid <$> inputs /\
     Forall (fun o => Order.status o = COOKING /\
                      Order.cookingTimeRemainingMs o = COOKING_TIME_MS /\
                      Some (Order.hotelId o) = Entity.id <$> head (hotels w) /\
                      exists home, home ∈ homes w /\ Order.homeId o = Entity.id home)
            newOrders /\
     Forall2 sameRider (riders w) (riders (handleBurstOrders solve inputs w))) /\
  (hotels w = [] \/ homes w = [] ->
   handleBurstOrders solve inputs w
   = withMessage "Could not generate orders (No entities?)" w).
Proof.
  split.
  - intros Hfair Hhotels Hhomes Hmany Hinputs Hrnd.
    destruct (head (hotels w)) as [hotel|] eqn:Hhead; [|by destruct (hotels w)].
    destruct (generateRandomOrders_adds solve w inputs (riders w) hotel
                Hfair Hhead Hhomes Hmany Hrnd) as (newOrders & rs & Hgen & Hsame & Hids & Hall).
    unfold handleBurstOrders. rewrite Hgen.
    destruct newOrders as [|o newOrders].
    { destruct inputs; [done|]. simpl in Hids. done. }
    exists (o :: newOrders). split; [done|]. split; [done|]. split; [|done].
    eapply Forall_impl; [exact Hall|]. intros o' (? & ? & Hh & ?).
    split; [done|]. split; [done|]. split; [|done]. simpl. by rewrite Hh.
  - unfold handleBurstOrders, generateRandomOrders. intros [->| ->]; [done|].
    by destruct (hotels w).
Qed.

Lemma handleBurstOrders_adds_witness :
  exists newOrders,
    orders (handleBurstOrders noFair [mkGen "o1" "12:00" 0.375; mkGen "o2" "12:00" 0]
                              exampleWorld)
    = orders exampleWorld ++ newOrders /\
    Order.id <$> newOrders = ["o1"; "o2"].
Proof.
  destruct (proj1 (handleBurstOrders_adds noFair
              [mkGen "o1" "12:00" 0.375; mkGen "o2" "12:00" 0] exampleWorld))
    as (newOrders & Ho & Hids & _).
  - reflexivity.
  - discriminate.
  - discriminate.
  - reflexivity.
  - discriminate.
  - intros g Hg. apply elem_of_cons in Hg as [->|Hg];
      [|apply list_elem_of_singleton in Hg; subst g]; split; reflexivity.
  - exists newOrders. split; [exact Ho|exact Hids].
Defined.

(** ** handleSimulationTick *)

Lemma delivering_id hotels homes walls algorithm now rider st :
  Rider.id (delivering hotels homes walls algorithm now rider st).1 = Rider.id rider.
Proof.
  unfold delivering.
  destruct (List.find (deliverableHere homes rider) (currentOrders st)) as [o|];
    [destruct (findIndex _ (currentOrders st)) as [idx|]|];
    cbv zeta; cbn [fst snd];
    (destruct (existsb _ _); [done|]);
    (destruct (match _ ≫= _ with Some h => Some h | None => head hotels end) as [hotel|];
     [destruct (findPath _ _ _ _)|]; done).
Qed.

Lemma waitingAtHotel_id homes walls algorithm now rider st rider' st' :
  waitingAtHotel homes walls algorithm now rider st = Some (rider', st') ->
  Rider.id rider' = Rider.id rider.
Proof.
  unfold waitingAtHotel. destruct (_ && _); [|by intros [= <- _]].
  destruct (mapM _ _) as [homeTargets|]; [|done].
  destruct (nearestRoute _ _ _ _ _ _ _). by intros [= <- _].
Qed.

Lemma riderStep_id hotels homes walls algorithm now rider st rider' st' :
  riderStep hotels homes walls algorithm now rider st = Some (rider', st') ->
  Rider.id rider' = Rider.id rider.
Proof.
  unfold riderStep. destruct (Rider.pathQueue rider).
  - destruct (Rider.status rider); try (by intros [= <- _]).
    + apply waitingAtHotel_id.
    + intros [= H]. rewrite <- (delivering_id hotels homes walls algorithm now rider st).
      by rewrite H.
  - intros [= <- _]. unfold movedRider. by destruct (0 <? _).
Qed.

Lemma mapRiders_ids step rs st rs' :
  (forall rider s rider' s', step rider s = Some (rider', s') ->
                             Rider.id rider' = Rider.id rider) ->
  (mapRiders step rs st).1 = Some rs' ->
  Rider.id <$> rs' = Rider.id <$> rs.
Proof.
  intros Hstep. revert st rs'. induction rs as [|rider rs IH]; intros st rs'; simpl.
  - by intros [= <-].
  - destruct (step rider st) as [[rider' st']|] eqn:Hs; [|done].
    destruct (mapRiders step rs st') as [out st''] eqn:Hm. simpl.
    destruct out as [rs0|]; [|done]. intros [= <-]. rewrite !fmap_cons.
    rewrite (Hstep _ _ _ _ Hs). f_equal. apply (IH st'). by rewrite Hm.
Qed.

Lemma alter_ids (f : Rider.t -> Rider.t) i (l : list Rider.t) :
  (forall x, Rider.id (f x) = Rider.id x) ->
  Rider.id <$> alter f i l = Rider.id <$> l.
Proof.
  intros Hf. revert i. induction l as [|x l IH]; intros i; [done|].
  destruct i as [|i].
  - change (alter f 0%nat (x :: l)) with (f x :: l). by rewrite !fmap_cons, Hf.
  - change (alter f (S i) (x :: l)) with (x :: alter f i l). by rewrite !fmap_cons, IH.
Qed.

Lemma dispatchPending_ids fair hotels walls algorithm acc i :
  Rider.id <$> (dispatchPending fair hotels walls algorithm acc i).1 = Rider.id <$> acc.1.
Proof.
  destruct acc as [nextRiders st]. unfold dispatchPending.
  destruct (nextOrders st !! i) as [[order shared]|]; [|done].
  destruct (List.filter isIdle nextRiders); [done|].
  destruct (List.find _ hotels); [|done].
  destruct (if fair then _ else _); [|done].
  destruct (findIndex _ _); [|done].
  destruct (findPath _ _ _ _); [|done].
  simpl. by apply alter_ids.
Qed.

Lemma dispatchAllPending_ids fair hotels walls algorithm nextRiders st :
  Rider.id <$> (dispatchAllPending fair hotels walls algorithm nextRiders st).1
  = Rider.id <$> nextRiders.
Proof.
  unfold dispatchAllPending.
  destruct (pendingIndices _) as [|i pending]; [done|].
  destruct (List.filter isIdle nextRiders); [done|].
  apply (foldl_inv (fun acc => Rider.id <$> acc.1 = Rider.id <$> nextRiders)); [done|].
  intros acc j _ Hacc. by rewrite dispatchPending_ids.
Qed.

Lemma findIndex_lookup {A} (p : A -> bool) (l : list A) i :
  findIndex p l = Some i -> exists x, l !! i = Some x /\ p x = true.
Proof.
  revert i. induction l as [|y l IH]; intros i; simpl; [done|].
  destruct (p y) eqn:Hy.
  - intros [= <-]. by exists y.
  - destruct (findIndex p l) as [k|]; [|done]. simpl. intros [= <-].
    by apply IH.
Qed.

Lemma insert_ids i (ur : Rider.t) (l : list Rider.t) x :
  l !! i = Some x -> Rider.id x = Rider.id ur ->
  Rider.id <$> <[i := ur]> l = Rider.id <$> l.
Proof.
  intros Hx Hid. rewrite list_fmap_insert. apply list_insert_id.
  by rewrite list_lookup_fmap, Hx, <- Hid.
Qed.

Lemma syncRider_ids acc ur :
  Rider.id <$> (syncRider acc ur).1 = Rider.id <$> acc.1.
Proof.
  destruct acc as [nextRiders st]. unfold syncRider.
  destruct (findIndex _ _) as [idx|] eqn:Hidx; [|done].
  apply findIndex_lookup in Hidx as (x & Hx & Hp).
  rewrite Hx. case_bool_decide; [|done]. simpl.
  apply (insert_ids _ _ _ x); [done|].
  unfold riderById in Hp. by apply bool_decide_eq_true in Hp.
Qed.

Lemma tick_rider_ids solve captured now gen w :
  Rider.id <$> riders (handleSimulationTick solve captured now gen w)
  = Rider.id <$> riders w.
Proof.
  unfold handleSimulationTick.
  destruct (mapRiders _ (riders w) _) as [[nextRiders1|] st1] eqn:Hmap; [|done].
  assert (Rider.id <$> nextRiders1 = Rider.id <$> riders w) as H1.
  { eapply mapRiders_ids; [|by rewrite Hmap]. intros ????. apply riderStep_id. }
  pose proof (dispatchAllPending_ids (fairnessMode captured) (hotels w) (walls w)
                (algorithm w) nextRiders1 st1) as H2.
  destruct (dispatchAllPending _ _ _ _ nextRiders1 st1) as [nextRiders2 st2].
  cbn [fst] in H2. cbv zeta.
  assert (forall st : TickState,
            Rider.id <$> (if ridersChanged st then nextRiders2 else riders w)
            = Rider.id <$> riders w) as Hfin.
  { intros st. destruct (ridersChanged st); [congruence|done]. }
  destruct (_ && _); [|apply (Hfin st2)].
  destruct (generateRandomOrders _ _ _ _) as [[newOrders updatedRiders]|]; [|done].
  destruct newOrders as [|o newOrders]; [apply (Hfin st2)|].
  destruct (foldl syncRider _ updatedRiders) as [nextRiders4 st4] eqn:Hsync.
  simpl. destruct (ridersChanged st4); [|done].
  assert (Rider.id <$> (foldl syncRider
            (nextRiders2,
             setNextOrders (nextOrders st2 ++ ((fun o => (o, false)) <$> o :: newOrders)) st2)
            updatedRiders).1 = Rider.id <$> nextRiders2) as H4.
  { apply (foldl_inv (fun acc => Rider.id <$> acc.1 = Rider.id <$> nextRiders2)); [done|].
    intros acc ur _ Hacc. by rewrite syncRider_ids. }
  rewrite Hsync in H4. simpl in H4. congruence.
Qed.

(** X24: a tick never adds, removes or reorders riders: the list of rider
    ids is the same after [handleSimulationTick] as before, and so are the
    hotels, the homes and the walls. *)
Theorem tick_keeps_the_cast solve captured now gen w :
  let w' := handleSimulationTick solve captured now gen w in
  Rider.id <$> riders w' = Rider.id <$> riders w /\
  hotels w' = hotels w /\ homes w' = homes w /\ walls w' = walls w.
Proof.
  cbv zeta. split; [apply tick_rider_ids|].
  unfold handleSimulationTick.
  destruct (mapRiders _ (riders w) _) as [[nextRiders1|] st1]; [|done].
  destruct (dispatchAllPending _ _ _ _ nextRiders1 st1) as [nextRiders2 st2].
  cbv zeta. destruct (_ && _); [|done].
  destruct (generateRandomOrders _ _ _ _) as [[newOrders updatedRiders]|]; [|done].
  destruct newOrders as [|o newOrders]; [done|].
  by destruct (foldl syncRider _ updatedRiders).
Qed.

Lemma mapRiders_quiet hotels homes walls algorithm now rs st :
  (forall x, x ∈ rs -> Rider.status x = IDLE /\ Rider.pathQueue x = []) ->
  mapRiders (riderStep hotels homes walls algorithm now) rs st = (Some rs, st).
Proof.
  induction rs as [|x rs IH]; intros H; [done|]. simpl.
  destruct (H x) as [Hs Hq]; [by left|].
  unfold riderStep at 1. rewrite Hq, Hs. rewrite IH; [done|].
  intros y Hy. apply H. by right.
Qed.

Lemma List_filter_none {A} (p : A -> bool) (l : list A) :
  (forall x, x ∈ l -> p x = false) -> List.filter p l = [].
Proof.
  induction l as [|x l IH]; intros H; [done|]. simpl.
  rewrite (H x) by (by left). apply IH. intros y Hy. apply H. by right.
Qed.

Lemma pendingIndices_delivered l :
  (forall o, o ∈ l -> Order.status o = DELIVERED) -> pendingIndices l = [].
Proof.
  intros H. unfold pendingIndices. apply List_filter_none. intros i _.
  destruct (l !! i) as [o|] eqn:Ho; [|done].
  apply list_elem_of_lookup_2 in Ho. rewrite (H o Ho).
  rewrite (bool_decide_eq_false_2 (DELIVERED <> DELIVERED)) by (by intros ?).
  apply andb_false_r.
Qed.

Lemma cookOrder_delivered l :
  (forall o, o ∈ l -> Order.status o = DELIVERED) ->
  existsb cookingChanges l = false /\
  (cookOrder <$> l).*1 = l /\
  zip_with (fun (o : Order.t) (e : Order.t * bool) => if e.2 then e.1 else o)
           l (cookOrder <$> l) = l.
Proof.
  induction l as [|o l IH]; intros H; [done|].
  destruct IH as (H1 & H2 & H3); [intros y Hy; apply H; by right|].
  assert (Order.status o = DELIVERED) as Ho by (apply H; by left).
  assert (cookOrder o = (o, true)) as Hc by (unfold cookOrder; by rewrite Ho).
  split; [|split].
  - simpl. unfold cookingChanges at 1. by rewrite Ho.
  - rewrite !fmap_cons, Hc. simpl. f_equal. exact H2.
  - rewrite fmap_cons, Hc. simpl. f_equal. exact H3.
Qed.

(** X25: when every rider is idle with an empty path queue and every order
    is delivered, a tick outside the fairness demo changes nothing at all. *)
Theorem tick_quiet solve captured now gen w :
  quiet w ->
  scenario captured <> DEMO_FAIRNESS ->
  handleSimulationTick solve captured now gen w = w.
Proof.
  intros [Hr Ho] Hsc. unfold handleSimulationTick.
  rewrite mapRiders_quiet by done.
  destruct (cookOrder_delivered (orders w) Ho) as (He & Hfst & Hzip).
  unfold dispatchAllPending, currentOrders. cbn [nextOrders].
  rewrite Hfst, pendingIndices_delivered by done.
  rewrite (bool_decide_eq_false_2 (scenario captured = DEMO_FAIRNESS)) by done.
  cbn [andb]. cbv zeta. unfold commitOrders, commitMessage.
  cbn [ordersSet ridersChanged pathTraceChanged nextOrders distanceAdded message default].
  rewrite He, Hzip, Z.add_0_r. by destruct w.
Qed.

Lemma tick_quiet_witness :
  let w := mkWorld
             [Rider.mk "r1" RIDER (mkPos 0 0) "R1" COLORS.RIDER_IDLE IDLE [] [] None
                       1.5 0.5 120 1 14 None;
              Rider.mk "r2" RIDER (mkPos 3 1) "R2" COLORS.RIDER_IDLE IDLE [] [] None
                       1 0 0 0 0 None]
             [Order.mk "o1" "d1" "h1" (Some "r1") DELIVERED 0 "12:00:00"
                       (Some 400) (Some 900) (Some 14)]
             [Entity.mk "h1" HOTEL (mkPos 0 2) "H1" COLOR_HOTEL]
             [Entity.mk "d1" HOME (mkPos 2 2) "C1" COLOR_HOME]
             {[ "0,1" ]} DIJKSTRA SANDBOX false 50 {[ "0,2"; "2,2" ]} 14
             "Order delivered!" 0 in
  handleSimulationTick noFair w 1000 (mkGen "o2" "12:00" 0.25) w = w.
Proof.
  intros w. apply (tick_quiet noFair w 1000 (mkGen "o2" "12:00" 0.25) w).
  - split.
    + intros x Hx. apply elem_of_cons in Hx as [->|Hx]; [done|].
      apply list_elem_of_singleton in Hx as ->. done.
    + intros o Ho. apply list_elem_of_singleton in Ho as ->. done.
  - discriminate.
Defined.

(** ** The grid handlers *)

Lemma tidy_frame w w' :
  Forall2 sameRider (riders w) (riders w') ->
  hotels w' = hotels w -> homes w' = homes w -> walls w' = walls w ->
  tidy w -> tidy w'.
Proof.
  intros Hr Hh Hd Hw (Tr & Th & Td). unfold tidy. rewrite Hh, Hd, Hw. split; [|done].
  intros y Hy. apply list_elem_of_lookup in Hy as [k Hk].
  destruct (Forall2_lookup_r _ _ _ _ _ Hr Hk) as (x & Hx & Hs).
  destruct Hs as (_ & -> & _). apply Tr. by eapply list_elem_of_lookup_2.
Qed.

Lemma isAt_spec i j p : isAt i j p = true <-> p = mkPos i j.
Proof.
  unfold isAt. rewrite andb_true_iff, !bool_decide_eq_true. destruct p as [a b].
  simpl. split; [by intros [-> ->]|by intros [= -> ->]].
Qed.

Lemma find_none_elem {A} (p : A -> bool) (l : list A) x :
  List.find p l = None -> x ∈ l -> p x = false.
Proof. intros H Hx. apply list_elem_of_In in Hx. by eapply find_none. Qed.

Lemma getEntityAt_free w i j :
  getEntityAt w i j = None ->
  (forall x, x ∈ riders w -> Rider.pos x <> mkPos i j) /\
  (forall e, e ∈ hotels w -> Entity.pos e <> mkPos i j) /\
  (forall e, e ∈ homes w -> Entity.pos e <> mkPos i j).
Proof.
  unfold getEntityAt.
  destruct (List.find _ (riders w)) eqn:Hr; [done|].
  destruct (List.find _ (hotels w)) eqn:Hh; [done|]. intros Hd.
  split; [|split]; intros x Hx Hp; apply isAt_spec in Hp.
  - by rewrite (find_none_elem _ _ x Hr Hx) in Hp.
  - by rewrite (find_none_elem _ _ x Hh Hx) in Hp.
  - by rewrite (find_none_elem _ _ x Hd Hx) in Hp.
Qed.

Lemma handleOrderClick_tidy solve newOrderId stamp i j d :
  tidy (world d) -> tidy (world (handleOrderClick solve newOrderId stamp i j d)).
Proof.
  intros Ht. unfold handleOrderClick.
  destruct (orderStep d); [done| |].
  - by destruct (List.find _ (homes (world d))).
  - destruct (List.find _ (hotels (world d))) as [hotel|]; [|done].
    destruct (selectedHomeId d) as [homeId|]; [|done].
    destruct (createOrderRaises _ _ _ _); [done|]. simpl.
    destruct (createOrder_frame solve homeId (Entity.id hotel) newOrderId stamp (world d))
      as (Hr & Hh & Hd & Hw & _).
    revert Ht. apply tidy_frame; done.
Qed.

(** X26: a click on the grid, in whatever mode, never leaves a rider, a
    hotel or a home on a wall cell: walls are not drawn under an entity,
    entities are not placed on walls, and placing an order moves nothing. *)
Theorem handleCellClick_keeps_walls_clear solve id stamp rnd i j d :
  tidy (world d) -> tidy (world (handleCellClick solve id stamp rnd i j d)).
Proof.
  intros Ht. pose proof Ht as (Tr & Th & Td). unfold handleCellClick.
  destruct (mode d).
  - by destruct (getEntityAt _ _ _) as [e|]; [destruct (isRider e)|].
  - destruct (getEntityAt _ _ _) as [e|] eqn:He; [by destruct (isRider e)|].
    apply getEntityAt_free in He as (Fr & Fh & Fd).
    assert (forall p, p <> mkPos i j ->
              posKey p ∉ walls (world d) ->
              posKey p ∉ (if bool_decide (posKey (mkPos i j) ∈ walls (world d))
                          then walls (world d) ∖ {[posKey (mkPos i j)]}
                          else {[posKey (mkPos i j)]} ∪ walls (world d))) as Hkey.
    { intros p Hp Hw. case_bool_decide.
      - intros Hin. apply elem_of_difference in Hin as [? _]. done.
      - intros Hin. apply elem_of_union in Hin as [Hin|?]; [|done].
        apply elem_of_singleton in Hin. by apply posKey_inj in Hin. }
    simpl. split; [|split]; intros x Hx; apply Hkey; auto.
  - destruct (getEntityAt _ _ _) as [e|].
    + destruct (isRider e); [|done]. simpl. split; [|done].
      intros x Hx. apply elem_of_List_filter in Hx as [Hx _]. by apply Tr.
    + unfold isWall. case_bool_decide; [done|]. simpl. split; [|done].
      intros x Hx. apply elem_of_app in Hx as [Hx|Hx]; [by apply Tr|].
      apply list_elem_of_singleton in Hx. by subst x.
  - destruct (getEntityAt _ _ _) as [e|].
    + case_bool_decide; [|done]. simpl. split; [done|]. split; [|done].
      intros x Hx. apply elem_of_List_filter in Hx as [Hx _]. by apply Th.
    + unfold isWall. case_bool_decide; [done|]. simpl. split; [done|]. split; [|done].
      intros x Hx. apply elem_of_app in Hx as [Hx|Hx]; [by apply Th|].
      apply list_elem_of_singleton in Hx. by subst x.
  - destruct (getEntityAt _ _ _) as [e|].
    + case_bool_decide; [|done]. simpl. split; [done|]. split; [done|].
      intros x Hx. apply elem_of_List_filter in Hx as [Hx _]. by apply Td.
    + unfold isWall. case_bool_decide; [done|]. simpl. split; [done|]. split; [done|].
      intros x Hx. apply elem_of_app in Hx as [Hx|Hx]; [by apply Td|].
      apply list_elem_of_singleton in Hx. by subst x.
  - by apply handleOrderClick_tidy.
Qed.

Lemma exampleWorld_tidy : tidy exampleWorld.
Proof.
  split; [|split]; intros x Hx; apply list_elem_of_singleton in Hx; subst x;
    vm_compute; intros H; discriminate H.
Qed.

Lemma handleCellClick_keeps_walls_clear_witness :
  tidy (world (handleCellClick noFair "x1" "12:00" 0 0 1
                 (exampleDesk GridMode.HOTEL NONE None))).
Proof.
  apply (handleCellClick_keeps_walls_clear noFair "x1" "12:00" 0 0 1
           (exampleDesk GridMode.HOTEL NONE None)).
  apply exampleWorld_tidy.
Defined.

(** X27: in wall mode, two clicks on a cell that holds no rider, hotel or
    home give back the state before the first click: the wall is drawn and
    erased, or erased and drawn again. *)
Theorem wall_click_twice solve id stamp rnd id' stamp' rnd' i j d :
  mode d = GridMode.WALL ->
  getEntityAt (world d) i j = None ->
  handleCellClick solve id' stamp' rnd' i j (handleCellClick solve id stamp rnd i j d) = d.
Proof.
  intros Hm He. unfold handleCellClick at 2. rewrite Hm, He.
  unfold handleCellClick. cbn [mode world withWorld].
  rewrite Hm.
  change (getEntityAt (withWalls ?v (world d)) i j) with (getEntityAt (world d) i j).
  rewrite He. cbn [walls withWalls withWorld world mode orderStep selectedHomeId
                   selectedRiderId countsRef riders orders hotels homes algorithm scenario
                   fairnessMode fairnessAlpha pathTrace distanceTraveled statusMessage
                   autoOrderRef].
  set (key := posKey (mkPos i j)).
  assert ((if bool_decide
                (key ∈ (if bool_decide (key ∈ walls (world d))
                        then walls (world d) ∖ {[key]} else {[key]} ∪ walls (world d)))
           then (if bool_decide (key ∈ walls (world d))
                 then walls (world d) ∖ {[key]} else {[key]} ∪ walls (world d)) ∖ {[key]}
           else {[key]} ∪ (if bool_decide (key ∈ walls (world d))
                           then walls (world d) ∖ {[key]} else {[key]} ∪ walls (world d)))
          = walls (world d)) as ->.
  { destruct (decide (key ∈ walls (world d))) as [Hin|Hout].
    - rewrite (bool_decide_eq_true_2 _ Hin).
      rewrite bool_decide_eq_false_2
        by (intros H; apply elem_of_difference in H as [_ H]; apply H;
            by apply elem_of_singleton).
      apply set_eq. intros x.
      rewrite elem_of_union, elem_of_difference, elem_of_singleton. split.
      + intros [->|[? _]]; done.
      + intros Hx. destruct (decide (x = key)); [by left|by right].
    - rewrite (bool_decide_eq_false_2 _ Hout).
      rewrite bool_decide_eq_true_2
        by (apply elem_of_union; left; by apply elem_of_singleton).
      apply set_eq. intros x.
      rewrite elem_of_difference, elem_of_union, elem_of_singleton. split.
      + intros [[?|?] ?]; done.
      + intros Hx. split; [by right|]. by intros ->. }
  destruct d as [w ? ? ? ? ?]. simpl. by destruct w.
Qed.

Lemma wall_click_twice_witness :
  handleCellClick noFair "x2" "12:01" 0 5 5
    (handleCellClick noFair "x1" "12:00" 0 5 5 (exampleDesk GridMode.WALL NONE None))
  = exampleDesk GridMode.WALL NONE None.
Proof.
  apply (wall_click_twice noFair "x1" "12:00" 0 "x2" "12:01" 0 5 5
           (exampleDesk GridMode.WALL NONE None)); reflexivity.
Defined.

Lemma find_app_new {A} (p : A -> bool) (l : list A) x :
  List.find p l = None -> p x = true -> List.find p (l ++ [x]) = Some x.
Proof.
  induction l as [|y l IH]; simpl; intros Hn Hx; [by rewrite Hx|].
  destruct (p y); [done|]. by apply IH.
Qed.

Lemma filter_app_new {A} (p : A -> bool) (l : list A) x :
  (forall y, y ∈ l -> p y = true) -> p x = false -> List.filter p (l ++ [x]) = l.
Proof.
  induction l as [|y l IH]; simpl; intros Hall Hx; [by rewrite Hx|].
  rewrite (Hall y) by (by left). f_equal. apply IH; [|done].
  intros z Hz. apply Hall. by right.
Qed.

Lemma getEntityAt_parts w i j :
  getEntityAt w i j = None ->
  List.find (fun e => isAt i j (Rider.pos e)) (riders w) = None /\
  List.find (fun e => isAt i j (Entity.pos e)) (hotels w) = None /\
  List.find (fun e => isAt i j (Entity.pos e)) (homes w) = None.
Proof.
  unfold getEntityAt.
  destruct (List.find _ (riders w)); [done|].
  by destruct (List.find _ (hotels w)).
Qed.

(** X28: in rider, hotel or home mode, a click on a free cell places an
    entity there, and a second click on the same cell removes it again: the
    riders, hotels, homes, walls and orders are then those before the first
    click, provided the generated id is not the id of an entity already on
    the grid. *)
Theorem place_then_click_removes solve id stamp rnd id' stamp' rnd' i j d :
  mode d = GridMode.RIDER \/ mode d = GridMode.HOTEL \/ mode d = GridMode.HOME ->
  getEntityAt (world d) i j = None ->
  isWall (world d) i j = false ->
  (forall x, x ∈ riders (world d) -> Rider.id x <> id) ->
  (forall e, e ∈ hotels (world d) -> Entity.id e <> id) ->
  (forall e, e ∈ homes (world d) -> Entity.id e <> id) ->
  let d1 := handleCellClick solve id stamp rnd i j d in
  let d2 := handleCellClick solve id' stamp' rnd' i j d1 in
  (riders (world d1) <> riders (world d) \/ hotels (world d1) <> hotels (world d) \/
   homes (world d1) <> homes (world d)) /\
  riders (world d2) = riders (world d) /\ hotels (world d2) = hotels (world d) /\
  homes (world d2) = homes (world d) /\ walls (world d2) = walls (world d) /\
  orders (world d2) = orders (world d).
Proof.
  intros Hm He Hw Fr Fh Fd. cbv zeta.
  destruct (getEntityAt_parts _ _ _ He) as (Pr & Ph & Pd).
  assert (forall (l : list Rider.t) x, l ++ [x] <> l) as Hgrow1.
  { intros l x H. apply (f_equal length) in H. rewrite length_app in H. simpl in H. lia. }
  assert (forall (l : list Entity.t) x, l ++ [x] <> l) as Hgrow2.
  { intros l x H. apply (f_equal length) in H. rewrite length_app in H. simpl in H. lia. }
  destruct Hm as [Hm|[Hm|Hm]].
  - assert (handleCellClick solve id stamp rnd i j d
            = withCounts (mkCounts (riderCount (countsRef d) + 1)
                                   (hotelCount (countsRef d)) (homeCount (countsRef d)))
                (withWorld
                   (withRiders
                      (riders (world d)
                       ++ [newRider id (mkPos i j) (riderCount (countsRef d)) rnd])
                      (world d)) d)) as ->
      by (unfold handleCellClick; by rewrite Hm, He, Hw).
    split; [left; apply Hgrow1|].
    unfold handleCellClick, getEntityAt. cbn [world mode withCounts withWorld withRiders riders].
    rewrite Hm.
    rewrite (find_app_new _ _ (newRider id (mkPos i j) (riderCount (countsRef d)) rnd) Pr)
      by (by apply isAt_spec).
    replace (isRider (riderEntity
               (newRider id (mkPos i j) (riderCount (countsRef d)) rnd)))
      with true by reflexivity.
    cbn [riderEntity Entity.id newRider Rider.id].
    cbn [world withWorld withRiders riders hotels homes walls orders].
    split; [|done]. apply filter_app_new.
    + intros y Hy. apply bool_decide_eq_true_2. by apply Fr.
    + apply bool_decide_eq_false_2. by intros H.
  - assert (handleCellClick solve id stamp rnd i j d
            = withCounts (mkCounts (riderCount (countsRef d))
                                   (hotelCount (countsRef d) + 1) (homeCount (countsRef d)))
                (withWorld
                   (withHotels
                      (hotels (world d)
                       ++ [newHotel id (mkPos i j) (hotelCount (countsRef d))])
                      (world d)) d)) as ->
      by (unfold handleCellClick; by rewrite Hm, He, Hw).
    split; [right; left; apply Hgrow2|].
    unfold handleCellClick, getEntityAt.
    cbn [world mode withCounts withWorld withHotels riders hotels].
    rewrite Hm, Pr.
    rewrite (find_app_new _ _ (newHotel id (mkPos i j) (hotelCount (countsRef d))) Ph)
      by (by apply isAt_spec).
    replace (bool_decide
               (Entity.type (newHotel id (mkPos i j) (hotelCount (countsRef d))) = HOTEL))
      with true by reflexivity.
    cbn [Entity.id newHotel].
    cbn [world withWorld withHotels riders hotels homes walls orders].
    split; [done|]. split; [|done]. apply filter_app_new.
    + intros y Hy. apply bool_decide_eq_true_2. by apply Fh.
    + apply bool_decide_eq_false_2. by intros H.
  - assert (handleCellClick solve id stamp rnd i j d
            = withCounts (mkCounts (riderCount (countsRef d))
                                   (hotelCount (countsRef d)) (homeCount (countsRef d) + 1))
                (withWorld
                   (withHomes
                      (homes (world d)
                       ++ [newHome id (mkPos i j) (homeCount (countsRef d))])
                      (world d)) d)) as ->
      by (unfold handleCellClick; by rewrite Hm, He, Hw).
    split; [right; right; apply Hgrow2|].
    unfold handleCellClick, getEntityAt.
    cbn [world mode withCounts withWorld withHomes riders hotels homes].
    rewrite Hm, Pr, Ph.
    rewrite (find_app_new _ _ (newHome id (mkPos i j) (homeCount (countsRef d))) Pd)
      by (by apply isAt_spec).
    replace (bool_decide
               (Entity.type (newHome id (mkPos i j) (homeCount (countsRef d))) = HOME))
      with true by reflexivity.
    cbn [Entity.id newHome].
    cbn [world withWorld withHomes riders hotels homes walls orders].
    split; [done|]. split; [done|]. split; [|done]. apply filter_app_new.
    + intros y Hy. apply bool_decide_eq_true_2. by apply Fd.
    + apply bool_decide_eq_false_2. by intros H.
Qed.

Lemma place_then_click_removes_witness :
  let d := exampleDesk GridMode.RIDER NONE None in
  let d1 := handleCellClick noFair "x1" "12:00" 0 5 5 d in
  let d2 := handleCellClick noFair "x2" "12:01" 0 5 5 d1 in
  (riders (world d1) <> riders (world d) \/ hotels (world d1) <> hotels (world d) \/
   homes (world d1) <> homes (world d)) /\
  riders (world d2) = riders (world d) /\ hotels (world d2) = hotels (world d) /\
  homes (world d2) = homes (world d) /\ walls (world d2) = walls (world d) /\
  orders (world d2) = orders (world d).
Proof.
  apply (place_then_click_removes noFair "x1" "12:00" 0 "x2" "12:01" 0 5 5
           (exampleDesk GridMode.RIDER NONE None)).
  - by left.
  - reflexivity.
  - reflexivity.
  - intros x Hx. apply list_elem_of_singleton in Hx. by subst x.
  - intros x Hx. apply list_elem_of_singleton in Hx. by subst x.
  - intros x Hx. apply list_elem_of_singleton in Hx. by subst x.
Defined.

(** X29: in order mode, a click on a hotel after a home was selected always
    ends with the message "Order Placed! ..." and asks for the next home,
    whatever [createOrder] did: the order collection is the one it left,
    which is the old one when the chosen rider has no path to the hotel. *)
Theorem order_click_always_says_placed solve id stamp rnd i j d hotel homeId :
  mode d = GridMode.ORDER ->
  orderStep d = SELECT_HOTEL ->
  List.find (fun h => isAt i j (Entity.pos h)) (hotels (world d)) = Some hotel ->
  selectedHomeId d = Some homeId ->
  createOrderRaises solve homeId (Entity.id hotel) (world d) = false ->
  let d' := handleCellClick solve id stamp rnd i j d in
  statusMessage (world d') = "Order Placed! Select another Home or exit mode." /\
  orderStep d' = SELECT_HOME /\ selectedHomeId d' = None /\
  orders (world d')
  = orders (createOrder solve homeId (Entity.id hotel) id stamp (world d)) /\
  riders (world d')
  = riders (createOrder solve homeId (Entity.id hotel) id stamp (world d)).
Proof.
  intros Hm Hs Hh Hsel Hr. cbv zeta.
  unfold handleCellClick. rewrite Hm. unfold handleOrderClick. rewrite Hs, Hh, Hsel, Hr.
  done.
Qed.

Lemma order_click_always_says_placed_witness :
  let d := exampleDesk GridMode.ORDER SELECT_HOTEL (Some "d1") in
  let d' := handleCellClick noFair "o1" "12:00" 0 0 2 d in
  statusMessage (world d') = "Order Placed! Select another Home or exit mode." /\
  orderStep d' = SELECT_HOME /\ selectedHomeId d' = None /\
  orders (world d') = orders (createOrder noFair "d1" "h1" "o1" "12:00" (world d)) /\
  riders (world d') = riders (createOrder noFair "d1" "h1" "o1" "12:00" (world d)).
Proof.
  apply (order_click_always_says_placed noFair "o1" "12:00" 0 0 2
           (exampleDesk GridMode.ORDER SELECT_HOTEL (Some "d1"))
           (Entity.mk "h1" HOTEL (mkPos 0 2) "H1" COLOR_HOTEL) "d1"); reflexivity.
Defined.

End DeskFacts.
